(** * osg/EllipsoidModel.js: geodetic conversions and the local frame

    A shallow embedding of [src/sources/osg/EllipsoidModel.js].

    - Numbers.  A JavaScript number is modelled by [num]: a real number
      or one of the three special values of IEEE-754 arithmetic
      (+Infinity, -Infinity, NaN).  Arithmetic is exact: there is no
      rounding and no overflow, and zero carries no sign (it divides
      like +0).  [Math.sin], [Math.cos], [Math.atan], [Math.atan2] and
      [Math.sqrt] are the real functions, extended to the special
      values as ECMAScript prescribes.
      The floating-point arithmetic of the code departs from this in
      kind, and not only in the last digits, in four places.  No
      floating-point number is pi/2, so [Math.cos] never returns 0 in
      the code, while the cosine of the model does at [Fin (PI / 2)].
      Sums and products beyond about 1.8e308 overflow to an infinity.
      A coefficient within about 1e-16 of 1 is stored as 1.  The sign
      of a zero decides the sign of a quotient by it and the branch of
      [Math.atan2] on the negative X axis.  Where one of these matters
      a statement is relational (the result is the formula of the code,
      in the arithmetic of the code), or says that it holds in exact
      arithmetic, or leaves these inputs out.
    - Objects.  Arrays (Vec3, Matrix) and the model instance live in a
      heap of objects addressed by reference; an object maps property
      keys (array indices and field names) to numbers.  Methods are
      computations in a state monad over the heap, the closure-private
      scratch vectors of [computeCoordinateFrame] and the log written
      by [Notify.warn]. *)

From Stdlib Require Import Reals Lra.
From stdpp Require Import gmap strings.

(** ** JavaScript numbers *)

Inductive num : Type :=
  | Fin (r : R)
  | PInf
  | NInf
  | NaN.

#[global] Instance R_eq_dec : EqDecision R := Req_dec_T.
#[global] Instance Rlt_decision (x y : R) : Decision (x < y)%R := Rlt_dec x y.
#[global] Instance Rle_decision (x y : R) : Decision (x <= y)%R := Rle_dec x y.

Module Number.

(** The infinity with the sign of [0 < r] (zero counts as +0). *)
Definition inf_like (r : R) : num :=
  if decide (r < 0)%R then NInf else PInf.

Definition flip (x : num) : num :=
  match x with
  | Fin r => Fin (- r)
  | PInf => NInf
  | NInf => PInf
  | NaN => NaN
  end.

Definition add (x y : num) : num :=
  match x, y with
  | NaN, _ | _, NaN => NaN
  | Fin a, Fin b => Fin (a + b)
  | PInf, NInf | NInf, PInf => NaN
  | PInf, _ | _, PInf => PInf
  | NInf, _ | _, NInf => NInf
  end.

Definition sub (x y : num) : num := add x (flip y).

(** infinity times a finite factor *)
Definition scale_inf (i : num) (r : R) : num :=
  if decide (r = 0%R) then NaN
  else if decide (r < 0)%R then flip i else i.

Definition mul (x y : num) : num :=
  match x, y with
  | NaN, _ | _, NaN => NaN
  | Fin a, Fin b => Fin (a * b)
  | Fin a, i => scale_inf i a
  | i, Fin b => scale_inf i b
  | PInf, PInf | NInf, NInf => PInf
  | PInf, NInf | NInf, PInf => NInf
  end.

Definition div (x y : num) : num :=
  match x, y with
  | NaN, _ | _, NaN => NaN
  | Fin a, Fin b =>
      if decide (b = 0%R)
      then (if decide (a = 0%R) then NaN else inf_like a)
      else Fin (a / b)
  | Fin _, _ => Fin 0
  | i, Fin b => if decide (b < 0)%R then flip i else i
  | _, _ => NaN
  end.

(** [x === y] on numbers *)
Definition strict_eq (x y : num) : bool :=
  match x, y with
  | Fin a, Fin b => bool_decide (a = b)
  | PInf, PInf | NInf, NInf => true
  | _, _ => false
  end.

Definition is_finite (x : num) : bool :=
  match x with Fin _ => true | _ => false end.

End Number.

Declare Scope js_scope.
Delimit Scope js_scope with js.
Bind Scope js_scope with num.
Infix "+" := Number.add : js_scope.
Infix "-" := Number.sub : js_scope.
Infix "*" := Number.mul : js_scope.
Infix "/" := Number.div : js_scope.
Notation "- x" := (Number.flip x) : js_scope.
Infix "===" := Number.strict_eq (at level 70, no associativity) : js_scope.

(** The [atan2] of two reals, with the conventions of ECMAScript for an
    unsigned zero. *)
Definition Ratan2 (y x : R) : R :=
  if decide (0 < x)%R then atan (y / x)
  else if decide (x < 0)%R then
    (if decide (0 <= y)%R then atan (y / x) + PI else atan (y / x) - PI)
  else if decide (0 < y)%R then PI / 2
  else if decide (y < 0)%R then - (PI / 2)
  else 0.

Module Math.

Definition sin (x : num) : num :=
  match x with Fin r => Fin (Rtrigo_def.sin r) | _ => NaN end.

Definition cos (x : num) : num :=
  match x with Fin r => Fin (Rtrigo_def.cos r) | _ => NaN end.

Definition sqrt (x : num) : num :=
  match x with
  | Fin r => if decide (r < 0)%R then NaN else Fin (R_sqrt.sqrt r)
  | PInf => PInf
  | _ => NaN
  end.

Definition atan (x : num) : num :=
  match x with
  | Fin r => Fin (Ratan.atan r)
  | PInf => Fin (PI / 2)
  | NInf => Fin (- (PI / 2))
  | NaN => NaN
  end.

Definition atan2 (y x : num) : num :=
  match y, x with
  | NaN, _ | _, NaN => NaN
  | Fin b, Fin a => Fin (Ratan2 b a)
  | Fin b, PInf => Fin 0
  | Fin b, NInf => if decide (b < 0)%R then Fin (- PI) else Fin PI
  | PInf, Fin _ => Fin (PI / 2)
  | NInf, Fin _ => Fin (- (PI / 2))
  | PInf, PInf => Fin (PI / 4)
  | NInf, PInf => Fin (- (PI / 4))
  | PInf, NInf => Fin (3 * PI / 4)
  | NInf, NInf => Fin (- (3 * PI / 4))
  end.

End Math.

(** ** Objects, references and the heap *)

(** A property key: an array index ([a[0]]) or a field name
    ([this._radiusEquator]). *)
Inductive key : Type :=
  | Index (i : nat)
  | Name (s : string).

#[global] Instance key_eq_dec : EqDecision key.
Proof. solve_decision. Defined.

#[global] Instance key_countable : Countable key.
Proof.
  refine (inj_countable'
            (λ k, match k with Index i => inl i | Name s => inr s end)
            (λ x, match x with inl i => Index i | inr s => Name s end) _).
  by intros [].
Qed.

(** An object maps its own properties to numbers. *)
Abbreviation Obj := (gmap key num).

(** Reading [o[k]] in a numeric position: a property that is absent
    reads as [undefined], which is [NaN] in arithmetic. *)
Definition prop (o : Obj) (k : key) : num := default NaN (o !! k).

(** The array literal [[x0, x1, ...]]. *)
Fixpoint array_from (i : nat) (xs : list num) : Obj :=
  match xs with
  | [] => ∅
  | x :: xs' => <[Index i := x]> (array_from (S i) xs')
  end.
Definition array (xs : list num) : Obj := array_from 0 xs.

Definition loc := nat.

(** The scratch vectors captured by the closure of
    [computeCoordinateFrame]; no other code holds a reference to them. *)
Record FrameScratch : Type := mkScratch {
  up : Obj;
  east : Obj;
  north : Obj
}.

Record World : Type := mkWorld {
  heap : gmap loc Obj;
  scratch : FrameScratch;
  warnings : list string
}.

Definition with_heap (h : gmap loc Obj) (w : World) : World :=
  mkWorld h (scratch w) (warnings w).
Definition with_scratch (s : FrameScratch) (w : World) : World :=
  mkWorld (heap w) s (warnings w).

(** ** The state monad of methods *)

Definition M (A : Type) : Type := World → A * World.

#[global] Instance M_ret : MRet M := λ A (a : A) w, (a, w).
#[global] Instance M_bind : MBind M :=
  λ A B (f : A → M B) (m : M A) w, let '(a, w') := m w in f a w'.

(** [o[k]] for the object behind reference [l] *)
Definition field (w : World) (l : loc) (k : key) : option num :=
  heap w !! l ≫= (.!! k).

Definition getProp (l : loc) (k : key) : M num :=
  λ w, (default NaN (field w l k), w).

(** [l[k] = v] *)
Definition setProp (l : loc) (k : key) (v : num) : M unit :=
  λ w, (tt, with_heap (alter (<[k := v]>) l (heap w)) w).

(** a new object gets a reference that is not in use *)
Definition alloc (o : Obj) : M loc :=
  λ w, let l := fresh (dom (heap w)) in (l, with_heap (<[l := o]> (heap w)) w).

Definition getScratch : M FrameScratch := λ w, (scratch w, w).
Definition setScratch (s : FrameScratch) : M unit := λ w, (tt, with_scratch s w).

(** ** The collaborators: osg/Notify, osg/Vec3, osg/Matrix *)

Module Notify.
(** Modelled from the spec: [Notify.warn] of osg/Notify, which is not
    among the sources; a deprecated call shape is "surfaced as a
    warning-level diagnostic rather than a failure": the message is
    appended to the log and the call goes on. *)
Definition warn (msg : string) : M unit :=
  λ w, (tt, mkWorld (heap w) (scratch w) (warnings w ++ [msg])).
End Notify.

Module Vec3.
(** Modelled from the spec: [Vec3.create] of osg/Vec3, which is not
    among the sources; a new three-component vector, all zero (the
    third component of [east], never written, is 0). *)
Definition zero : Obj := array [Fin 0; Fin 0; Fin 0].
Definition create : M loc := alloc zero.

(** Modelled from the spec: [Vec3.cross] of osg/Vec3, which is not
    among the sources; "cross product, right-handed" of [a] and [b],
    written into [r]. *)
Definition cross (a b r : Obj) : Obj :=
  let x := (prop a (Index 1) * prop b (Index 2) - prop a (Index 2) * prop b (Index 1))%js in
  let y := (prop a (Index 2) * prop b (Index 0) - prop a (Index 0) * prop b (Index 2))%js in
  let z := (prop a (Index 0) * prop b (Index 1) - prop a (Index 1) * prop b (Index 0))%js in
  <[Index 2 := z]> (<[Index 1 := y]> (<[Index 0 := x]> r)).
End Vec3.

Module Matrix.
(** Modelled from the spec: [Matrix.create] of osg/Matrix, which is not
    among the sources; a new 4x4 transform, the identity. *)
Definition identity : Obj :=
  array [Fin 1; Fin 0; Fin 0; Fin 0;
         Fin 0; Fin 1; Fin 0; Fin 0;
         Fin 0; Fin 0; Fin 1; Fin 0;
         Fin 0; Fin 0; Fin 0; Fin 1].
Definition create : M loc := alloc identity.

(** The entry of row [row] and column [col] of a 4x4 transform kept as
    sixteen numbers, row after row. *)
Definition entry (row col : nat) : key := Index (row * 4 + col).

(** Modelled from the spec: [Matrix.set] of osg/Matrix, which is not
    among the sources; it stores [value] in the entry of row [row] and
    column [col] and touches no other entry ("row 0 = east, row 1 =
    north, row 2 = up (translation/row 3 untouched by this call"). *)
Definition set (matrix : loc) (row col : nat) (value : num) : M unit :=
  setProp matrix (entry row col) value.

Definition setRow (matrix : loc) (row : nat) (v0 v1 v2 v3 : num) : M unit :=
  set matrix row 0 v0;;
  set matrix row 1 v1;;
  set matrix row 2 v2;;
  set matrix row 3 v3.

(** Modelled from the spec: [Matrix.makeTranslate] of osg/Matrix, which
    is not among the sources; it overwrites [matrix] with the pure
    translation by (x, y, z): identity rotation rows and the
    translation in row 3; it returns [matrix]. *)
Definition makeTranslate (x y z : num) (matrix : loc) : M loc :=
  setRow matrix 0 (Fin 1) (Fin 0) (Fin 0) (Fin 0);;
  setRow matrix 1 (Fin 0) (Fin 1) (Fin 0) (Fin 0);;
  setRow matrix 2 (Fin 0) (Fin 0) (Fin 1) (Fin 0);;
  setRow matrix 3 x y z (Fin 1);;
  mret matrix.
End Matrix.

(** ** osg/EllipsoidModel *)

Definition WGS_84_RADIUS_EQUATOR : num := Fin 6378137.
Definition WGS_84_RADIUS_POLAR : num := Fin 6356752.3142.

Definition _radiusEquator : key := Name "_radiusEquator".
Definition _radiusPolar : key := Name "_radiusPolar".
Definition _eccentricitySquared : key := Name "_eccentricitySquared".

Definition computeCoefficients (this : loc) : M unit :=
  radiusEquator ← getProp this _radiusEquator;
  radiusPolar ← getProp this _radiusPolar;
  let flattening := ((radiusEquator - radiusPolar) / radiusEquator)%js in
  setProp this _eccentricitySquared (Fin 2 * flattening - flattening * flattening)%js.

(** [new EllipsoidModel()] *)
Definition EllipsoidModel : M loc :=
  this ← alloc ∅;
  setProp this _radiusEquator WGS_84_RADIUS_EQUATOR;;
  setProp this _radiusPolar WGS_84_RADIUS_POLAR;;
  computeCoefficients this;;
  mret this.

Definition setRadiusEquator (this : loc) (radius : num) : M unit :=
  setProp this _radiusEquator radius;;
  computeCoefficients this.

Definition getRadiusEquator (this : loc) : M num :=
  getProp this _radiusEquator.

Definition setRadiusPolar (this : loc) (radius : num) : M unit :=
  setProp this _radiusPolar radius;;
  computeCoefficients this.

Definition getRadiusPolar (this : loc) : M num :=
  getProp this _radiusPolar.

(** [result] is [None] when the caller leaves the last argument out
    ([result === undefined]). *)
Definition convertLatLongHeightToXYZ (this : loc)
    (latitude longitude height : num) (result : option loc) : M loc :=
  result ← match result with
           | None =>
               Notify.warn "deprecated, use this signature convertLatLongHeightToXYZ( latitude, longitude, height, result )";;
               Vec3.create
           | Some r => mret r
           end;
  let sinLatitude := Math.sin latitude in
  let cosLatitude := Math.cos latitude in
  radiusEquator ← getProp this _radiusEquator;
  eccentricitySquared ← getProp this _eccentricitySquared;
  let N := (radiusEquator / Math.sqrt (Fin 1 - eccentricitySquared * sinLatitude * sinLatitude))%js in
  let X := ((N + height) * cosLatitude * Math.cos longitude)%js in
  let Y := ((N + height) * cosLatitude * Math.sin longitude)%js in
  let Z := ((N * (Fin 1 - eccentricitySquared) + height) * sinLatitude)%js in
  setProp result (Index 0) X;;
  setProp result (Index 1) Y;;
  setProp result (Index 2) Z;;
  mret result.

Definition convertXYZToLatLongHeight (this : loc)
    (X Y Z : num) (result : option loc) : M loc :=
  result ← match result with
           | None =>
               Notify.warn "deprecated, use this signature convertXYZToLatLongHeight( X,  Y,  Z , result)";;
               Vec3.create
           | Some r => mret r
           end;
  radiusEquator ← getProp this _radiusEquator;
  radiusPolar ← getProp this _radiusPolar;
  eccentricitySquared ← getProp this _eccentricitySquared;
  let p := Math.sqrt (X * X + Y * Y)%js in
  let theta := Math.atan2 (Z * radiusEquator)%js (p * radiusPolar)%js in
  let eDashSquared :=
    ((radiusEquator * radiusEquator - radiusPolar * radiusPolar) / (radiusPolar * radiusPolar))%js in
  let sinTheta := Math.sin theta in
  let cosTheta := Math.cos theta in
  let latitude :=
    Math.atan ((Z + eDashSquared * radiusPolar * sinTheta * sinTheta * sinTheta) /
               (p - eccentricitySquared * radiusEquator * cosTheta * cosTheta * cosTheta))%js in
  let longitude := Math.atan2 Y X in
  let sinLatitude := Math.sin latitude in
  let N := (radiusEquator / Math.sqrt (Fin 1 - eccentricitySquared * sinLatitude * sinLatitude))%js in
  let cosLat := Math.cos latitude in
  let cosLat := if (cosLat === Fin 0)%js then Fin 1 else cosLat in
  let height := (p / cosLat - N)%js in
  setProp result (Index 0) latitude;;
  setProp result (Index 1) longitude;;
  setProp result (Index 2) height;;
  mret result.

(** The call in the source passes three more arguments, all [undefined]
    variables, so [result] is [undefined] there. *)
Definition computeLocalUpVector (this : loc) (X Y Z : num) : M loc :=
  coord ← convertXYZToLatLongHeight this X Y Z None;
  latitude ← getProp coord (Index 0);
  longitude ← getProp coord (Index 1);
  altitude ← getProp coord (Index 2);
  alloc (array [ (Math.cos longitude * Math.cos latitude)%js;
                 (Math.sin longitude * Math.cos latitude)%js;
                 Math.sin latitude ]).

Definition isWGS84 (this : loc) : M bool :=
  radiusEquator ← getProp this _radiusEquator;
  radiusPolar ← getProp this _radiusPolar;
  mret ((radiusEquator === WGS_84_RADIUS_EQUATOR)%js && (radiusPolar === WGS_84_RADIUS_POLAR)%js).

(** The scratch vectors when the module has been loaded: three
    [Vec3.create()]. *)
Definition initial_scratch : FrameScratch :=
  mkScratch Vec3.zero Vec3.zero Vec3.zero.

(** [east[2]] is read but never written: it keeps the value
    [Vec3.create()] gave it. *)
Definition computeCoordinateFrame (latitude longitude : num) (localToWorld : loc) : M unit :=
  s ← getScratch;
  let up :=
    <[Index 2 := Math.sin latitude]>
      (<[Index 1 := (Math.sin longitude * Math.cos latitude)%js]>
         (<[Index 0 := (Math.cos longitude * Math.cos latitude)%js]> (up s))) in
  let east :=
    <[Index 1 := (- Math.cos longitude)%js]>
      (<[Index 0 := (- Math.sin longitude)%js]> (east s)) in
  let north := Vec3.cross up east (north s) in
  setScratch (mkScratch up east north);;
  Matrix.set localToWorld 0 0 (prop east (Index 0));;
  Matrix.set localToWorld 0 1 (prop east (Index 1));;
  Matrix.set localToWorld 0 2 (prop east (Index 2));;
  Matrix.set localToWorld 1 0 (prop north (Index 0));;
  Matrix.set localToWorld 1 1 (prop north (Index 1));;
  Matrix.set localToWorld 1 2 (prop north (Index 2));;
  Matrix.set localToWorld 2 0 (prop up (Index 0));;
  Matrix.set localToWorld 2 1 (prop up (Index 1));;
  Matrix.set localToWorld 2 2 (prop up (Index 2)).

Definition computeLocalToWorldTransformFromLatLongHeight (this : loc)
    (latitude longitude height : num) (result : option loc) : M loc :=
  result ← match result with
           | None =>
               Notify.warn "deprecated, use this signature computeLocalToWorldTransformFromLatLongHeight(latitude, longitude, height, result)";;
               Matrix.create
           | Some r => mret r
           end;
  pos ← convertLatLongHeightToXYZ this latitude longitude height (Some result);
  pos0 ← getProp pos (Index 0);
  pos1 ← getProp pos (Index 1);
  pos2 ← getProp pos (Index 2);
  Matrix.makeTranslate pos0 pos1 pos2 result;;
  computeCoordinateFrame latitude longitude result;;
  mret result.

Definition computeLocalToWorldTransformFromXYZ (this : loc) (X Y Z : num) : M loc :=
  lla ← convertXYZToLatLongHeight this X Y Z None;
  m0 ← Matrix.create;
  m ← Matrix.makeTranslate X Y Z m0;
  lla0 ← getProp lla (Index 0);
  lla1 ← getProp lla (Index 1);
  computeCoordinateFrame lla0 lla1 m;;
  mret m.

(** ** Running methods *)

Definition exec {A} (m : M A) (w : World) : World := (m w).2.
Definition eval {A} (m : M A) (w : World) : A := (m w).1.

(** A call of one method of the model, by a client. *)
Inductive Call : Type :=
  | SetRadiusEquator (radius : num)
  | GetRadiusEquator
  | SetRadiusPolar (radius : num)
  | GetRadiusPolar
  | ConvertLatLongHeightToXYZ (latitude longitude height : num) (result : option loc)
  | ConvertXYZToLatLongHeight (X Y Z : num) (result : option loc)
  | ComputeLocalUpVector (X Y Z : num)
  | IsWGS84
  | ComputeCoefficients
  | ComputeLocalToWorldTransformFromLatLongHeight
      (latitude longitude height : num) (result : option loc)
  | ComputeLocalToWorldTransformFromXYZ (X Y Z : num)
  | ComputeCoordinateFrame (latitude longitude : num) (localToWorld : loc).

Definition ignore {A} (m : M A) : M unit := m;; mret tt.

Definition call (this : loc) (c : Call) : M unit :=
  match c with
  | SetRadiusEquator radius => setRadiusEquator this radius
  | GetRadiusEquator => ignore (getRadiusEquator this)
  | SetRadiusPolar radius => setRadiusPolar this radius
  | GetRadiusPolar => ignore (getRadiusPolar this)
  | ConvertLatLongHeightToXYZ latitude longitude height result =>
      ignore (convertLatLongHeightToXYZ this latitude longitude height result)
  | ConvertXYZToLatLongHeight X Y Z result =>
      ignore (convertXYZToLatLongHeight this X Y Z result)
  | ComputeLocalUpVector X Y Z => ignore (computeLocalUpVector this X Y Z)
  | IsWGS84 => ignore (isWGS84 this)
  | ComputeCoefficients => computeCoefficients this
  | ComputeLocalToWorldTransformFromLatLongHeight latitude longitude height result =>
      ignore (computeLocalToWorldTransformFromLatLongHeight this latitude longitude height result)
  | ComputeLocalToWorldTransformFromXYZ X Y Z =>
      ignore (computeLocalToWorldTransformFromXYZ this X Y Z)
  | ComputeCoordinateFrame latitude longitude localToWorld =>
      computeCoordinateFrame latitude longitude localToWorld
  end.

Fixpoint calls (this : loc) (cs : list Call) : M unit :=
  match cs with
  | [] => mret tt
  | c :: cs' => call this c;; calls this cs'
  end.

(** ** Notions used by the statements *)

(** The coefficient as the radii determine it: [2f - f*f] with
    [f = (radiusEquator - radiusPolar) / radiusEquator]. *)
Definition eccentricity_of (radiusEquator radiusPolar : num) : num :=
  let f := ((radiusEquator - radiusPolar) / radiusEquator)%js in
  (Fin 2 * f - f * f)%js.

(** The stored coefficient is the one the stored radii determine. *)
Definition coefficients_consistent (w : World) (this : loc) : Prop :=
  field w this _eccentricitySquared =
    Some (eccentricity_of (default NaN (field w this _radiusEquator))
                          (default NaN (field w this _radiusPolar))).

(** [w'] still has every object of [w], and no named field of any object
    has changed (array elements may have). *)
Definition fields_kept (w w' : World) : Prop :=
  ∀ l, (is_Some (heap w !! l) → is_Some (heap w' !! l)) ∧
       ∀ s, field w' l (Name s) = field w l (Name s).

(** A computation that, from any world, keeps the named fields. *)
Definition passive {A} (m : M A) : Prop := ∀ w, fields_kept w (exec m w).

(** What holds of the scratch vectors between two calls. *)
Definition scratch_ok (w : World) : Prop :=
  east (scratch w) !! Index 2 = Some (Fin 0).

(** The world when the module has been loaded and nothing allocated. *)
Definition loaded : World := mkWorld ∅ initial_scratch [].

Definition vec3 : Type := num * num * num.

Definition cross3 (a b : vec3) : vec3 :=
  let '(a0, a1, a2) := a in
  let '(b0, b1, b2) := b in
  (a1 * b2 - a2 * b1, a2 * b0 - a0 * b2, a0 * b1 - a1 * b0)%js.

Definition dot3 (a b : vec3) : num :=
  let '(a0, a1, a2) := a in
  let '(b0, b1, b2) := b in
  (a0 * b0 + a1 * b1 + a2 * b2)%js.

Definition upVector (latitude longitude : num) : vec3 :=
  ((Math.cos longitude * Math.cos latitude)%js,
   (Math.sin longitude * Math.cos latitude)%js,
   Math.sin latitude).

Definition eastVector (longitude : num) : vec3 :=
  ((- Math.sin longitude)%js, (- Math.cos longitude)%js, Fin 0).

Definition northVector (latitude longitude : num) : vec3 :=
  cross3 (upVector latitude longitude) (eastVector longitude).

(** The first three entries of a row of the matrix behind [m]. *)
Definition row3 (w : World) (m : loc) (row : nat) : option num * option num * option num :=
  (field w m (Matrix.entry row 0), field w m (Matrix.entry row 1), field w m (Matrix.entry row 2)).

Definition some3 (v : vec3) : option num * option num * option num :=
  let '(x, y, z) := v in (Some x, Some y, Some z).

(** The three components of the vector behind [v]. *)
Definition components (w : World) (v : loc) : option num * option num * option num :=
  (field w v (Index 0), field w v (Index 1), field w v (Index 2)).

(** The value of a field of the model, as arithmetic reads it. *)
Definition stored (w : World) (this : loc) (k : key) : num :=
  default NaN (field w this k).

(** The geodetic-to-Cartesian formulas in the words of the
    specification: [N = radiusEquator / sqrt(1 - eccentricitySquared *
    sin(lat)^2)], [X = (N+height) cos(lat) cos(lon)],
    [Y = (N+height) cos(lat) sin(lon)],
    [Z = (N(1-eccentricitySquared) + height) sin(lat)]. *)
Definition primeVerticalRadius (radiusEquator eccentricitySquared latitude : num) : num :=
  (radiusEquator /
   Math.sqrt (Fin 1 - eccentricitySquared * Math.sin latitude * Math.sin latitude))%js.

Definition geodeticToCartesian
    (radiusEquator eccentricitySquared latitude longitude height : num) : vec3 :=
  let N := primeVerticalRadius radiusEquator eccentricitySquared latitude in
  (((N + height) * Math.cos latitude * Math.cos longitude)%js,
   ((N + height) * Math.cos latitude * Math.sin longitude)%js,
   ((N * (Fin 1 - eccentricitySquared) + height) * Math.sin latitude)%js).

(** The same formulas on real numbers. *)
Definition RprimeVertical (re e2 lat : R) : R :=
  (re / sqrt (1 - e2 * (sin lat)²))%R.

(** The divisor of the height recovery: [cos(latitude)], or 1 when that
    is exactly zero. *)
Definition heightDivisor (latitude : num) : num :=
  if (Math.cos latitude === Fin 0)%js then Fin 1 else Math.cos latitude.

(** The Cartesian-to-geodetic formulas in the words of the
    specification (Bowring, one pass). *)
Definition bowringLatitude (radiusEquator radiusPolar eccentricitySquared X Y Z : num) : num :=
  let p := Math.sqrt (X * X + Y * Y)%js in
  let theta := Math.atan2 (Z * radiusEquator)%js (p * radiusPolar)%js in
  let eDashSquared :=
    ((radiusEquator * radiusEquator - radiusPolar * radiusPolar) /
     (radiusPolar * radiusPolar))%js in
  Math.atan
    ((Z + eDashSquared * radiusPolar * Math.sin theta * Math.sin theta * Math.sin theta) /
     (p - eccentricitySquared * radiusEquator * Math.cos theta * Math.cos theta * Math.cos theta))%js.

Definition cartesianToGeodetic
    (radiusEquator radiusPolar eccentricitySquared X Y Z : num) : vec3 :=
  let p := Math.sqrt (X * X + Y * Y)%js in
  let latitude := bowringLatitude radiusEquator radiusPolar eccentricitySquared X Y Z in
  let longitude := Math.atan2 Y X in
  let N := primeVerticalRadius radiusEquator eccentricitySquared latitude in
  (latitude, longitude, (p / heightDivisor latitude - N)%js).

(** What a conversion of the model [this] gives in the world [w]. *)
Definition xyz_of (w : World) (this : loc) (latitude longitude height : num) : vec3 :=
  geodeticToCartesian (stored w this _radiusEquator) (stored w this _eccentricitySquared)
                      latitude longitude height.

Definition llh_of (w : World) (this : loc) (X Y Z : num) : vec3 :=
  cartesianToGeodetic (stored w this _radiusEquator) (stored w this _radiusPolar)
                      (stored w this _eccentricitySquared) X Y Z.

Definition warn_convertLatLongHeightToXYZ : string :=
  "deprecated, use this signature convertLatLongHeightToXYZ( latitude, longitude, height, result )".
Definition warn_convertXYZToLatLongHeight : string :=
  "deprecated, use this signature convertXYZToLatLongHeight( X,  Y,  Z , result)".
Definition warn_computeLocalToWorldTransformFromLatLongHeight : string :=
  "deprecated, use this signature computeLocalToWorldTransformFromLatLongHeight(latitude, longitude, height, result)".

(** The coefficient of the WGS-84 radii. *)
Definition wgs84_e2 : R :=
  2 * ((6378137 - 6356752.3142) / 6378137) -
  (6378137 - 6356752.3142) / 6378137 * ((6378137 - 6356752.3142) / 6378137).

(** A first client: the module is loaded and one model constructed. *)
Definition wgs84_world : World := exec EllipsoidModel loaded.
Definition wgs84_model : loc := eval EllipsoidModel loaded.

(** A run of assignments [l[k] = v], in order, and the value such a run
    leaves under a key (the last assignment to it). *)
Definition write (l : loc) (w : World) (kv : key * num) : World :=
  exec (setProp l kv.1 kv.2) w.

Definition writes (l : loc) (kvs : list (key * num)) (w : World) : World :=
  foldl (write l) w kvs.

Fixpoint written (k : key) (kvs : list (key * num)) : option num :=
  match kvs with
  | [] => None
  | (k', v) :: rest =>
      match written k rest with
      | Some v' => Some v'
      | None => if decide (k = k') then Some v else None
      end
  end.

(** The scratch vectors after a call of [computeCoordinateFrame]. *)
Definition frame_scratch (s : FrameScratch) (latitude longitude : num) : FrameScratch :=
  let up' :=
    <[Index 2 := Math.sin latitude]>
      (<[Index 1 := (Math.sin longitude * Math.cos latitude)%js]>
         (<[Index 0 := (Math.cos longitude * Math.cos latitude)%js]> (up s))) in
  let east' :=
    <[Index 1 := (- Math.cos longitude)%js]>
      (<[Index 0 := (- Math.sin longitude)%js]> (east s)) in
  mkScratch up' east' (Vec3.cross up' east' (north s)).

(** The nine assignments of [computeCoordinateFrame], for given east,
    north and up. *)
Definition frame_entries (e n u : vec3) : list (key * num) :=
  let '(e0, e1, e2) := e in
  let '(n0, n1, n2) := n in
  let '(u0, u1, u2) := u in
  [ (Matrix.entry 0 0, e0); (Matrix.entry 0 1, e1); (Matrix.entry 0 2, e2);
    (Matrix.entry 1 0, n0); (Matrix.entry 1 1, n1); (Matrix.entry 1 2, n2);
    (Matrix.entry 2 0, u0); (Matrix.entry 2 1, u1); (Matrix.entry 2 2, u2) ].

(** The sixteen assignments of [Matrix.makeTranslate]. *)
Definition translate_entries (x y z : num) : list (key * num) :=
  [ (Matrix.entry 0 0, Fin 1); (Matrix.entry 0 1, Fin 0); (Matrix.entry 0 2, Fin 0); (Matrix.entry 0 3, Fin 0);
    (Matrix.entry 1 0, Fin 0); (Matrix.entry 1 1, Fin 1); (Matrix.entry 1 2, Fin 0); (Matrix.entry 1 3, Fin 0);
    (Matrix.entry 2 0, Fin 0); (Matrix.entry 2 1, Fin 0); (Matrix.entry 2 2, Fin 1); (Matrix.entry 2 3, Fin 0);
    (Matrix.entry 3 0, x); (Matrix.entry 3 1, y); (Matrix.entry 3 2, z); (Matrix.entry 3 3, Fin 1) ].

(** The components of a vector object, as arithmetic reads them. *)
Definition vec_of (o : Obj) : vec3 := (prop o (Index 0), prop o (Index 1), prop o (Index 2)).

(** Is [k] one of the nine entries of the rotation part? *)
Definition rotation_entry (k : key) : Prop :=
  ∃ row col, row < 3 ∧ col < 3 ∧ k = Matrix.entry row col.

(** A second client: the module is loaded and one matrix created. *)
Definition frame_world : World := exec Matrix.create loaded.
Definition frame_matrix : loc := eval Matrix.create loaded.

(** A third client: [convertXYZToLatLongHeight] applied to the output of
    [convertLatLongHeightToXYZ]. *)
Definition roundTrip (this : loc) (latitude longitude height : num) : M loc :=
  xyz ← convertLatLongHeightToXYZ this latitude longitude height None;
  X ← getProp xyz (Index 0);
  Y ← getProp xyz (Index 1);
  Z ← getProp xyz (Index 2);
  convertXYZToLatLongHeight this X Y Z None.

(** The round trip from real coordinates gives real coordinates that
    are within [angle] (radians) and [metres] of the original ones. *)
Definition round_trip_within (angle metres : R) (w : World) (this : loc)
    (lat lon h : R) : Prop :=
  ∃ lat' lon' h' : R,
    components (exec (roundTrip this (Fin lat) (Fin lon) (Fin h)) w)
               (eval (roundTrip this (Fin lat) (Fin lon) (Fin h)) w) =
      (Some (Fin lat'), Some (Fin lon'), Some (Fin h')) ∧
    (Rabs (lat' - lat) <= angle)%R ∧
    (Rabs (lon' - lon) <= angle)%R ∧
    (Rabs (h' - h) <= metres)%R.

(** What every call keeps: the model is there and its coefficient is
    the one of its radii. *)
Definition model_ok (this : loc) (w : World) : Prop :=
  is_Some (heap w !! this) ∧ coefficients_consistent w this.

(** The deprecation warnings that a call logs. *)
Definition deprecations (c : Call) : list string :=
  match c with
  | ConvertLatLongHeightToXYZ _ _ _ None => [warn_convertLatLongHeightToXYZ]
  | ConvertXYZToLatLongHeight _ _ _ None => [warn_convertXYZToLatLongHeight]
  | ComputeLocalUpVector _ _ _ => [warn_convertXYZToLatLongHeight]
  | ComputeLocalToWorldTransformFromLatLongHeight _ _ _ None =>
      [warn_computeLocalToWorldTransformFromLatLongHeight]
  | ComputeLocalToWorldTransformFromXYZ _ _ _ => [warn_convertXYZToLatLongHeight]
  | _ => []
  end.

(** A computation that, from any world, appends exactly [ws] to the log. *)
Definition logs {A} (m : M A) (ws : list string) : Prop :=
  ∀ w, warnings (exec m w) = warnings w ++ ws.

(** A computation that, from any world, keeps every object and what
    holds of the scratch vectors. *)
Definition steady {A} (m : M A) : Prop :=
  ∀ w, (scratch_ok w → scratch_ok (exec m w)) ∧
       ∀ l, is_Some (heap w !! l) → is_Some (heap (exec m w) !! l).

(** The model [this] has the real radii [re] and [rp], and its
    coefficient is the one of these radii (as every sequence of calls
    leaves it). *)
Definition has_radii (w : World) (this : loc) (re rp : R) : Prop :=
  field w this _radiusEquator = Some (Fin re) ∧
  field w this _radiusPolar = Some (Fin rp) ∧
  coefficients_consistent w this.

(** A fourth client: the radii of the WGS-84 model are both set to 1. *)
Definition unit_sphere_world : World :=
  exec (setRadiusEquator wgs84_model (Fin 1);; setRadiusPolar wgs84_model (Fin 1))
       wgs84_world.


(** ** Primitive steps *)

Lemma field_setProp_eq (w : World) (l : loc) (k : key) (v : num) :
  is_Some (heap w !! l) → field (exec (setProp l k v) w) l k = Some v.
Proof.
  intros [o Ho]. unfold field, exec, setProp; simpl.
  rewrite lookup_alter_eq, Ho; simpl. apply lookup_insert_eq.
Qed.

Lemma field_setProp_ne (w : World) (l l' : loc) (k k' : key) (v : num) :
  l ≠ l' ∨ k ≠ k' → field (exec (setProp l k v) w) l' k' = field w l' k'.
Proof.
  intros Hne. unfold field, exec, setProp; simpl.
  destruct (decide (l = l')) as [->|Hl].
  - rewrite lookup_alter_eq. destruct (heap w !! l') as [o|]; simpl; [|done].
    apply lookup_insert_ne. destruct Hne; congruence.
  - by rewrite lookup_alter_ne.
Qed.

Lemma valid_setProp (w : World) (l l' : loc) (k : key) (v : num) :
  is_Some (heap (exec (setProp l k v) w) !! l') ↔ is_Some (heap w !! l').
Proof. unfold exec, setProp; simpl. apply lookup_alter_is_Some. Qed.

Lemma array_from_Name (i : nat) (xs : list num) (s : string) :
  array_from i xs !! Name s = None.
Proof.
  revert i. induction xs as [|x xs IH]; intros i; simpl.
  - apply lookup_empty.
  - rewrite lookup_insert_ne by discriminate. apply IH.
Qed.

Lemma array_Name (xs : list num) (s : string) : array xs !! Name s = None.
Proof. apply array_from_Name. Qed.

(** ** Methods that keep the named fields *)

Lemma fields_kept_refl (w : World) : fields_kept w w.
Proof. intros l. split; [done | done]. Qed.

Lemma fields_kept_trans (w1 w2 w3 : World) :
  fields_kept w1 w2 → fields_kept w2 w3 → fields_kept w1 w3.
Proof.
  intros H12 H23 l. destruct (H12 l) as [Hv Hf], (H23 l) as [Hv' Hf'].
  split; [auto | intros s; by rewrite Hf', Hf].
Qed.

Lemma passive_ret {A} (a : A) : passive (mret a : M A).
Proof. intros w. apply fields_kept_refl. Qed.

Lemma passive_bind {A B} (m : M A) (f : A → M B) :
  passive m → (∀ a, passive (f a)) → passive (m ≫= f).
Proof.
  intros Hm Hf w. unfold exec, mbind, M_bind.
  specialize (Hm w). unfold exec in Hm.
  destruct (m w) as [a w1] eqn:E; simpl in *.
  eapply fields_kept_trans; [exact Hm | apply Hf].
Qed.

Lemma passive_getProp (l : loc) (k : key) : passive (getProp l k).
Proof. intros w. apply fields_kept_refl. Qed.

Lemma passive_getScratch : passive getScratch.
Proof. intros w. apply fields_kept_refl. Qed.

Lemma passive_setScratch (s : FrameScratch) : passive (setScratch s).
Proof. intros w l. split; [done | done]. Qed.

Lemma passive_warn (msg : string) : passive (Notify.warn msg).
Proof. intros w l. split; [done | done]. Qed.

Lemma passive_setProp_Index (l : loc) (i : nat) (v : num) :
  passive (setProp l (Index i) v).
Proof.
  intros w l'. split.
  - apply valid_setProp.
  - intros s. apply field_setProp_ne. right; discriminate.
Qed.

Lemma passive_alloc (o : Obj) :
  (∀ s, o !! Name s = None) → passive (alloc o).
Proof.
  intros Ho w l. unfold exec, alloc, field; simpl. split.
  - intros Hl. rewrite lookup_insert_is_Some. destruct (decide (fresh (dom (heap w)) = l)); auto.
  - intros s. destruct (decide (fresh (dom (heap w)) = l)) as [<-|Hne].
    + rewrite lookup_insert_eq; simpl. rewrite Ho.
      pose proof (is_fresh (dom (heap w))) as Hfr.
      apply not_elem_of_dom in Hfr. by rewrite Hfr.
    + by rewrite lookup_insert_ne.
Qed.

Lemma passive_Vec3_create : passive Vec3.create.
Proof. apply passive_alloc. intros s. apply array_Name. Qed.

Lemma passive_Matrix_create : passive Matrix.create.
Proof. apply passive_alloc. intros s. apply array_Name. Qed.

Lemma passive_Matrix_set (m : loc) (row col : nat) (v : num) :
  passive (Matrix.set m row col v).
Proof. apply passive_setProp_Index. Qed.

Create HintDb passive.
#[export] Hint Resolve passive_ret passive_getProp passive_getScratch
  passive_setScratch passive_warn passive_setProp_Index passive_Vec3_create
  passive_Matrix_create passive_Matrix_set : passive.

(** One step through a sequence of statements. *)
Ltac passive_step :=
  lazy zeta;
  first
    [ apply passive_bind; [ | intros ? ]
    | solve [ auto with passive ]
    | apply passive_alloc; intros ?; apply array_Name ].

Ltac passive_steps := repeat passive_step.

Lemma passive_makeTranslate (x y z : num) (m : loc) :
  passive (Matrix.makeTranslate x y z m).
Proof. unfold Matrix.makeTranslate, Matrix.setRow. passive_steps. Qed.

Lemma passive_convertLatLongHeightToXYZ this latitude longitude height result :
  passive (convertLatLongHeightToXYZ this latitude longitude height result).
Proof. unfold convertLatLongHeightToXYZ. destruct result; passive_steps. Qed.

Lemma passive_convertXYZToLatLongHeight this X Y Z result :
  passive (convertXYZToLatLongHeight this X Y Z result).
Proof. unfold convertXYZToLatLongHeight. destruct result; passive_steps. Qed.

Lemma passive_computeCoordinateFrame latitude longitude localToWorld :
  passive (computeCoordinateFrame latitude longitude localToWorld).
Proof. unfold computeCoordinateFrame. passive_steps. Qed.

#[export] Hint Resolve passive_makeTranslate passive_convertLatLongHeightToXYZ
  passive_convertXYZToLatLongHeight passive_computeCoordinateFrame : passive.

Lemma passive_computeLocalUpVector this X Y Z :
  passive (computeLocalUpVector this X Y Z).
Proof. unfold computeLocalUpVector. passive_steps. Qed.

Lemma passive_isWGS84 this : passive (isWGS84 this).
Proof. unfold isWGS84. passive_steps. Qed.

Lemma passive_computeLocalToWorldTransformFromLatLongHeight
    this latitude longitude height result :
  passive (computeLocalToWorldTransformFromLatLongHeight this latitude longitude height result).
Proof.
  unfold computeLocalToWorldTransformFromLatLongHeight. destruct result; passive_steps.
Qed.

Lemma passive_computeLocalToWorldTransformFromXYZ this X Y Z :
  passive (computeLocalToWorldTransformFromXYZ this X Y Z).
Proof. unfold computeLocalToWorldTransformFromXYZ. passive_steps. Qed.

(** ** Sequencing *)

Lemma exec_bind {A B} (m : M A) (f : A → M B) (w : World) :
  exec (m ≫= f) w = exec (f (eval m w)) (exec m w).
Proof. unfold exec, eval, mbind, M_bind. by destruct (m w). Qed.

Lemma eval_bind {A B} (m : M A) (f : A → M B) (w : World) :
  eval (m ≫= f) w = eval (f (eval m w)) (exec m w).
Proof. unfold exec, eval, mbind, M_bind. by destruct (m w). Qed.

Lemma exec_ret {A} (a : A) (w : World) : exec (mret a : M A) w = w.
Proof. done. Qed.

Lemma eval_ret {A} (a : A) (w : World) : eval (mret a : M A) w = a.
Proof. done. Qed.

Lemma exec_getProp (l : loc) (k : key) (w : World) : exec (getProp l k) w = w.
Proof. done. Qed.

Lemma eval_getProp (l : loc) (k : key) (w : World) :
  eval (getProp l k) w = default NaN (field w l k).
Proof. done. Qed.

Ltac run := repeat first
  [ rewrite exec_bind | rewrite eval_bind | rewrite exec_ret | rewrite eval_ret
  | rewrite exec_getProp | rewrite eval_getProp ].

(** ** The coefficient follows the radii *)

Lemma computeCoefficients_consistent (w : World) (this : loc) :
  is_Some (heap w !! this) →
  coefficients_consistent (exec (computeCoefficients this) w) this.
Proof.
  intros Hv. unfold coefficients_consistent, computeCoefficients. run.
  rewrite field_setProp_eq by done.
  rewrite !field_setProp_ne by (right; discriminate).
  reflexivity.
Qed.

Lemma computeCoefficients_valid (w : World) (this l : loc) :
  is_Some (heap (exec (computeCoefficients this) w) !! l) ↔ is_Some (heap w !! l).
Proof. unfold computeCoefficients. run. apply valid_setProp. Qed.

Lemma setRadiusEquator_consistent (w : World) (this : loc) (radius : num) :
  is_Some (heap w !! this) →
  coefficients_consistent (exec (setRadiusEquator this radius) w) this.
Proof.
  intros Hv. unfold setRadiusEquator. run.
  apply computeCoefficients_consistent. by apply valid_setProp.
Qed.

Lemma setRadiusPolar_consistent (w : World) (this : loc) (radius : num) :
  is_Some (heap w !! this) →
  coefficients_consistent (exec (setRadiusPolar this radius) w) this.
Proof.
  intros Hv. unfold setRadiusPolar. run.
  apply computeCoefficients_consistent. by apply valid_setProp.
Qed.

Lemma alloc_fresh (o : Obj) (w : World) :
  heap w !! eval (alloc o) w = None ∧
  heap (exec (alloc o) w) !! eval (alloc o) w = Some o.
Proof.
  unfold eval, exec, alloc; simpl. split.
  - apply not_elem_of_dom, is_fresh.
  - apply lookup_insert_eq.
Qed.

(** The world and the reference that [new EllipsoidModel()] gives. *)
Lemma EllipsoidModel_fields (w0 : World) :
  let this := eval EllipsoidModel w0 in
  let w := exec EllipsoidModel w0 in
  heap w0 !! this = None ∧
  is_Some (heap w !! this) ∧
  field w this _radiusEquator = Some WGS_84_RADIUS_EQUATOR ∧
  field w this _radiusPolar = Some WGS_84_RADIUS_POLAR ∧
  coefficients_consistent w this.
Proof.
  unfold EllipsoidModel. run.
  destruct (alloc_fresh ∅ w0) as [Hfresh Hnew].
  set (this := eval (alloc ∅) w0) in *. set (w1 := exec (alloc ∅) w0) in *.
  assert (Hv1 : is_Some (heap w1 !! this)) by (by rewrite Hnew).
  set (w2 := exec (setProp this _radiusEquator WGS_84_RADIUS_EQUATOR) w1).
  assert (Hv2 : is_Some (heap w2 !! this)) by (by apply valid_setProp).
  set (w3 := exec (setProp this _radiusPolar WGS_84_RADIUS_POLAR) w2).
  assert (Hv3 : is_Some (heap w3 !! this)) by (by apply valid_setProp).
  split; [done|]. split; [by apply computeCoefficients_valid|].
  split; [|split].
  - unfold computeCoefficients. run.
    rewrite field_setProp_ne by (right; discriminate).
    unfold w3. rewrite field_setProp_ne by (right; discriminate).
    by apply field_setProp_eq.
  - unfold computeCoefficients. run.
    rewrite field_setProp_ne by (right; discriminate).
    by apply field_setProp_eq.
  - by apply computeCoefficients_consistent.
Qed.

Lemma passive_ignore {A} (m : M A) : passive m → passive (ignore m).
Proof. intros Hm. unfold ignore. apply passive_bind; [done | intros; apply passive_ret]. Qed.

Lemma model_ok_kept (this : loc) (w w' : World) :
  fields_kept w w' → model_ok this w → model_ok this w'.
Proof.
  intros Hk [Hv Hc]. destruct (Hk this) as [Hv' Hf]. split; [auto|].
  unfold coefficients_consistent, _eccentricitySquared, _radiusEquator, _radiusPolar in *.
  by rewrite !Hf.
Qed.

Lemma call_model_ok (this : loc) (c : Call) (w : World) :
  model_ok this w → model_ok this (exec (call this c) w).
Proof.
  intros Hok. pose proof Hok as [Hv Hc].
  assert (Hp : ∀ A (m : M A), passive m → model_ok this (exec (ignore m) w)).
  { intros A m Hm. eapply model_ok_kept; [|exact Hok]. by apply passive_ignore. }
  destruct c; cbn [call].
  - split; [|by apply setRadiusEquator_consistent].
    unfold setRadiusEquator. run. by apply computeCoefficients_valid, valid_setProp.
  - apply Hp, passive_getProp.
  - split; [|by apply setRadiusPolar_consistent].
    unfold setRadiusPolar. run. by apply computeCoefficients_valid, valid_setProp.
  - apply Hp, passive_getProp.
  - apply Hp, passive_convertLatLongHeightToXYZ.
  - apply Hp, passive_convertXYZToLatLongHeight.
  - apply Hp, passive_computeLocalUpVector.
  - apply Hp, passive_isWGS84.
  - split; [by apply computeCoefficients_valid | by apply computeCoefficients_consistent].
  - apply Hp, passive_computeLocalToWorldTransformFromLatLongHeight.
  - apply Hp, passive_computeLocalToWorldTransformFromXYZ.
  - eapply model_ok_kept; [|exact Hok]. apply passive_computeCoordinateFrame.
Qed.

Lemma calls_model_ok (this : loc) (cs : list Call) (w : World) :
  model_ok this w → model_ok this (exec (calls this cs) w).
Proof.
  revert w. induction cs as [|c cs IH]; intros w Hok; cbn [calls].
  - done.
  - rewrite exec_bind. apply IH. by apply call_model_ok.
Qed.

(** C5. After construction, and after any further sequence of calls of
    the model's methods (the two radius setters, with any radius, among
    them), the stored [_eccentricitySquared] is [2f - f*f] for
    [f = (_radiusEquator - _radiusPolar) / _radiusEquator] computed from
    the radii stored at that moment: it is never stale. *)
Theorem coefficients_never_stale (w0 : World) (cs : list Call) :
  let this := eval EllipsoidModel w0 in
  coefficients_consistent (exec EllipsoidModel w0) this ∧
  coefficients_consistent (exec (calls this cs) (exec EllipsoidModel w0)) this.
Proof.
  intros this. destruct (EllipsoidModel_fields w0) as (_ & Hv & _ & _ & Hc).
  split; [exact Hc|].
  apply (calls_model_ok this cs). by split.
Qed.

Lemma strict_eq_Fin (x : num) (c : R) :
  (x === Fin c)%js = true ↔ x = Fin c.
Proof.
  destruct x as [r| | |]; simpl; [|split; discriminate..].
  rewrite bool_decide_eq_true. split; [by intros -> | by intros [= ->]].
Qed.

Lemma default_NaN_Fin (o : option num) (c : R) :
  default NaN o = Fin c ↔ o = Some (Fin c).
Proof. destruct o; simpl; split; congruence. Qed.

(** C8. [isWGS84()] answers true exactly when the stored equatorial
    radius is 6378137.0 and the stored polar radius is 6356752.3142 (no
    tolerance), it changes nothing, and it answers true on a model that
    has just been constructed. *)
Theorem isWGS84_exact (w : World) (this : loc) :
  (eval (isWGS84 this) w = true ↔
     field w this _radiusEquator = Some (Fin 6378137) ∧
     field w this _radiusPolar = Some (Fin 6356752.3142)) ∧
  exec (isWGS84 this) w = w ∧
  eval (isWGS84 (eval EllipsoidModel w)) (exec EllipsoidModel w) = true.
Proof.
  assert (Hiff : ∀ w' l, eval (isWGS84 l) w' = true ↔
     field w' l _radiusEquator = Some (Fin 6378137) ∧
     field w' l _radiusPolar = Some (Fin 6356752.3142)).
  { intros w' l. unfold isWGS84. run.
    rewrite andb_true_iff. unfold WGS_84_RADIUS_EQUATOR, WGS_84_RADIUS_POLAR.
    by rewrite !strict_eq_Fin, !default_NaN_Fin. }
  split; [apply Hiff|]. split; [done|].
  apply Hiff. destruct (EllipsoidModel_fields w) as (_ & _ & He & Hp & _). done.
Qed.

(** C9. None of the six conversion and frame operations changes the
    model: whatever the arguments (the result container may even be the
    model itself), [_radiusEquator], [_radiusPolar] and
    [_eccentricitySquared] of [this] are after the call what they were
    before it. *)
Theorem conversions_keep_model
    (w : World) (this : loc) (a b c : num) (result : option loc) (m : loc) :
  let same (w' : World) :=
    field w' this _radiusEquator = field w this _radiusEquator ∧
    field w' this _radiusPolar = field w this _radiusPolar ∧
    field w' this _eccentricitySquared = field w this _eccentricitySquared in
  same (exec (convertLatLongHeightToXYZ this a b c result) w) ∧
  same (exec (convertXYZToLatLongHeight this a b c result) w) ∧
  same (exec (computeLocalUpVector this a b c) w) ∧
  same (exec (computeCoordinateFrame a b m) w) ∧
  same (exec (computeLocalToWorldTransformFromLatLongHeight this a b c result) w) ∧
  same (exec (computeLocalToWorldTransformFromXYZ this a b c) w).
Proof.
  intros same.
  assert (Hsame : ∀ A (op : M A), passive op → same (exec op w)).
  { intros A op Hop. destruct (Hop w this) as [_ Hf]. unfold same.
    unfold _radiusEquator, _radiusPolar, _eccentricitySquared.
    by rewrite !Hf. }
  split; [apply Hsame, passive_convertLatLongHeightToXYZ|].
  split; [apply Hsame, passive_convertXYZToLatLongHeight|].
  split; [apply Hsame, passive_computeLocalUpVector|].
  split; [apply Hsame, passive_computeCoordinateFrame|].
  split; [apply Hsame, passive_computeLocalToWorldTransformFromLatLongHeight|].
  apply Hsame, passive_computeLocalToWorldTransformFromXYZ.
Qed.

(** ** The two conversions *)

Lemma write3 (w : World) (r : loc) (X Y Z : num) :
  let w' := exec (setProp r (Index 2) Z)
              (exec (setProp r (Index 1) Y) (exec (setProp r (Index 0) X) w)) in
  (is_Some (heap w !! r) → components w' r = (Some X, Some Y, Some Z)) ∧
  dom (heap w') = dom (heap w) ∧
  warnings w' = warnings w ∧
  scratch w' = scratch w ∧
  ∀ l k, l ≠ r ∨ (k ≠ Index 0 ∧ k ≠ Index 1 ∧ k ≠ Index 2) → field w' l k = field w l k.
Proof.
  intros w'. split; [|split; [|split; [done|split; [done|]]]].
  - intros Hv. unfold components, w'.
    assert (Hv1 : is_Some (heap (exec (setProp r (Index 0) X) w) !! r))
      by (by apply valid_setProp).
    assert (Hv2 : is_Some (heap (exec (setProp r (Index 1) Y)
                                   (exec (setProp r (Index 0) X) w)) !! r))
      by (by apply valid_setProp).
    rewrite field_setProp_eq by done.
    rewrite (field_setProp_ne _ r r (Index 2) (Index 1)) by (right; discriminate).
    rewrite field_setProp_eq by done.
    rewrite (field_setProp_ne _ r r (Index 2) (Index 0)) by (right; discriminate).
    rewrite (field_setProp_ne _ r r (Index 1) (Index 0)) by (right; discriminate).
    by rewrite field_setProp_eq.
  - unfold w', exec, setProp; simpl. by rewrite !dom_alter_L.
  - intros l k Hne. unfold w'.
    rewrite !field_setProp_ne; [done | | |]; destruct Hne as [?|(? & ? & ?)]; auto.
Qed.

Lemma created_fields (msg : string) (o : Obj) (w : World) :
  (∀ s, o !! Name s = None) →
  let w1 := exec (alloc o) (exec (Notify.warn msg) w) in
  let r := eval (alloc o) (exec (Notify.warn msg) w) in
  heap w !! r = None ∧
  heap w1 !! r = Some o ∧
  dom (heap w1) = {[ r ]} ∪ dom (heap w) ∧
  warnings w1 = warnings w ++ [msg] ∧
  scratch w1 = scratch w ∧
  (∀ l s, field w1 l (Name s) = field w l (Name s)) ∧
  (∀ l k, l ≠ r → field w1 l k = field w l k).
Proof.
  intros Ho w1 r.
  destruct (alloc_fresh o (exec (Notify.warn msg) w)) as [Hf Hn].
  split; [exact Hf|]. split; [exact Hn|].
  split; [unfold w1, r, exec, eval, alloc; simpl; by rewrite dom_insert_L|].
  split; [done|]. split; [done|]. split.
  - intros l s.
    destruct (passive_alloc o Ho (exec (Notify.warn msg) w) l) as [_ Hk].
    by rewrite Hk.
  - intros l k Hne. unfold w1, r, field, exec, eval, alloc; simpl.
    by rewrite lookup_insert_ne.
Qed.

Ltac run_method := run; cbv zeta; run.

Lemma convertLatLongHeightToXYZ_given (w : World) (this r : loc) (a b c : num) :
  let op := convertLatLongHeightToXYZ this a b c (Some r) in
  eval op w = r ∧
  (is_Some (heap w !! r) → components (exec op w) r = some3 (xyz_of w this a b c)) ∧
  dom (heap (exec op w)) = dom (heap w) ∧
  warnings (exec op w) = warnings w ∧
  scratch (exec op w) = scratch w ∧
  ∀ l k, l ≠ r ∨ (k ≠ Index 0 ∧ k ≠ Index 1 ∧ k ≠ Index 2) →
         field (exec op w) l k = field w l k.
Proof.
  intros op. unfold op, convertLatLongHeightToXYZ. run_method.
  split; [done|]. apply write3.
Qed.

Lemma convertXYZToLatLongHeight_given (w : World) (this r : loc) (a b c : num) :
  let op := convertXYZToLatLongHeight this a b c (Some r) in
  eval op w = r ∧
  (is_Some (heap w !! r) → components (exec op w) r = some3 (llh_of w this a b c)) ∧
  dom (heap (exec op w)) = dom (heap w) ∧
  warnings (exec op w) = warnings w ∧
  scratch (exec op w) = scratch w ∧
  ∀ l k, l ≠ r ∨ (k ≠ Index 0 ∧ k ≠ Index 1 ∧ k ≠ Index 2) →
         field (exec op w) l k = field w l k.
Proof.
  intros op. unfold op, convertXYZToLatLongHeight. run_method.
  split; [done|]. apply write3.
Qed.

Lemma convertLatLongHeightToXYZ_None (w : World) (this : loc) (a b c : num) :
  let new := Notify.warn warn_convertLatLongHeightToXYZ;; Vec3.create in
  convertLatLongHeightToXYZ this a b c None w =
  convertLatLongHeightToXYZ this a b c (Some (eval new w)) (exec new w).
Proof. reflexivity. Qed.

Lemma convertXYZToLatLongHeight_None (w : World) (this : loc) (a b c : num) :
  let new := Notify.warn warn_convertXYZToLatLongHeight;; Vec3.create in
  convertXYZToLatLongHeight this a b c None w =
  convertXYZToLatLongHeight this a b c (Some (eval new w)) (exec new w).
Proof. reflexivity. Qed.

Lemma convertLatLongHeightToXYZ_omitted (w : World) (this : loc) (a b c : num) :
  let op := convertLatLongHeightToXYZ this a b c None in
  let r := eval op w in
  heap w !! r = None ∧
  components (exec op w) r = some3 (xyz_of w this a b c) ∧
  dom (heap (exec op w)) = {[ r ]} ∪ dom (heap w) ∧
  warnings (exec op w) = warnings w ++ [warn_convertLatLongHeightToXYZ] ∧
  scratch (exec op w) = scratch w ∧
  ∀ l k, l ≠ r → field (exec op w) l k = field w l k.
Proof.
  intros op r. unfold r, op, exec, eval.
  rewrite convertLatLongHeightToXYZ_None. cbv zeta. run.
  destruct (created_fields warn_convertLatLongHeightToXYZ Vec3.zero w)
    as (Hf & Hn & Hd & Hw & Hs & Hk & Ho); [intros; apply array_Name|].
  unfold Vec3.create.
  set (w1 := exec (alloc Vec3.zero) (exec (Notify.warn warn_convertLatLongHeightToXYZ) w)) in *.
  set (r1 := eval (alloc Vec3.zero) (exec (Notify.warn warn_convertLatLongHeightToXYZ) w)) in *.
  destruct (convertLatLongHeightToXYZ_given w1 this r1 a b c)
    as (He & Hc & Hd' & Hw' & Hs' & Hfr).
  unfold exec, eval in *. rewrite He.
  assert (Hxyz : xyz_of w1 this a b c = xyz_of w this a b c).
  { unfold xyz_of, stored, _radiusEquator, _eccentricitySquared. by rewrite !Hk. }
  split; [done|]. split; [rewrite <- Hxyz; apply Hc; by rewrite Hn|].
  split; [by rewrite Hd', Hd|]. split; [by rewrite Hw', Hw|]. split; [by rewrite Hs', Hs|].
  intros l k Hl. rewrite Hfr by auto. by apply Ho.
Qed.

Lemma convertXYZToLatLongHeight_omitted (w : World) (this : loc) (a b c : num) :
  let op := convertXYZToLatLongHeight this a b c None in
  let r := eval op w in
  heap w !! r = None ∧
  components (exec op w) r = some3 (llh_of w this a b c) ∧
  dom (heap (exec op w)) = {[ r ]} ∪ dom (heap w) ∧
  warnings (exec op w) = warnings w ++ [warn_convertXYZToLatLongHeight] ∧
  scratch (exec op w) = scratch w ∧
  ∀ l k, l ≠ r → field (exec op w) l k = field w l k.
Proof.
  intros op r. unfold r, op, exec, eval.
  rewrite convertXYZToLatLongHeight_None. cbv zeta. run.
  destruct (created_fields warn_convertXYZToLatLongHeight Vec3.zero w)
    as (Hf & Hn & Hd & Hw & Hs & Hk & Ho); [intros; apply array_Name|].
  unfold Vec3.create.
  set (w1 := exec (alloc Vec3.zero) (exec (Notify.warn warn_convertXYZToLatLongHeight) w)) in *.
  set (r1 := eval (alloc Vec3.zero) (exec (Notify.warn warn_convertXYZToLatLongHeight) w)) in *.
  destruct (convertXYZToLatLongHeight_given w1 this r1 a b c)
    as (He & Hc & Hd' & Hw' & Hs' & Hfr).
  unfold exec, eval in *. rewrite He.
  assert (Hllh : llh_of w1 this a b c = llh_of w this a b c).
  { unfold llh_of, stored, _radiusEquator, _radiusPolar, _eccentricitySquared.
    by rewrite !Hk. }
  split; [done|]. split; [rewrite <- Hllh; apply Hc; by rewrite Hn|].
  split; [by rewrite Hd', Hd|]. split; [by rewrite Hw', Hw|]. split; [by rewrite Hs', Hs|].
  intros l k Hl. rewrite Hfr by auto. by apply Ho.
Qed.

(** ** Arithmetic on finite numbers *)

Lemma div_Fin (a b : R) : b ≠ 0%R → (Fin a / Fin b)%js = Fin (a / b).
Proof. intros Hb. unfold Number.div. by rewrite decide_False. Qed.

Lemma sqrt_Fin (x : R) : (0 <= x)%R → Math.sqrt (Fin x) = Fin (sqrt x).
Proof. intros Hx. unfold Math.sqrt. rewrite decide_False; [done | lra]. Qed.

Lemma eccentricity_of_Fin (re rp : R) :
  re ≠ 0%R →
  eccentricity_of (Fin re) (Fin rp) =
    Fin (2 * ((re - rp) / re) - (re - rp) / re * ((re - rp) / re)).
Proof.
  intros Hre. unfold eccentricity_of, Number.sub; simpl.
  rewrite decide_False by done. reflexivity.
Qed.


Lemma primeVerticalRadius_Fin (re e2 lat : R) :
  (0 < 1 - e2 * (sin lat)²)%R →
  primeVerticalRadius (Fin re) (Fin e2) (Fin lat) = Fin (RprimeVertical re e2 lat).
Proof.
  intros Hpos. unfold primeVerticalRadius, RprimeVertical.
  cbn [Math.sin Number.mul Number.sub Number.add Number.flip].
  replace (1 + - (e2 * sin lat * sin lat))%R with (1 - e2 * (sin lat)²)%R
    by (unfold Rsqr; lra).
  rewrite sqrt_Fin by lra. rewrite div_Fin; [done|].
  apply Rgt_not_eq, sqrt_lt_R0, Hpos.
Qed.

Lemma geodeticToCartesian_Fin (re e2 lat lon h : R) :
  (0 < 1 - e2 * (sin lat)²)%R →
  let N := RprimeVertical re e2 lat in
  geodeticToCartesian (Fin re) (Fin e2) (Fin lat) (Fin lon) (Fin h) =
    (Fin ((N + h) * cos lat * cos lon),
     Fin ((N + h) * cos lat * sin lon),
     Fin ((N * (1 - e2) + h) * sin lat)).
Proof.
  intros Hpos N. unfold geodeticToCartesian.
  rewrite primeVerticalRadius_Fin by done. fold N. reflexivity.
Qed.

Lemma wgs84_coefficient :
  eccentricity_of WGS_84_RADIUS_EQUATOR WGS_84_RADIUS_POLAR = Fin wgs84_e2.
Proof. apply eccentricity_of_Fin. lra. Qed.

Lemma wgs84_e2_bounds : (0 < wgs84_e2 < 1 / 100)%R.
Proof. unfold wgs84_e2. lra. Qed.

(** The fields of a model that has just been constructed. *)
Lemma EllipsoidModel_stored (w0 : World) :
  let this := eval EllipsoidModel w0 in
  let w := exec EllipsoidModel w0 in
  stored w this _radiusEquator = Fin 6378137 ∧
  stored w this _radiusPolar = Fin 6356752.3142 ∧
  stored w this _eccentricitySquared = Fin wgs84_e2.
Proof.
  intros this w. destruct (EllipsoidModel_fields w0) as (_ & _ & He & Hp & Hc).
  unfold coefficients_consistent in Hc. fold this w in He, Hp, Hc.
  unfold stored. rewrite Hc, He, Hp; simpl.
  split; [done|]. split; [done|]. apply wgs84_coefficient.
Qed.

Lemma wgs84_model_valid : is_Some (heap wgs84_world !! wgs84_model).
Proof. apply (EllipsoidModel_fields loaded). Qed.

(** C3. [convertLatLongHeightToXYZ] leaves in the result container
    (the one given, or the one it creates when none is given) exactly
    (X, Y, Z) with
    [N = radiusEquator / sqrt(1 - eccentricitySquared sin(lat)^2)],
    [X = (N+height) cos(lat) cos(lon)], [Y = (N+height) cos(lat) sin(lon)],
    [Z = (N (1 - eccentricitySquared) + height) sin(lat)], for every
    latitude, longitude and height (the special values included); on
    real arguments these are the formulas on real numbers; and with the
    WGS-84 defaults [convertLatLongHeightToXYZ(0, 0, 0)] gives
    (6378137.0, 0, 0). *)
Theorem convertLatLongHeightToXYZ_formula
    (w : World) (this r : loc) (latitude longitude height : num) :
  is_Some (heap w !! r) →
  let w' := exec (convertLatLongHeightToXYZ this latitude longitude height (Some r)) w in
  components w' r =
    some3 (geodeticToCartesian (stored w this _radiusEquator)
             (stored w this _eccentricitySquared) latitude longitude height) ∧
  (let op0 := convertLatLongHeightToXYZ this latitude longitude height None in
   components (exec op0 w) (eval op0 w) =
     some3 (geodeticToCartesian (stored w this _radiusEquator)
              (stored w this _eccentricitySquared) latitude longitude height)) ∧
  (∀ re e2 lat lon h : R,
      stored w this _radiusEquator = Fin re →
      stored w this _eccentricitySquared = Fin e2 →
      latitude = Fin lat → longitude = Fin lon → height = Fin h →
      (0 < 1 - e2 * (sin lat)²)%R →
      let N := (re / sqrt (1 - e2 * (sin lat)²))%R in
      components w' r =
        (Some (Fin ((N + h) * cos lat * cos lon)),
         Some (Fin ((N + h) * cos lat * sin lon)),
         Some (Fin ((N * (1 - e2) + h) * sin lat)))) ∧
  let model := eval EllipsoidModel w in
  let op := convertLatLongHeightToXYZ model (Fin 0) (Fin 0) (Fin 0) None in
  components (exec op (exec EllipsoidModel w)) (eval op (exec EllipsoidModel w)) =
    (Some (Fin 6378137), Some (Fin 0), Some (Fin 0)).
Proof.
  intros Hr w'.
  destruct (convertLatLongHeightToXYZ_given w this r latitude longitude height)
    as (_ & Hc & _).
  specialize (Hc Hr). fold w' in Hc. split; [exact Hc|]. split; [|split].
  - intros op0.
    by destruct (convertLatLongHeightToXYZ_omitted w this latitude longitude height)
      as (_ & Hc0 & _).
  - intros re e2 lat lon h Hre He2 -> -> -> Hpos N.
    rewrite Hc. unfold xyz_of. rewrite Hre, He2.
    by rewrite geodeticToCartesian_Fin.
  - intros model op.
    destruct (convertLatLongHeightToXYZ_omitted (exec EllipsoidModel w) model
                (Fin 0) (Fin 0) (Fin 0)) as (_ & Hc0 & _).
    fold op in Hc0. rewrite Hc0. unfold xyz_of, model.
    destruct (EllipsoidModel_stored w) as (-> & _ & ->).
    assert (Hpos : (0 < 1 - wgs84_e2 * (sin 0)²)%R).
    { rewrite sin_0, Rsqr_0. lra. }
    rewrite geodeticToCartesian_Fin by exact Hpos.
    unfold RprimeVertical. rewrite sin_0, cos_0, Rsqr_0.
    replace (1 - wgs84_e2 * 0)%R with 1%R by lra. rewrite sqrt_1.
    unfold some3. repeat f_equal; lra.
Qed.

Lemma convertLatLongHeightToXYZ_formula_witness :
  is_Some (heap wgs84_world !! wgs84_model) ∧
  components
    (exec (convertLatLongHeightToXYZ wgs84_model (Fin 0) (Fin 0) (Fin 0) (Some wgs84_model))
       wgs84_world) wgs84_model =
    some3 (geodeticToCartesian (stored wgs84_world wgs84_model _radiusEquator)
             (stored wgs84_world wgs84_model _eccentricitySquared) (Fin 0) (Fin 0) (Fin 0)).
Proof.
  split; [exact wgs84_model_valid|].
  apply (convertLatLongHeightToXYZ_formula wgs84_world wgs84_model wgs84_model
           (Fin 0) (Fin 0) (Fin 0) wgs84_model_valid).
Defined.

(** C10. Given a result container, each of the two conversions writes
    its three outputs into that container and returns that very
    reference, allocates nothing and warns about nothing; with the
    argument left out it logs the deprecation warning and returns a
    vector that did not exist before, holding the same three outputs. *)
Theorem result_container_is_returned (w : World) (this r : loc) (a b c : num) :
  is_Some (heap w !! r) →
  let toXYZ := convertLatLongHeightToXYZ this a b c in
  let toLLH := convertXYZToLatLongHeight this a b c in
  (eval (toXYZ (Some r)) w = r ∧
   components (exec (toXYZ (Some r)) w) r = some3 (xyz_of w this a b c) ∧
   dom (heap (exec (toXYZ (Some r)) w)) = dom (heap w) ∧
   warnings (exec (toXYZ (Some r)) w) = warnings w) ∧
  (eval (toLLH (Some r)) w = r ∧
   components (exec (toLLH (Some r)) w) r = some3 (llh_of w this a b c) ∧
   dom (heap (exec (toLLH (Some r)) w)) = dom (heap w) ∧
   warnings (exec (toLLH (Some r)) w) = warnings w) ∧
  (heap w !! eval (toXYZ None) w = None ∧
   components (exec (toXYZ None) w) (eval (toXYZ None) w) = some3 (xyz_of w this a b c) ∧
   dom (heap (exec (toXYZ None) w)) = {[ eval (toXYZ None) w ]} ∪ dom (heap w) ∧
   warnings (exec (toXYZ None) w) =
     warnings w ++ ["deprecated, use this signature convertLatLongHeightToXYZ( latitude, longitude, height, result )"]) ∧
  (heap w !! eval (toLLH None) w = None ∧
   components (exec (toLLH None) w) (eval (toLLH None) w) = some3 (llh_of w this a b c) ∧
   dom (heap (exec (toLLH None) w)) = {[ eval (toLLH None) w ]} ∪ dom (heap w) ∧
   warnings (exec (toLLH None) w) =
     warnings w ++ ["deprecated, use this signature convertXYZToLatLongHeight( X,  Y,  Z , result)"]).
Proof.
  intros Hr toXYZ toLLH.
  destruct (convertLatLongHeightToXYZ_given w this r a b c) as (E1 & C1 & D1 & W1 & _).
  destruct (convertXYZToLatLongHeight_given w this r a b c) as (E2 & C2 & D2 & W2 & _).
  destruct (convertLatLongHeightToXYZ_omitted w this a b c) as (F3 & C3 & D3 & W3 & _).
  destruct (convertXYZToLatLongHeight_omitted w this a b c) as (F4 & C4 & D4 & W4 & _).
  split; [by auto|]. split; [by auto|]. split; [by auto|]. by auto.
Qed.

Lemma result_container_is_returned_witness :
  is_Some (heap wgs84_world !! wgs84_model) ∧
  eval (convertXYZToLatLongHeight wgs84_model (Fin 1) (Fin 2) (Fin 3) (Some wgs84_model))
    wgs84_world = wgs84_model.
Proof.
  split; [exact wgs84_model_valid|].
  apply (result_container_is_returned wgs84_world wgs84_model wgs84_model
           (Fin 1) (Fin 2) (Fin 3) wgs84_model_valid).
Defined.

(** ** Runs of assignments *)

Lemma writes_cons (l : loc) (kv : key * num) (kvs : list (key * num)) (w : World) :
  writes l (kv :: kvs) w = writes l kvs (write l w kv).
Proof. done. Qed.

Lemma writes_valid (l l' : loc) (kvs : list (key * num)) (w : World) :
  is_Some (heap (writes l kvs w) !! l') ↔ is_Some (heap w !! l').
Proof.
  revert w. induction kvs as [|[k v] kvs IH]; intros w; [done|].
  rewrite writes_cons, IH. apply valid_setProp.
Qed.

Lemma field_writes_other (l l' : loc) (k : key) (kvs : list (key * num)) (w : World) :
  l ≠ l' → field (writes l kvs w) l' k = field w l' k.
Proof.
  intros Hne. revert w. induction kvs as [|[k' v] kvs IH]; intros w; [done|].
  rewrite writes_cons, IH. apply field_setProp_ne. by left.
Qed.

Lemma field_writes (l : loc) (k : key) (kvs : list (key * num)) (w : World) :
  is_Some (heap w !! l) →
  field (writes l kvs w) l k = from_option Some (field w l k) (written k kvs).
Proof.
  revert w. induction kvs as [|[k' v] kvs IH]; intros w Hv; [done|].
  rewrite writes_cons, IH by (by apply valid_setProp). cbn [written].
  destruct (written k kvs) as [v'|]; [done|]. simpl.
  destruct (decide (k = k')) as [->|Hk]; simpl.
  - by apply field_setProp_eq.
  - apply field_setProp_ne. right. intros Heq. apply Hk. by rewrite <- Heq.
Qed.

Lemma writes_rest (l : loc) (kvs : list (key * num)) (w : World) :
  dom (heap (writes l kvs w)) = dom (heap w) ∧
  warnings (writes l kvs w) = warnings w ∧
  scratch (writes l kvs w) = scratch w.
Proof.
  revert w. induction kvs as [|[k v] kvs IH]; intros w; [done|].
  rewrite writes_cons. destruct (IH (write l w (k, v))) as (-> & -> & ->).
  split; [|done]. unfold write, exec, setProp; simpl. apply dom_alter_L.
Qed.

(** ** The local frame *)

Lemma exec_setScratch (s : FrameScratch) (w : World) :
  exec (setScratch s) w = with_scratch s w.
Proof. done. Qed.

Lemma exec_getScratch (w : World) : exec getScratch w = w.
Proof. done. Qed.

Lemma eval_getScratch (w : World) : eval getScratch w = scratch w.
Proof. done. Qed.

Lemma computeCoordinateFrame_run (latitude longitude : num) (m : loc) (w : World) :
  let s := frame_scratch (scratch w) latitude longitude in
  exec (computeCoordinateFrame latitude longitude m) w =
    writes m (frame_entries (vec_of (east s)) (vec_of (north s)) (vec_of (up s)))
      (with_scratch s w).
Proof.
  unfold computeCoordinateFrame.
  rewrite exec_bind, exec_getScratch, eval_getScratch.
  cbv zeta. run. rewrite exec_setScratch.
  unfold Matrix.set, writes, frame_entries, vec_of, write, frame_scratch.
  cbn [foldl fst snd up east north].
  reflexivity.
Qed.

Lemma makeTranslate_run (x y z : num) (m : loc) (w : World) :
  exec (Matrix.makeTranslate x y z m) w = writes m (translate_entries x y z) w ∧
  eval (Matrix.makeTranslate x y z m) w = m.
Proof.
  unfold Matrix.makeTranslate, Matrix.setRow. run.
  split; [|done].
  unfold Matrix.set, writes, translate_entries, write.
  cbn [foldl fst snd].
  reflexivity.
Qed.

Lemma prop_insert_eq (o : Obj) (k : key) (v : num) : prop (<[k := v]> o) k = v.
Proof. unfold prop. by rewrite lookup_insert_eq. Qed.

Lemma prop_insert_ne (o : Obj) (k k' : key) (v : num) :
  k ≠ k' → prop (<[k := v]> o) k' = prop o k'.
Proof. intros Hne. unfold prop. by rewrite lookup_insert_ne. Qed.

Lemma vec_of_cross (a b r : Obj) :
  vec_of (Vec3.cross a b r) = cross3 (vec_of a) (vec_of b).
Proof.
  unfold Vec3.cross, vec_of at 1.
  rewrite prop_insert_eq.
  rewrite (prop_insert_ne _ (Index 2) (Index 1)), prop_insert_eq by discriminate.
  rewrite (prop_insert_ne _ (Index 2) (Index 0)),
    (prop_insert_ne _ (Index 1) (Index 0)), prop_insert_eq by discriminate.
  reflexivity.
Qed.

Lemma frame_scratch_vectors (s : FrameScratch) (latitude longitude : num) :
  east s !! Index 2 = Some (Fin 0) →
  let s' := frame_scratch s latitude longitude in
  vec_of (east s') = eastVector longitude ∧
  vec_of (up s') = upVector latitude longitude ∧
  vec_of (north s') = northVector latitude longitude ∧
  east s' !! Index 2 = Some (Fin 0).
Proof.
  intros He s'.
  assert (Hup : vec_of (up s') = upVector latitude longitude).
  { unfold vec_of, upVector, s', frame_scratch; cbn [up].
    rewrite prop_insert_eq.
    rewrite (prop_insert_ne _ (Index 2) (Index 1)), prop_insert_eq by discriminate.
    rewrite (prop_insert_ne _ (Index 2) (Index 0)),
      (prop_insert_ne _ (Index 1) (Index 0)), prop_insert_eq by discriminate.
    done. }
  assert (He2 : east s' !! Index 2 = Some (Fin 0)).
  { unfold s', frame_scratch; cbn [east]. by rewrite !lookup_insert_ne by discriminate. }
  assert (Heast : vec_of (east s') = eastVector longitude).
  { unfold vec_of, eastVector. unfold prop at 3. rewrite He2.
    unfold s', frame_scratch; cbn [east].
    rewrite prop_insert_eq.
    rewrite (prop_insert_ne _ (Index 1) (Index 0)), prop_insert_eq by discriminate.
    done. }
  split; [done|]. split; [done|]. split; [|done].
  unfold northVector. rewrite <- Hup, <- Heast.
  change (north s') with (Vec3.cross (up s') (east s') (north s)).
  apply vec_of_cross.
Qed.

Lemma written_None (k : key) (kvs : list (key * num)) :
  Forall (λ kv, kv.1 ≠ k) kvs → written k kvs = None.
Proof.
  induction 1 as [|[k' v] kvs Hk _ IH]; [done|].
  cbn [written]. rewrite IH. simpl in Hk. by rewrite decide_False.
Qed.

Lemma frame_entries_other (e n u : vec3) (k : key) :
  ¬ rotation_entry k → written k (frame_entries e n u) = None.
Proof.
  intros Hk. apply written_None.
  destruct e as [[e0 e1] e2], n as [[n0 n1] n2], u as [[u0 u1] u2].
  unfold frame_entries.
  repeat (constructor;
          [cbn [fst]; intros <-; apply Hk;
           match goal with
           | |- rotation_entry (Matrix.entry ?r ?c) =>
               exists r, c; split; [lia | split; [lia | reflexivity]]
           end |]).
  constructor.
Qed.

Lemma translation_row_not_rotation (col : nat) : ¬ rotation_entry (Matrix.entry 3 col).
Proof. intros (r & c & Hr & Hc & [= Heq]). lia. Qed.

Lemma computeCoordinateFrame_spec (w : World) (m : loc) (latitude longitude : num) :
  scratch_ok w →
  let w' := exec (computeCoordinateFrame latitude longitude m) w in
  (is_Some (heap w !! m) →
   row3 w' m 0 = some3 (eastVector longitude) ∧
   row3 w' m 1 = some3 (northVector latitude longitude) ∧
   row3 w' m 2 = some3 (upVector latitude longitude)) ∧
  (∀ l k, l ≠ m ∨ ¬ rotation_entry k → field w' l k = field w l k) ∧
  dom (heap w') = dom (heap w) ∧
  warnings w' = warnings w ∧
  scratch_ok w'.
Proof.
  intros Hok w'. unfold w'. rewrite computeCoordinateFrame_run. cbv zeta.
  destruct (frame_scratch_vectors (scratch w) latitude longitude Hok)
    as (He & Hu & Hn & He2).
  set (s := frame_scratch (scratch w) latitude longitude) in *.
  rewrite He, Hu, Hn.
  generalize (eastVector longitude) (northVector latitude longitude)
    (upVector latitude longitude).
  intros e n u. set (kvs := frame_entries e n u).
  destruct (writes_rest m kvs (with_scratch s w)) as (Hd & Hw & Hs).
  split; [|split; [|split; [exact Hd|split; [exact Hw|]]]].
  - intros Hv.
    unfold row3.
    rewrite !(field_writes m _ kvs (with_scratch s w)) by exact Hv.
    destruct e as [[e0 e1] e2], n as [[n0 n1] n2], u as [[u0 u1] u2].
    split; [reflexivity|]. split; reflexivity.
  - intros l k [Hl|Hk].
    + by rewrite field_writes_other.
    + destruct (decide (m = l)) as [<-|Hl]; [|by rewrite field_writes_other].
      destruct (heap w !! m) as [o|] eqn:Ho.
      * rewrite field_writes by (simpl; by rewrite Ho).
        unfold kvs. by rewrite frame_entries_other.
      * assert (Hnone : heap (writes m kvs (with_scratch s w)) !! m = None).
        { apply eq_None_not_Some. rewrite writes_valid. simpl. rewrite Ho.
          by intros [? ?]. }
        unfold field. by rewrite Hnone, Ho.
  - unfold scratch_ok. by rewrite Hs.
Qed.

Lemma EllipsoidModel_scratch (w0 : World) :
  scratch (exec EllipsoidModel w0) = scratch w0.
Proof. unfold EllipsoidModel, computeCoefficients. by run. Qed.

Lemma initial_scratch_ok : east initial_scratch !! Index 2 = Some (Fin 0).
Proof.
  unfold initial_scratch, Vec3.zero, array; cbn [east array_from].
  rewrite !lookup_insert_ne by discriminate. apply lookup_insert_eq.
Qed.

Lemma wgs84_world_scratch_ok : scratch_ok wgs84_world.
Proof.
  unfold scratch_ok, wgs84_world. rewrite EllipsoidModel_scratch.
  apply initial_scratch_ok.
Qed.

(** C6. [computeCoordinateFrame] writes the nine rotation entries of
    the matrix, row 0 = east = (-sin(lon), -cos(lon), 0), row 1 = north
    = up x east, row 2 = up = (cos(lon)cos(lat), sin(lon)cos(lat),
    sin(lat)), and nothing else: every other entry of that matrix, its
    fourth row among them, and every other object are as before. *)
Theorem computeCoordinateFrame_effect
    (w : World) (m : loc) (latitude longitude : num) :
  scratch_ok w →
  is_Some (heap w !! m) →
  let w' := exec (computeCoordinateFrame latitude longitude m) w in
  row3 w' m 0 =
    (Some (- Math.sin longitude)%js, Some (- Math.cos longitude)%js, Some (Fin 0)) ∧
  row3 w' m 1 = some3 (cross3 (upVector latitude longitude) (eastVector longitude)) ∧
  row3 w' m 2 =
    (Some (Math.cos longitude * Math.cos latitude)%js,
     Some (Math.sin longitude * Math.cos latitude)%js,
     Some (Math.sin latitude)) ∧
  (∀ col, field w' m (Matrix.entry 3 col) = field w m (Matrix.entry 3 col)) ∧
  (∀ l k, l ≠ m ∨ ¬ rotation_entry k → field w' l k = field w l k) ∧
  dom (heap w') = dom (heap w).
Proof.
  intros Hok Hv w'.
  destruct (computeCoordinateFrame_spec w m latitude longitude Hok)
    as (Hrows & Hframe & Hd & _ & _).
  destruct (Hrows Hv) as (R0 & R1 & R2). fold w' in R0, R1, R2, Hframe, Hd.
  split; [exact R0|]. split; [exact R1|]. split; [exact R2|].
  split; [|split; [exact Hframe | exact Hd]].
  intros col. apply Hframe. right. apply translation_row_not_rotation.
Qed.

Lemma computeCoordinateFrame_effect_witness :
  scratch_ok wgs84_world ∧
  is_Some (heap wgs84_world !! wgs84_model) ∧
  row3 (exec (computeCoordinateFrame (Fin 0) (Fin 0) wgs84_model) wgs84_world)
       wgs84_model 2 =
    (Some (Math.cos (Fin 0) * Math.cos (Fin 0))%js,
     Some (Math.sin (Fin 0) * Math.cos (Fin 0))%js,
     Some (Math.sin (Fin 0))).
Proof.
  split; [exact wgs84_world_scratch_ok|]. split; [exact wgs84_model_valid|].
  apply (computeCoordinateFrame_effect wgs84_world wgs84_model (Fin 0) (Fin 0)
           wgs84_world_scratch_ok wgs84_model_valid).
Defined.

Lemma translate_entries_row3 (x y z : num) :
  written (Matrix.entry 3 0) (translate_entries x y z) = Some x ∧
  written (Matrix.entry 3 1) (translate_entries x y z) = Some y ∧
  written (Matrix.entry 3 2) (translate_entries x y z) = Some z ∧
  written (Matrix.entry 3 3) (translate_entries x y z) = Some (Fin 1).
Proof. repeat split. Qed.

Lemma alloc_other (o : Obj) (w : World) (l : loc) (k : key) :
  l ≠ eval (alloc o) w → field (exec (alloc o) w) l k = field w l k.
Proof.
  intros Hne. unfold field, exec, eval, alloc in *; simpl in *.
  by rewrite lookup_insert_ne.
Qed.

Lemma alloc_rest (o : Obj) (w : World) :
  dom (heap (exec (alloc o) w)) = {[ eval (alloc o) w ]} ∪ dom (heap w) ∧
  warnings (exec (alloc o) w) = warnings w ∧
  scratch (exec (alloc o) w) = scratch w.
Proof.
  unfold exec, eval, alloc; simpl. split; [|done]. by rewrite dom_insert_L.
Qed.

(** C7. The transform returned by [computeLocalToWorldTransformFromXYZ]
    is a new matrix whose translation row is the input (X, Y, Z) itself,
    and whose rotation rows are the frame (east, north, up) at the
    latitude and longitude that [convertXYZToLatLongHeight] derives from
    (X, Y, Z). *)
Theorem computeLocalToWorldTransformFromXYZ_translation
    (w : World) (this : loc) (X Y Z : num) :
  scratch_ok w →
  let op := computeLocalToWorldTransformFromXYZ this X Y Z in
  let m := eval op w in
  let w' := exec op w in
  let latitude := (llh_of w this X Y Z).1.1 in
  let longitude := (llh_of w this X Y Z).1.2 in
  heap w !! m = None ∧
  row3 w' m 3 = (Some X, Some Y, Some Z) ∧
  field w' m (Matrix.entry 3 3) = Some (Fin 1) ∧
  row3 w' m 0 = some3 (eastVector longitude) ∧
  row3 w' m 1 = some3 (northVector latitude longitude) ∧
  row3 w' m 2 = some3 (upVector latitude longitude).
Proof.
  intros Hok op m w' latitude longitude.
  unfold m, w', op, computeLocalToWorldTransformFromXYZ. run.
  destruct (convertXYZToLatLongHeight_omitted w this X Y Z)
    as (Hf1 & Hc1 & Hd1 & _ & Hs1 & _).
  set (w1 := exec (convertXYZToLatLongHeight this X Y Z None) w) in *.
  set (lla := eval (convertXYZToLatLongHeight this X Y Z None) w) in *.
  unfold Matrix.create.
  destruct (alloc_fresh Matrix.identity w1) as [Hf2 Hn2].
  destruct (alloc_rest Matrix.identity w1) as (Hd2 & _ & Hs2).
  set (w2 := exec (alloc Matrix.identity) w1) in *.
  set (m0 := eval (alloc Matrix.identity) w1) in *.
  destruct (makeTranslate_run X Y Z m0 w2) as [-> ->].
  set (w3 := writes m0 (translate_entries X Y Z) w2).
  (* the vector of geodetic coordinates is another object than the matrix *)
  assert (Hlla : is_Some (heap w1 !! lla)).
  { apply elem_of_dom. rewrite Hd1. apply elem_of_union_l, elem_of_singleton. done. }
  assert (Hne : lla ≠ m0).
  { intros Heq. rewrite Heq in Hlla. rewrite Hf2 in Hlla. by destruct Hlla. }
  assert (Hread : ∀ i, field w3 lla (Index i) = field w1 lla (Index i)).
  { intros i. unfold w3. rewrite field_writes_other by done.
    by apply alloc_other. }
  rewrite !Hread.
  unfold components in Hc1. unfold latitude, longitude.
  destruct (llh_of w this X Y Z) as [[lat lon] h]. cbn [some3] in Hc1.
  injection Hc1 as -> -> _. cbn [from_option fst snd]. unfold id.
  (* the frame is written into the translated matrix *)
  assert (Hok3 : scratch_ok w3).
  { unfold scratch_ok, w3. destruct (writes_rest m0 (translate_entries X Y Z) w2)
      as (_ & _ & ->). rewrite Hs2, Hs1. exact Hok. }
  assert (Hv3 : is_Some (heap w3 !! m0)).
  { unfold w3. rewrite writes_valid, Hn2. done. }
  destruct (computeCoordinateFrame_spec w3 m0 lat lon Hok3)
    as (Hrows & Hframe & _).
  destruct (Hrows Hv3) as (R0 & R1 & R2).
  assert (Hv2 : is_Some (heap w2 !! m0)) by (by rewrite Hn2).
  destruct (translate_entries_row3 X Y Z) as (T0 & T1 & T2 & T3).
  split; [|split; [|split; [|done]]].
  - apply not_elem_of_dom. apply not_elem_of_dom in Hf2.
    rewrite Hd1 in Hf2. intros Hin. apply Hf2. by apply elem_of_union_r.
  - unfold row3.
    rewrite !Hframe by (right; apply translation_row_not_rotation).
    unfold w3. rewrite !field_writes by done. by rewrite T0, T1, T2.
  - rewrite Hframe by (right; apply translation_row_not_rotation).
    unfold w3. rewrite field_writes by done. by rewrite T3.
Qed.

Lemma computeLocalToWorldTransformFromXYZ_translation_witness :
  scratch_ok wgs84_world ∧
  let op := computeLocalToWorldTransformFromXYZ wgs84_model (Fin 1) (Fin 2) (Fin 3) in
  row3 (exec op wgs84_world) (eval op wgs84_world) 3 =
    (Some (Fin 1), Some (Fin 2), Some (Fin 3)).
Proof.
  split; [exact wgs84_world_scratch_ok|].
  apply (computeLocalToWorldTransformFromXYZ_translation wgs84_world wgs84_model
           (Fin 1) (Fin 2) (Fin 3) wgs84_world_scratch_ok).
Defined.

(** ** Orthogonality of the frame *)

Lemma sin_cos_PI4 : (sin (PI / 4) = cos (PI / 4) ∧ sin (PI / 4) * cos (PI / 4) = 1 / 2)%R.
Proof.
  rewrite sin_PI4, cos_PI4. split; [done|].
  assert (H : (sqrt 2 * sqrt 2 = 2)%R) by (apply sqrt_sqrt; lra).
  assert (Hpos : (0 < sqrt 2)%R) by (apply sqrt_lt_R0; lra).
  field_simplify; [|lra]. rewrite <- Rsqr_pow2. unfold Rsqr. rewrite H. lra.
Qed.

Lemma east_dot_up (lat lon : R) :
  dot3 (eastVector (Fin lon)) (upVector (Fin lat) (Fin lon)) =
    Fin (- (sin (2 * lon) * cos lat)).
Proof.
  unfold dot3, eastVector, upVector; cbn. f_equal. rewrite sin_2a. lra.
Qed.

Lemma frame_world_ok :
  scratch_ok frame_world ∧ is_Some (heap frame_world !! frame_matrix).
Proof.
  unfold frame_world, frame_matrix, Matrix.create. split.
  - unfold scratch_ok. destruct (alloc_rest Matrix.identity loaded) as (_ & _ & ->).
    apply initial_scratch_ok.
  - destruct (alloc_fresh Matrix.identity loaded) as [_ ->]. done.
Qed.

(** C1. At latitude 0 and longitude 45 degrees the rows that
    [computeCoordinateFrame] writes are not an orthonormal basis: the
    east row is the opposite of the up row (their scalar product is -1,
    not 0) and the north row is the zero vector. *)
Theorem frame_degenerate_at_longitude_45 :
  let w' := exec (computeCoordinateFrame (Fin 0) (Fin (PI / 4)) frame_matrix) frame_world in
  let e := eastVector (Fin (PI / 4)) in
  let n := northVector (Fin 0) (Fin (PI / 4)) in
  let u := upVector (Fin 0) (Fin (PI / 4)) in
  row3 w' frame_matrix 0 = some3 e ∧
  row3 w' frame_matrix 1 = some3 n ∧
  row3 w' frame_matrix 2 = some3 u ∧
  dot3 e u = Fin (-1) ∧
  n = (Fin 0, Fin 0, Fin 0).
Proof.
  intros w' e n u. destruct frame_world_ok as [Hok Hv].
  destruct (computeCoordinateFrame_spec frame_world frame_matrix (Fin 0) (Fin (PI / 4)) Hok)
    as (Hrows & _).
  destruct (Hrows Hv) as (R0 & R1 & R2).
  split; [exact R0|]. split; [exact R1|]. split; [exact R2|].
  destruct sin_cos_PI4 as [Hsc Hhalf]. split.
  - unfold e, u. rewrite east_dot_up. f_equal.
    replace (2 * (PI / 4))%R with (PI / 2)%R by lra. rewrite sin_PI2, cos_0. lra.
  - unfold n, northVector, cross3, upVector, eastVector; cbn.
    rewrite sin_0, cos_0, Hsc. repeat f_equal; lra.
Qed.

(** ** The pole *)






Lemma sqrt_Fin_inv (x : num) (d : R) :
  Math.sqrt x = Fin d → ∃ a, x = Fin a.
Proof. destruct x as [a| | |]; simpl; try discriminate. intros _. by exists a. Qed.



(** ** The round trip *)

Section RealArithmetic.
Local Open Scope R_scope.

Lemma tan_shift (x : R) : cos x <> 0 -> tan (x + PI) = tan x.
Proof.
  intros Hc. unfold tan. rewrite neg_sin, neg_cos. field. exact Hc.
Qed.

Lemma Ratan2_polar (r lon : R) :
  0 < r -> - PI < lon <= PI -> Ratan2 (r * sin lon) (r * cos lon) = lon.
Proof.
  intros Hr [Hlo Hhi]. pose proof PI_RGT_0 as Hpi. unfold Ratan2.
  assert (Hq : cos lon <> 0 -> r * sin lon / (r * cos lon) = tan lon).
  { intros Hc. unfold tan. field. split; [exact Hc | lra]. }
  destruct (Rtotal_order lon (- (PI / 2))) as [Hlt | [Heq | Hgt]].
  - (* third quadrant *)
    assert (Hc : cos lon < 0).
    { rewrite <- cos_neg. apply cos_lt_0; lra. }
    assert (Hs : sin lon < 0) by (apply sin_lt_0_var; lra).
    rewrite decide_False by nra. rewrite decide_True by nra.
    rewrite decide_False by nra.
    rewrite Hq by lra. rewrite <- (tan_shift lon) by lra.
    rewrite atan_tan by lra. lra.
  - subst lon. rewrite cos_neg, sin_neg, cos_PI2, sin_PI2.
    rewrite decide_False by lra. rewrite decide_False by lra.
    rewrite decide_False by lra. rewrite decide_True by lra. reflexivity.
  - destruct (Rtotal_order lon (PI / 2)) as [Hlt | [Heq | Hgt']].
    + assert (Hc : 0 < cos lon) by (apply cos_gt_0; lra).
      rewrite decide_True by nra. rewrite Hq by lra. apply atan_tan. lra.
    + subst lon. rewrite cos_PI2, sin_PI2.
      rewrite decide_False by lra. rewrite decide_False by lra.
      rewrite decide_True by lra. reflexivity.
    + (* second quadrant *)
      assert (Hc : cos lon < 0) by (apply cos_lt_0; lra).
      assert (Hs : 0 <= sin lon) by (apply sin_ge_0; lra).
      rewrite decide_False by nra. rewrite decide_True by nra.
      rewrite decide_True by nra.
      rewrite Hq by lra.
      assert (Hc' : cos (lon - PI) <> 0).
      { replace (lon - PI) with (- (PI - lon)) by lra. rewrite cos_neg.
        replace (PI - lon) with (- lon + PI) by lra. rewrite neg_cos, cos_neg. lra. }
      replace (tan lon) with (tan (lon - PI)).
      * rewrite atan_tan by lra. lra.
      * rewrite <- (tan_shift (lon - PI)) by exact Hc'. f_equal. lra.
Qed.

Lemma Ratan2_turns (r lon0 : R) (k : nat) (lon : R) :
  0 < r -> - PI < lon0 <= PI ->
  lon = lon0 + 2 * INR k * PI \/ lon = lon0 - 2 * INR k * PI ->
  Ratan2 (r * sin lon) (r * cos lon) = lon0.
Proof.
  intros Hr Hlon [-> | ->].
  - rewrite sin_period, cos_period. by apply Ratan2_polar.
  - rewrite <- (sin_period (lon0 - 2 * INR k * PI) k).
    rewrite <- (cos_period (lon0 - 2 * INR k * PI) k).
    replace (lon0 - 2 * INR k * PI + 2 * INR k * PI) with lon0 by lra.
    by apply Ratan2_polar.
Qed.

Lemma cos_atan_pos (x : R) : 0 < cos (atan x).
Proof.
  pose proof (atan_bound x) as [Hlo Hhi]. apply cos_gt_0; lra.
Qed.

Lemma heightDivisor_Fin (lat : R) : cos lat <> 0 -> heightDivisor (Fin lat) = Fin (cos lat).
Proof.
  intros Hc. unfold heightDivisor. cbn [Math.cos Number.strict_eq].
  by rewrite bool_decide_false.
Qed.

(** The backward conversion on real arguments, when no division is by
    zero. *)
Lemma cartesianToGeodetic_Fin (re rp e2 x y z : R) :
  let p := sqrt (x * x + y * y) in
  let theta := Ratan2 (z * re) (p * rp) in
  let eDashSquared := (re * re - rp * rp) / (rp * rp) in
  let A := z + eDashSquared * rp * sin theta * sin theta * sin theta in
  let D := p - e2 * re * cos theta * cos theta * cos theta in
  let lat := atan (A / D) in
  rp <> 0 -> D <> 0 -> 0 < 1 - e2 * (sin lat)² ->
  cartesianToGeodetic (Fin re) (Fin rp) (Fin e2) (Fin x) (Fin y) (Fin z) =
    (Fin lat, Fin (Ratan2 y x), Fin (p / cos lat - RprimeVertical re e2 lat)).
Proof.
  intros p theta eDashSquared A D lat Hrp HD Hpos.
  assert (Hp : Math.sqrt (Fin x * Fin x + Fin y * Fin y)%js = Fin p).
  { cbn [Number.mul Number.add]. apply sqrt_Fin. nra. }
  assert (Hlat : bowringLatitude (Fin re) (Fin rp) (Fin e2) (Fin x) (Fin y) (Fin z)
                 = Fin lat).
  { unfold bowringLatitude. rewrite Hp. cbv zeta.
    cbn [Number.mul Number.add Number.sub Number.flip Math.atan2].
    fold theta. cbn [Math.sin Math.cos].
    rewrite div_Fin by nra.
    cbn [Number.mul Number.add Number.sub Number.flip].
    rewrite div_Fin; [reflexivity|].
    unfold D in HD. unfold Rminus in HD. exact HD. }
  unfold cartesianToGeodetic. cbv zeta. rewrite Hlat, Hp.
  rewrite primeVerticalRadius_Fin by exact Hpos.
  rewrite heightDivisor_Fin by (apply Rgt_not_eq, cos_atan_pos).
  rewrite div_Fin by (apply Rgt_not_eq, cos_atan_pos).
  reflexivity.
Qed.

Lemma Ratan2_pos (y x : R) : 0 < x -> Ratan2 y x = atan (y / x).
Proof. intros Hx. unfold Ratan2. by rewrite decide_True. Qed.

(** On the ellipsoid (height 0) one pass of Bowring's formula is exact. *)
Lemma surface_latitude (a b e2 lat : R) :
  0 < a -> 0 < b -> 1 - e2 = (b / a) * (b / a) -> - (PI / 2) < lat < PI / 2 ->
  let N := RprimeVertical a e2 lat in
  let p := (N + 0) * cos lat in
  let z := (N * (1 - e2) + 0) * sin lat in
  let theta := Ratan2 (z * a) (p * b) in
  let A := z + (a * a - b * b) / (b * b) * b * sin theta * sin theta * sin theta in
  let D := p - e2 * a * cos theta * cos theta * cos theta in
  0 < 1 - e2 * (sin lat)² /\ 0 < N /\ D <> 0 /\ atan (A / D) = lat.
Proof.
  intros Ha Hb He Hlat N p z theta A D.
  assert (Hc : 0 < cos lat) by (apply cos_gt_0; lra).
  set (c := cos lat) in *. set (s := sin lat) in *.
  assert (Hsc : s * s + c * c = 1).
  { pose proof (sin2_cos2 lat) as H. unfold Rsqr in H. exact H. }
  assert (Hq : 0 < b / a) by (by apply Rdiv_lt_0_compat).
  assert (Hpos : 0 < 1 - e2 * s²).
  { unfold Rsqr. replace (1 - e2 * (s * s)) with (c * c + (1 - e2) * (s * s)) by nra.
    rewrite He. nra. }
  set (W := sqrt (1 - e2 * s²)).
  assert (HW0 : 0 < W) by (by apply sqrt_lt_R0).
  assert (HW : W * W = 1 - e2 * (s * s)).
  { unfold W. rewrite sqrt_def by lra. reflexivity. }
  assert (HN : N = a / W) by reflexivity.
  assert (HN0 : 0 < N) by (rewrite HN; by apply Rdiv_lt_0_compat).
  assert (Hp0 : 0 < p) by (unfold p; nra).
  (* the parametric latitude *)
  set (t := b / a * s / c).
  assert (Ht : z * a / (p * b) = t).
  { unfold z, p, t. rewrite He. field. repeat split; lra. }
  assert (Htheta : theta = atan t).
  { unfold theta. rewrite Ratan2_pos by nra. by rewrite Ht. }
  assert (Hroot : sqrt (1 + t²) = W / c).
  { apply sqrt_lem_1.
    - unfold Rsqr. nra.
    - apply Rlt_le. by apply Rdiv_lt_0_compat.
    - unfold Rsqr, t. 
      replace (W / c * (W / c)) with (W * W / (c * c)) by (field; lra).
      rewrite HW. 
      replace (1 - e2 * (s * s)) with (c * c + (1 - e2) * (s * s)) by nra.
      rewrite He. field. split; lra. }
  assert (Hsin : sin theta = b / a * s / W).
  { rewrite Htheta, sin_atan, Hroot. unfold t. field. repeat split; lra. }
  assert (Hcos : cos theta = c / W).
  { rewrite Htheta, cos_atan, Hroot. field. split; lra. }
  assert (HD : D = a * c * (1 - e2) / (W * W * W)).
  { unfold D, p. rewrite Hcos, HN.
    replace (1 - e2) with (W * W - e2 * (c * c))
      by (rewrite HW; replace (c * c) with (1 - s * s) by lra; ring).
    field. lra. }
  assert (HA : A = a * s * (1 - e2) / (W * W * W)).
  { unfold A, z. rewrite Hsin, HN.
    replace ((a * a - b * b) / (b * b) * b * (b / a * s / W) * (b / a * s / W) * (b / a * s / W))
      with (a * (1 - b / a * (b / a)) * (b / a * (b / a)) * (s * s) * s / (W * W * W))
      by (field; repeat split; lra).
    rewrite <- He.
    replace (1 - (1 - e2)) with e2 by lra.
    assert (H1 : W * W + e2 * (s * s) = 1) by lra.
    replace (a * s * (1 - e2) / (W * W * W))
      with (a * s * (1 - e2) * (W * W + e2 * (s * s)) / (W * W * W))
      by (rewrite H1; field; lra).
    field. lra. }
  assert (He0 : 0 < 1 - e2) by (rewrite He; nra).
  assert (HD0 : 0 < D).
  { rewrite HD. apply Rdiv_lt_0_compat.
    - apply Rmult_lt_0_compat; [by apply Rmult_lt_0_compat | lra].
    - repeat apply Rmult_lt_0_compat; exact HW0. }
  split; [exact Hpos|]. split; [exact HN0|]. split; [lra|].
  replace (A / D) with (tan lat).
  - by apply atan_tan.
  - rewrite HA, HD. unfold tan. fold s c. field. repeat split; lra.
Qed.

(** The second-order term of Bowring's formula.  [Su, Cu] and [St, Ct]
    are the sine and cosine of the parametric latitude [u] and of its
    approximation [theta]; [x] and [y] are the cosine and sine of
    [theta - u]. *)
Lemma bowring_identity (Su Cu St Ct : R) :
  Su * Su + Cu * Cu = 1 -> St * St + Ct * Ct = 1 ->
  let x := Ct * Cu + St * Su in
  let y := St * Cu - Ct * Su in
  x * x + y * y = 1 /\
  Cu * (St * St * St) + Su * (Ct * Ct * Ct) - Su * Cu =
    Su * Cu * ((1 - x) * (2 * (x * x) + 2 * x - 1)) + (Cu * Cu - Su * Su) * (y * y * y).
Proof.
  intros Hu Ht x y.
  assert (Hxy : x * x + y * y = 1).
  { unfold x, y.
    replace ((Ct * Cu + St * Su) * (Ct * Cu + St * Su) +
             (St * Cu - Ct * Su) * (St * Cu - Ct * Su))
      with ((St * St + Ct * Ct) * (Su * Su + Cu * Cu)) by ring.
    rewrite Hu, Ht. ring. }
  split; [exact Hxy|].
  assert (HSt : St = Su * x + Cu * y).
  { unfold x, y.
    replace (Su * (Ct * Cu + St * Su) + Cu * (St * Cu - Ct * Su))
      with (St * (Su * Su + Cu * Cu)) by ring.
    rewrite Hu. ring. }
  assert (HCt : Ct = Cu * x - Su * y).
  { unfold x, y.
    replace (Cu * (Ct * Cu + St * Su) - Su * (St * Cu - Ct * Su))
      with (Ct * (Su * Su + Cu * Cu)) by ring.
    rewrite Hu. ring. }
  generalize dependent y. generalize dependent x. intros x y Hxy HSt HCt.
  rewrite HSt, HCt.
  replace (Cu * ((Su * x + Cu * y) * (Su * x + Cu * y) * (Su * x + Cu * y)) +
           Su * ((Cu * x - Su * y) * (Cu * x - Su * y) * (Cu * x - Su * y)) - Su * Cu)
    with (Su * Cu * (Su * Su + Cu * Cu) * (x * x * x)
          + 3 * (Su * Cu) * (Su * Su + Cu * Cu) * (x * (y * y))
          + (Cu * Cu - Su * Su) * (Su * Su + Cu * Cu) * (y * y * y) - Su * Cu) by ring.
  rewrite Hu.
  replace (y * y) with (1 - x * x) at 1 by lra.
  ring.
Qed.

Lemma bowring_second_order (Su Cu St Ct : R) :
  Su * Su + Cu * Cu = 1 -> St * St + Ct * Ct = 1 -> 0 <= Cu ->
  let x := Ct * Cu + St * Su in
  let y := St * Cu - Ct * Su in
  0 <= x -> y * y <= 1 / 100 ->
  Rabs (Cu * (St * St * St) + Su * (Ct * Ct * Ct) - Su * Cu) <=
    y * y * (158 / 100 * (Rabs Su * Cu) + Rabs y).
Proof.
  intros Hu Ht HCu x y Hx Hy.
  destruct (bowring_identity Su Cu St Ct Hu Ht) as [Hxy Hg].
  fold x y in Hxy, Hg. rewrite Hg. clear Hg.
  assert (Hx1 : x <= 1) by nra.
  assert (Hx9 : 99 / 100 <= x) by nra.
  assert (H1x : 0 <= 1 - x <= y * y * (100 / 199)).
  { split; [lra|]. 
    assert (Ht1 : (1 - x) * (1 + x) = y * y) by nra.
    nra. }
  assert (Hp : 0 <= 2 * (x * x) + 2 * x - 1 <= 3) by nra.
  eapply Rle_trans; [apply Rabs_triang|].
  rewrite !Rabs_mult.
  assert (HSu : 0 <= Rabs Su) by apply Rabs_pos.
  assert (Hy0 : 0 <= Rabs y) by apply Rabs_pos.
  assert (Hyy : Rabs y * Rabs y = y * y).
  { rewrite <- Rabs_mult. apply Rabs_right. nra. }
  assert (HCS : Rabs (Cu * Cu - Su * Su) <= 1).
  { apply Rabs_le. nra. }
  rewrite (Rabs_right Cu) by lra.
  rewrite (Rabs_right (1 - x)) by lra.
  rewrite (Rabs_right (2 * (x * x) + 2 * x - 1)) by lra.
  assert (T1 : Rabs Su * Cu * ((1 - x) * (2 * (x * x) + 2 * x - 1))
               <= y * y * (158 / 100 * (Rabs Su * Cu))).
  { assert (0 <= Rabs Su * Cu) by nra.
    assert ((1 - x) * (2 * (x * x) + 2 * x - 1) <= y * y * (158 / 100)) by nra.
    nra. }
  assert (T2 : Rabs (Cu * Cu - Su * Su) * (Rabs y * Rabs y * Rabs y) <= y * y * Rabs y).
  { rewrite Hyy. assert (0 <= y * y * Rabs y) by nra. nra. }
  lra.
Qed.

Lemma atan_lipschitz (x y : R) : Rabs (atan x - atan y) <= Rabs (x - y).
Proof.
  assert (Hmono : forall u v, u < v -> 0 <= atan v - atan u <= v - u).
  { intros u v Huv.
    destruct (MVT_cor2 atan (fun t => / (1 + t ^ 2)) u v Huv) as (c & Hc & _).
    { intros t _. apply derivable_pt_lim_atan. }
    rewrite Hc.
    assert (H1 : 0 < / (1 + c ^ 2) <= 1).
    { pose proof (pow2_ge_0 c). split.
      - apply Rinv_0_lt_compat. lra.
      - rewrite <- Rinv_1 at 2. apply Rinv_le_contravar; lra. }
    nra. }
  destruct (Rtotal_order x y) as [Hlt | [-> | Hgt]].
  - destruct (Hmono x y Hlt). rewrite !Rabs_left1 by lra. lra.
  - rewrite !Rminus_diag. lra.
  - destruct (Hmono y x Hgt). rewrite !Rabs_right by lra. lra.
Qed.

Lemma sqrt_1_sqr_bounds (x : R) : 1 <= sqrt (1 + x * x) /\ Rabs x <= sqrt (1 + x * x).
Proof.
  assert (H0 : 0 <= sqrt (1 + x * x)) by apply sqrt_pos.
  assert (Hd : sqrt (1 + x * x) * sqrt (1 + x * x) = 1 + x * x) by (apply sqrt_def; nra).
  split; [nra|]. apply Rabs_le. nra.
Qed.

Lemma secant_lipschitz (x y : R) :
  Rabs (sqrt (1 + x * x) - sqrt (1 + y * y)) <= Rabs (x - y).
Proof.
  destruct (sqrt_1_sqr_bounds x) as [Hx1 Hxa], (sqrt_1_sqr_bounds y) as [Hy1 Hya].
  assert (Hdx : sqrt (1 + x * x) * sqrt (1 + x * x) = 1 + x * x) by (apply sqrt_def; nra).
  assert (Hdy : sqrt (1 + y * y) * sqrt (1 + y * y) = 1 + y * y) by (apply sqrt_def; nra).
  set (X := sqrt (1 + x * x)) in *. set (Y := sqrt (1 + y * y)) in *.
  assert (Hprod : (X - Y) * (X + Y) = (x - y) * (x + y)) by nra.
  assert (Hsum : Rabs (x + y) <= X + Y).
  { eapply Rle_trans; [apply Rabs_triang|]. lra. }
  assert (Habs : Rabs (X - Y) * (X + Y) = Rabs (x - y) * Rabs (x + y)).
  { rewrite <- (Rabs_right (X + Y)) at 1 by lra. rewrite <- !Rabs_mult. by rewrite Hprod. }
  assert (H0 : 0 <= Rabs (X - Y)) by apply Rabs_pos.
  assert (H1 : 0 <= Rabs (x - y)) by apply Rabs_pos.
  assert (H2 : 0 <= Rabs (x + y)) by apply Rabs_pos.
  nra.
Qed.

(** [sin^2 (atan x) = x^2 / (1 + x^2)], and how it moves with [x]. *)
Lemma sin_sqr_atan (x : R) : (sin (atan x))² = x * x / (1 + x * x).
Proof.
  rewrite sin_atan. unfold Rsqr.
  assert (Hd : sqrt (1 + x * x) * sqrt (1 + x * x) = 1 + x * x) by (apply sqrt_def; nra).
  destruct (sqrt_1_sqr_bounds x) as [Hx1 _].
  replace (x / sqrt (1 + x * x) * (x / sqrt (1 + x * x)))
    with (x * x / (sqrt (1 + x * x) * sqrt (1 + x * x))) by (field; lra).
  by rewrite Hd.
Qed.

Lemma sin_sqr_atan_lipschitz (x y : R) :
  Rabs ((sin (atan x))² - (sin (atan y))²) <= Rabs (x - y).
Proof.
  rewrite !sin_sqr_atan.
  replace (x * x / (1 + x * x) - y * y / (1 + y * y))
    with ((x - y) * ((x + y) / ((1 + x * x) * (1 + y * y)))) by (field; nra).
  rewrite Rabs_mult.
  assert (H : Rabs ((x + y) / ((1 + x * x) * (1 + y * y))) <= 1).
  { apply Rabs_le.
    assert (Hp : 0 < (1 + x * x) * (1 + y * y)) by nra.
    assert (Hxy : 0 <= x * x * (y * y)).
    { apply Rmult_le_pos; apply Rle_0_sqr. }
    pose proof (Rle_0_sqr (x - 1 / 2)) as Hx1. pose proof (Rle_0_sqr (y - 1 / 2)) as Hy1.
    pose proof (Rle_0_sqr (x + 1 / 2)) as Hx2. pose proof (Rle_0_sqr (y + 1 / 2)) as Hy2.
    unfold Rsqr in Hx1, Hy1, Hx2, Hy2.
    split.
    - apply (Rmult_le_reg_r ((1 + x * x) * (1 + y * y))); [exact Hp|].
      replace ((x + y) / ((1 + x * x) * (1 + y * y)) * ((1 + x * x) * (1 + y * y)))
        with (x + y) by (field; nra).
      lra.
    - apply (Rmult_le_reg_r ((1 + x * x) * (1 + y * y))); [exact Hp|].
      replace ((x + y) / ((1 + x * x) * (1 + y * y)) * ((1 + x * x) * (1 + y * y)))
        with (x + y) by (field; nra).
      lra. }
  pose proof (Rabs_pos (x - y)). nra.
Qed.

(** The algebra of one pass of Bowring's formula from a point at height
    [h] over latitude [lat]: the tangent of the parametric latitude is
    off by the factor [1 + delta], and the error of the tangent of the
    latitude is of second order in [delta]. *)
Lemma bowring_algebra (a b e2 lat h : R) :
  0 < a -> 0 < b -> e2 = 1 - b / a * (b / a) -> - (PI / 2) < lat < PI / 2 ->
  let W := sqrt (1 - e2 * (sin lat)²) in
  let N := RprimeVertical a e2 lat in
  let p := (N + h) * cos lat in
  let z := (N * (1 - e2) + h) * sin lat in
  let theta := Ratan2 (z * a) (p * b) in
  let A := z + (a * a - b * b) / (b * b) * b * sin theta * sin theta * sin theta in
  let D := p - e2 * a * cos theta * cos theta * cos theta in
  let Cu := cos lat / W in
  let Su := b / a * sin lat / W in
  let delta := h * e2 / ((N + h) * (b / a * (b / a))) in
  0 < N + h ->
  (0 < W /\ W * W = 1 - e2 * (sin lat * sin lat) /\ N = a / W) /\
  (0 < Cu /\ Su * Su + Cu * Cu = 1) /\
  (0 < cos theta /\ sin theta * sin theta + cos theta * cos theta = 1) /\
  sin theta * Cu - cos theta * Su = delta * (cos theta * Su) /\
  cos theta * Cu + sin theta * Su = cos theta * (Cu + (1 + delta) * (Su * Su) / Cu) /\
  cos theta * cos theta * (Cu * Cu + (1 + delta) * (1 + delta) * (Su * Su)) = Cu * Cu /\
  p = (a + h * W) * Cu /\
  A * cos lat - D * sin lat =
    e2 * a * W / (b / a) *
    (Cu * (sin theta * sin theta * sin theta) + Su * (cos theta * cos theta * cos theta)
     - Su * Cu).
Proof.
  intros Ha Hb He Hlat W N p z theta A D Cu Su delta HNh.
  assert (Hc : 0 < cos lat) by (apply cos_gt_0; lra).
  set (c := cos lat) in *. set (s := sin lat) in *.
  assert (Hsc : s * s + c * c = 1).
  { pose proof (sin2_cos2 lat) as H. unfold Rsqr in H. exact H. }
  assert (Hq : 0 < b / a) by (by apply Rdiv_lt_0_compat).
  set (q := b / a) in *.
  assert (Hpos : 0 < 1 - e2 * s²).
  { unfold Rsqr. rewrite He. nra. }
  assert (HW0 : 0 < W) by (by apply sqrt_lt_R0).
  assert (HW : W * W = 1 - e2 * (s * s)).
  { unfold W. rewrite sqrt_def by lra. reflexivity. }
  assert (HN : N = a / W) by reflexivity.
  assert (Hp0 : 0 < p) by (unfold p; nra).
  assert (HCu0 : 0 < Cu) by (unfold Cu; by apply Rdiv_lt_0_compat).
  assert (Hu : Su * Su + Cu * Cu = 1).
  { unfold Su, Cu.
    replace (q * s / W * (q * s / W) + c / W * (c / W))
      with ((q * q * (s * s) + c * c) / (W * W)) by (field; lra).
    replace (q * q * (s * s) + c * c) with (W * W) by (rewrite HW, He; nra).
    field. lra. }
  (* the approximation of the parametric latitude *)
  set (T := z * a / (p * b)).
  assert (Htheta : theta = atan T).
  { unfold theta. by rewrite Ratan2_pos by nra. }
  destruct (sqrt_1_sqr_bounds T) as [HR1 _].
  assert (HRd : sqrt (1 + T * T) * sqrt (1 + T * T) = 1 + T * T) by (apply sqrt_def; nra).
  assert (Hcos : cos theta = 1 / sqrt (1 + T * T)).
  { rewrite Htheta, cos_atan. reflexivity. }
  assert (Hsin : sin theta = T * cos theta).
  { rewrite Hcos, Htheta, sin_atan. unfold Rsqr. field. lra. }
  assert (HCt0 : 0 < cos theta).
  { rewrite Hcos. apply Rdiv_lt_0_compat; lra. }
  assert (HCt2 : cos theta * cos theta * (1 + T * T) = 1).
  { rewrite Hcos. set (Rt := sqrt (1 + T * T)) in *.
    replace (1 + T * T) with (Rt * Rt) by lra. field. lra. }
  assert (Ht : sin theta * sin theta + cos theta * cos theta = 1).
  { rewrite Hsin. nra. }
  assert (HT : T * Cu = (1 + delta) * Su).
  { unfold T, Cu, Su, delta, z, p. rewrite HN, He. unfold q. field.
    repeat split; try lra.
    - rewrite HN in HNh. intros H0. 
      assert (a / W + h = (a + h * W) / W) by (field; lra).
      assert (0 < (a + h * W) / W) by lra. 
      assert (0 < a + h * W). 
      { apply (Rmult_lt_reg_r (/ W)); [by apply Rinv_0_lt_compat|]. 
        rewrite Rmult_0_l. exact H1. }
      lra. }
  split; [done|]. split; [done|]. split; [done|].
  split; [|split; [|split; [|split]]].
  - rewrite Hsin.
    replace (T * cos theta * Cu - cos theta * Su) with (cos theta * (T * Cu - Su)) by ring.
    rewrite HT. ring.
  - rewrite Hsin.
    replace (cos theta * Cu + T * cos theta * Su)
      with (cos theta * (Cu + T * Cu * Su / Cu)) by (field; lra).
    rewrite HT. field. lra.
  - replace (Cu * Cu + (1 + delta) * (1 + delta) * (Su * Su))
      with (Cu * Cu * (1 + T * T)).
    + replace (cos theta * cos theta * (Cu * Cu * (1 + T * T)))
        with (cos theta * cos theta * (1 + T * T) * (Cu * Cu)) by ring.
      rewrite HCt2. ring.
    + replace ((1 + delta) * (1 + delta) * (Su * Su))
        with ((1 + delta) * Su * ((1 + delta) * Su)) by ring.
      rewrite <- HT. ring.
  - unfold p, Cu. rewrite HN. field. lra.
  - unfold A, D, z, p, Cu, Su. rewrite HN, He. fold q. unfold q. field.
    repeat split; lra.
Qed.

End RealArithmetic.

Lemma roundTrip_run (w : World) (this : loc) (latitude longitude height : num) :
  is_Some (heap w !! this) →
  let rt := roundTrip this latitude longitude height in
  components (exec rt w) (eval rt w) =
    some3 (let '(X, Y, Z) := xyz_of w this latitude longitude height in
           llh_of w this X Y Z).
Proof.
  intros Hvalid rt. unfold rt, roundTrip. run.
  destruct (convertLatLongHeightToXYZ_omitted w this latitude longitude height)
    as (Hfresh & Hxyz & _ & _ & _ & Hframe).
  set (toXYZ := convertLatLongHeightToXYZ this latitude longitude height None) in *.
  set (v := eval toXYZ w) in *. set (w1 := exec toXYZ w) in *.
  assert (Hne : this ≠ v).
  { intros Heq. rewrite Heq, Hfresh in Hvalid. by destruct Hvalid. }
  assert (Hsame : ∀ k, stored w1 this k = stored w this k).
  { intros k. unfold stored. by rewrite Hframe. }
  destruct (xyz_of w this latitude longitude height) as [[X Y] Z].
  unfold components in Hxyz. cbn [some3] in Hxyz. injection Hxyz as -> -> ->.
  cbn [default from_option]. unfold Datatypes.id.
  destruct (convertXYZToLatLongHeight_omitted w1 this X Y Z) as (_ & Hllh & _).
  rewrite Hllh. unfold llh_of. by rewrite !Hsame.
Qed.

Lemma wgs84_one_minus_e2 :
  (1 - wgs84_e2 = 6356752.3142 / 6378137 * (6356752.3142 / 6378137))%R.
Proof. unfold wgs84_e2. lra. Qed.

Lemma sin_sqr_le_1 (x : R) : (0 <= (sin x)² <= 1)%R.
Proof.
  pose proof (sin2_cos2 x) as H. pose proof (Rle_0_sqr (sin x)).
  pose proof (Rle_0_sqr (cos x)). lra.
Qed.

(** With a coefficient in [0, 1) the radius of curvature is defined and
    at least the equatorial radius. *)
Lemma RprimeVertical_lower (a e2 lat : R) :
  (0 < a)%R → (0 <= e2 < 1)%R →
  (0 < 1 - e2 * (sin lat)²)%R ∧ (a <= RprimeVertical a e2 lat)%R.
Proof.
  intros Ha He. pose proof (sin_sqr_le_1 lat) as Hs.
  assert (Hpos : (0 < 1 - e2 * (sin lat)²)%R) by nra.
  split; [exact Hpos|]. unfold RprimeVertical.
  assert (Hle : (sqrt (1 - e2 * (sin lat)²) <= 1)%R).
  { rewrite <- sqrt_1 at 2. apply sqrt_le_1_alt. nra. }
  assert (Hgt : (0 < sqrt (1 - e2 * (sin lat)²))%R) by (by apply sqrt_lt_R0).
  apply (Rmult_le_reg_r (sqrt (1 - e2 * (sin lat)²))); [exact Hgt|].
  replace (a / sqrt (1 - e2 * (sin lat)²) * sqrt (1 - e2 * (sin lat)²))%R with a
    by (field; lra).
  nra.
Qed.

Lemma sqrt_polar (r lon : R) :
  (0 <= r)%R → sqrt (r * cos lon * (r * cos lon) + r * sin lon * (r * sin lon)) = r.
Proof.
  intros Hr. apply sqrt_lem_1; [nra | done |].
  pose proof (sin2_cos2 lon) as H. unfold Rsqr in H. nra.
Qed.

(** From a point of the ellipsoid the round trip is exact. *)
Lemma wgs84_surface (lat lon0 lon : R) (k : nat) :
  (- (PI / 2) < lat < PI / 2)%R → (- PI < lon0 <= PI)%R →
  (lon = lon0 + 2 * INR k * PI ∨ lon = lon0 - 2 * INR k * PI)%R →
  let '(X, Y, Z) :=
    geodeticToCartesian (Fin 6378137) (Fin wgs84_e2) (Fin lat) (Fin lon) (Fin 0) in
  cartesianToGeodetic (Fin 6378137) (Fin 6356752.3142) (Fin wgs84_e2) X Y Z =
    (Fin lat, Fin lon0, Fin 0).
Proof.
  intros Hlat Hlon0 Hlon.
  destruct (surface_latitude 6378137 6356752.3142 wgs84_e2 lat)
    as (Hpos & HN & HD & Hatan); [lra | lra | apply wgs84_one_minus_e2 | done |].
  rewrite geodeticToCartesian_Fin by exact Hpos. cbv zeta.
  set (N := RprimeVertical 6378137 wgs84_e2 lat) in *.
  assert (Hc : (0 < cos lat)%R) by (apply cos_gt_0; lra).
  assert (Hr : (0 < (N + 0) * cos lat)%R) by nra.
  rewrite cartesianToGeodetic_Fin.
  - rewrite sqrt_polar by lra. rewrite Hatan.
    rewrite (Ratan2_turns _ lon0 k) by done.
    fold N. repeat f_equal. field. lra.
  - lra.
  - rewrite sqrt_polar by lra. exact HD.
  - rewrite sqrt_polar by lra. rewrite Hatan. exact Hpos.
Qed.

Section BowringAccuracy.
Local Open Scope R_scope.

(** The radius of curvature as a function of the tangent of the
    latitude moves by at most [a e2 / (2 q^3)] times as much. *)
Lemma RprimeVertical_lipschitz (a e2 q x y : R) :
  0 < a -> 0 <= e2 -> 0 < q -> q * q = 1 - e2 ->
  Rabs (RprimeVertical a e2 (atan x) - RprimeVertical a e2 (atan y)) * (2 * (q * q * q))
    <= a * e2 * Rabs (x - y).
Proof.
  intros Ha He Hq Hqq. unfold RprimeVertical.
  pose proof (sin_sqr_le_1 (atan x)) as HSx. pose proof (sin_sqr_le_1 (atan y)) as HSy.
  pose proof (sin_sqr_atan_lipschitz x y) as HS.
  set (Sx := (sin (atan x))²) in *. set (Sy := (sin (atan y))²) in *.
  assert (Hposx : q * q <= 1 - e2 * Sx) by nra.
  assert (Hposy : q * q <= 1 - e2 * Sy) by nra.
  assert (Hq2 : 0 < q * q) by nra.
  assert (HWx : sqrt (1 - e2 * Sx) * sqrt (1 - e2 * Sx) = 1 - e2 * Sx)
    by (apply sqrt_def; lra).
  assert (HWy : sqrt (1 - e2 * Sy) * sqrt (1 - e2 * Sy) = 1 - e2 * Sy)
    by (apply sqrt_def; lra).
  assert (HWx0 : q <= sqrt (1 - e2 * Sx)).
  { rewrite <- (sqrt_square q) by lra. apply sqrt_le_1_alt. lra. }
  assert (HWy0 : q <= sqrt (1 - e2 * Sy)).
  { rewrite <- (sqrt_square q) by lra. apply sqrt_le_1_alt. lra. }
  set (Wx := sqrt (1 - e2 * Sx)) in *. set (Wy := sqrt (1 - e2 * Sy)) in *.
  assert (Hdiff : (a / Wx - a / Wy) * (Wx * Wy * (Wx + Wy)) = a * e2 * (Sx - Sy)).
  { replace ((a / Wx - a / Wy) * (Wx * Wy * (Wx + Wy)))
      with (a * (Wy * Wy - Wx * Wx)) by (field; lra).
    rewrite HWx, HWy. ring. }
  assert (Habs : Rabs (a / Wx - a / Wy) * (Wx * Wy * (Wx + Wy)) = a * e2 * Rabs (Sx - Sy)).
  { assert (Hp : 0 <= Wx * Wy * (Wx + Wy)).
    { apply Rmult_le_pos; [apply Rmult_le_pos|]; lra. }
    rewrite <- (Rabs_right (Wx * Wy * (Wx + Wy))) at 1 by lra.
    rewrite <- Rabs_mult, Hdiff, !Rabs_mult.
    rewrite (Rabs_right a), (Rabs_right e2) by lra. reflexivity. }
  pose proof (Rabs_pos (a / Wx - a / Wy)) as H0.
  assert (Hlow : 2 * (q * q * q) <= Wx * Wy * (Wx + Wy)).
  { assert (q * q <= Wx * Wy) by (apply Rmult_le_compat; lra).
    assert (2 * q <= Wx + Wy) by lra.
    replace (2 * (q * q * q)) with (q * q * (2 * q)) by ring.
    apply Rmult_le_compat; nra. }
  assert (H1 : Rabs (a / Wx - a / Wy) * (2 * (q * q * q)) <=
               Rabs (a / Wx - a / Wy) * (Wx * Wy * (Wx + Wy)))
    by (apply Rmult_le_compat_l; lra).
  assert (H2 : a * e2 * Rabs (Sx - Sy) <= a * e2 * Rabs (x - y)).
  { apply Rmult_le_compat_l; [|exact HS]. apply Rmult_le_pos; lra. }
  lra.
Qed.

Lemma inv_cos_atan (x : R) : / cos (atan x) = sqrt (1 + x * x).
Proof.
  rewrite cos_atan. unfold Rsqr. destruct (sqrt_1_sqr_bounds x) as [H1 _].
  field. lra.
Qed.

(** For the WGS-84 radii and heights between -1000 m and 100 km, one
    pass of Bowring's formula gives the tangent of the latitude within
    1.158e-10, times the cosine of the parametric latitude. *)
Lemma wgs84_bowring_error (lat h : R) :
  - (PI / 2) < lat < PI / 2 -> -1000 <= h <= 100000 ->
  let N := RprimeVertical 6378137 wgs84_e2 lat in
  let p := (N + h) * cos lat in
  let z := (N * (1 - wgs84_e2) + h) * sin lat in
  let theta := Ratan2 (z * 6378137) (p * 6356752.3142) in
  let A := z + (6378137 * 6378137 - 6356752.3142 * 6356752.3142) /
               (6356752.3142 * 6356752.3142) * 6356752.3142 *
               sin theta * sin theta * sin theta in
  let D := p - wgs84_e2 * 6378137 * cos theta * cos theta * cos theta in
  0 < 1 - wgs84_e2 * (sin lat)² /\ 0 < N + h /\ 0 < p /\ 0 < D /\
  Rabs (A / D - tan lat) <= 1158 / 10000000000000 /\
  p * Rabs (A / D - tan lat) <= 76 / 100000.
Proof.
  intros Hlat Hh N p z theta A D.
  pose proof wgs84_e2_bounds as He2.
  assert (He : wgs84_e2 = 1 - 6356752.3142 / 6378137 * (6356752.3142 / 6378137)).
  { pose proof wgs84_one_minus_e2. lra. }
  destruct (RprimeVertical_lower 6378137 wgs84_e2 lat) as [Hpos HNa]; [lra | lra |].
  fold N in HNa.
  assert (HNh : 0 < N + h) by lra.
  destruct (bowring_algebra 6378137 6356752.3142 wgs84_e2 lat h)
    as ((HW0 & HW & HN) & (HCu0 & Hu) & (HCt0 & Ht) & Hy & Hx & HCt & Hp & HE);
    [lra | lra | exact He | exact Hlat | exact HNh |].
  fold N p z theta A D in Hy, Hx, HCt, Hp, HE, HN, HCt0, Ht.
  set (W := sqrt (1 - wgs84_e2 * (sin lat)²)) in *.
  set (Cu := cos lat / W) in *.
  set (Su := 6356752.3142 / 6378137 * sin lat / W) in *.
  set (delta := h * wgs84_e2 / ((N + h) * (6356752.3142 / 6378137 * (6356752.3142 / 6378137)))) in *.
  set (St := sin theta) in *. set (Ct := cos theta) in *.
  assert (Hc : 0 < cos lat) by (apply cos_gt_0; lra).
  (* numeric facts on the ellipsoid *)
  assert (He2n : 66943 / 10000000 <= wgs84_e2 <= 66944 / 10000000).
  { unfold wgs84_e2. lra. }
  assert (Hqq : 6356752.3142 / 6378137 * (6356752.3142 / 6378137) = 1 - wgs84_e2) by lra.
  assert (HW1 : W <= 1).
  { pose proof (sin_sqr_le_1 lat) as Hs. unfold Rsqr in Hs.
    clear - HW0 HW Hs He2. nra. }
  assert (HCu1 : Cu <= 1) by (clear - HCu0 Hu; nra).
  assert (HSu1 : Su * Su <= 1) by (clear - Hu; nra).
  assert (HCt1 : Ct <= 1) by (clear - HCt0 Ht; nra).
  assert (HCC1 : Cu * Cu <= 1).
  { assert (Cu * Cu <= 1 * Cu) by (apply Rmult_le_compat_r; lra). lra. }
  assert (HaSu : Rabs Su <= 1) by (apply Rabs_le; clear - HSu1; nra).
  assert (HhW : -1000 <= h * W <= 100000).
  { destruct (Rle_or_lt 0 h) as [Hh0|Hh0].
    - assert (0 <= h * W) by (apply Rmult_le_pos; lra).
      assert (h * W <= h * 1) by (apply Rmult_le_compat_l; lra). lra.
    - assert (h * 1 <= h * W) by (apply Rmult_le_compat_neg_l; lra).
      assert (h * W <= 0 * W) by (apply Rmult_le_compat_r; lra). lra. }
  (* the relative error of the tangent of the parametric latitude *)
  assert (Hdelta : - (106 / 100000000) <= delta <= 10405 / 100000000).
  { set (M := (N + h) * (6356752.3142 / 6378137 * (6356752.3142 / 6378137))).
    assert (HM : delta * M = h * wgs84_e2).
    { unfold delta. fold M. field. unfold M. rewrite Hqq.
      apply Rgt_not_eq, Rmult_lt_0_compat; lra. }
    assert (HM0 : 6377137 * (1 - wgs84_e2) <= M).
    { unfold M. rewrite Hqq. apply Rmult_le_compat_r; lra. }
    assert (HMh : (6378137 + h) * (1 - wgs84_e2) <= M).
    { unfold M. rewrite Hqq. apply Rmult_le_compat_r; lra. }
    assert (HMpos : 0 < M) by lra.
    split.
    - apply Rnot_lt_le. intros Hlt.
      assert (delta * M < - (106 / 100000000) * M) by (apply Rmult_lt_compat_r; lra).
      assert (-1000 * wgs84_e2 <= h * wgs84_e2) by (apply Rmult_le_compat_r; lra).
      lra.
    - apply Rnot_lt_le. intros Hlt.
      assert (10405 / 100000000 * M < delta * M) by (apply Rmult_lt_compat_r; lra).
      destruct (Rle_or_lt 0 h) as [Hh0|Hh0].
      + assert (h * wgs84_e2 <= h * (66944 / 10000000))
          by (apply Rmult_le_compat_l; lra).
        lra.
      + assert (h * wgs84_e2 <= 0 * wgs84_e2) by (apply Rmult_le_compat_r; lra).
        lra. }
  (* cos theta is at most a little more than cos u *)
  assert (HCt2 : Ct * Ct <= 1000003 / 1000000 * (Cu * Cu)).
  { assert (H1 : 1 - 2 * (106 / 100000000) <= (1 + delta) * (1 + delta))
      by (clear - Hdelta; nra).
    assert (HSS : 0 <= Su * Su) by (clear; nra).
    assert (HCC : 0 <= Cu * Cu) by (clear; nra).
    assert (H2 : (1 - 2 * (106 / 100000000)) * 1 <=
                 Cu * Cu + (1 + delta) * (1 + delta) * (Su * Su)).
    { rewrite <- Hu at 1.
      assert ((1 - 2 * (106 / 100000000)) * (Su * Su) <=
              (1 + delta) * (1 + delta) * (Su * Su))
        by (apply Rmult_le_compat_r; lra).
      lra. }
    assert (H3 : 0 <= Ct * Ct) by (clear; nra).
    assert (H4 : Ct * Ct * ((1 - 2 * (106 / 100000000)) * 1) <=
                 Ct * Ct * (Cu * Cu + (1 + delta) * (1 + delta) * (Su * Su)))
      by (apply Rmult_le_compat_l; lra).
    rewrite HCt in H4. lra. }
  assert (HCtCu : Ct <= 1000002 / 1000000 * Cu).
  { apply Rnot_lt_le. intros Hlt.
    assert (1000002 / 1000000 * Cu * (1000002 / 1000000 * Cu) < Ct * Ct)
      by (clear - Hlt HCu0; nra).
    clear - H HCt2 HCu0. nra. }
  (* sine and cosine of theta - u *)
  set (x := Ct * Cu + St * Su) in *. set (y := St * Cu - Ct * Su) in *.
  assert (Hx0 : 0 <= x).
  { rewrite Hx. apply Rmult_le_pos; [lra|].
    assert (0 <= (1 + delta) * (Su * Su) / Cu).
    { apply Rmult_le_pos; [|apply Rlt_le; by apply Rinv_0_lt_compat].
      apply Rmult_le_pos; [lra|]. clear. nra. }
    lra. }
  assert (Hd2 : delta * delta <= 10405 / 100000000 * (10405 / 100000000))
    by (clear - Hdelta; nra).
  assert (Hyy : y * y <= 10405 / 100000000 * (10405 / 100000000) * (1000003 / 1000000)
                         * (Cu * Cu)).
  { rewrite Hy.
    replace (delta * (Ct * Su) * (delta * (Ct * Su)))
      with (delta * delta * (Ct * Ct) * (Su * Su)) by ring.
    assert (Hdd : 0 <= delta * delta) by (clear; nra).
    assert (Htt : 0 <= Ct * Ct) by (clear; nra).
    assert (Huu : 0 <= Cu * Cu) by (clear; nra).
    assert (Ha : delta * delta * (Ct * Ct) * (Su * Su) <= delta * delta * (Ct * Ct) * 1).
    { apply Rmult_le_compat_l; [|lra]. apply Rmult_le_pos; lra. }
    assert (Hb : delta * delta * (Ct * Ct) <=
                 delta * delta * (1000003 / 1000000 * (Cu * Cu)))
      by (apply Rmult_le_compat_l; lra).
    assert (Hc' : delta * delta * (1000003 / 1000000 * (Cu * Cu)) <=
                  10405 / 100000000 * (10405 / 100000000) * (1000003 / 1000000 * (Cu * Cu)))
      by (apply Rmult_le_compat_r; lra).
    lra. }
  assert (Hyabs : Rabs y <= 10405 / 100000000 * (1000002 / 1000000) * Cu).
  { rewrite Hy. rewrite !Rabs_mult. rewrite (Rabs_right Ct) by lra.
    assert (Rabs delta <= 10405 / 100000000) by (apply Rabs_le; lra).
    pose proof (Rabs_pos delta). pose proof (Rabs_pos Su).
    set (ad := Rabs delta) in *. set (asu := Rabs Su) in *.
    assert (Ct * asu <= Ct * 1) by (apply Rmult_le_compat_l; lra).
    assert (ad * (Ct * asu) <= ad * Ct) by (apply Rmult_le_compat_l; lra).
    assert (ad * Ct <= 10405 / 100000000 * Ct) by (apply Rmult_le_compat_r; lra).
    lra. }
  (* the second-order term *)
  set (g := Cu * (St * St * St) + Su * (Ct * Ct * Ct) - Su * Cu) in *.
  assert (Hg : Rabs g <= 17107 / 1000000000000 * (Cu * Cu * Cu)).
  { pose proof (bowring_second_order Su Cu St Ct Hu Ht (Rlt_le _ _ HCu0)) as Hb.
    cbv zeta in Hb. fold x y g in Hb.
    assert (Hy100 : y * y <= 1 / 100) by lra.
    specialize (Hb Hx0 Hy100).
    pose proof (Rabs_pos Su) as HaSu0. pose proof (Rabs_pos y) as Hay0.
    set (asu := Rabs Su) in *. set (ay := Rabs y) in *.
    assert (Hsum : 158 / 100 * (asu * Cu) + ay <=
                   (158 / 100 + 10405 / 100000000 * (1000002 / 1000000)) * Cu).
    { assert (asu * Cu <= 1 * Cu) by (apply Rmult_le_compat_r; lra). lra. }
    assert (H0 : 0 <= y * y) by (clear; nra).
    assert (Hsum0 : 0 <= 158 / 100 * (asu * Cu) + ay).
    { assert (0 <= asu * Cu) by (apply Rmult_le_pos; lra). lra. }
    assert (H1 : y * y * (158 / 100 * (asu * Cu) + ay) <=
                 10405 / 100000000 * (10405 / 100000000) * (1000003 / 1000000) * (Cu * Cu)
                 * ((158 / 100 + 10405 / 100000000 * (1000002 / 1000000)) * Cu)).
    { apply Rmult_le_compat; lra. }
    assert (HCu3 : 0 <= Cu * Cu * Cu) by (repeat apply Rmult_le_pos; lra).
    lra. }
  (* the divisor *)
  assert (Hp0 : 0 < p) by (unfold p; by apply Rmult_lt_0_compat).
  assert (HD : 6334439 * Cu <= D).
  { unfold D. fold Ct. rewrite Hp.
    assert (H1 : Ct * Ct * Ct <= 1000003 / 1000000 * Cu).
    { assert (Ct * Ct * Ct <= Ct * Ct * 1).
      { apply Rmult_le_compat_l; [|lra]. clear. nra. }
      assert (Cu * Cu <= 1 * Cu) by (apply Rmult_le_compat_r; lra).
      lra. }
    assert (H2 : wgs84_e2 * 6378137 * Ct * Ct * Ct <= 42698 * Cu).
    { replace (wgs84_e2 * 6378137 * Ct * Ct * Ct)
        with (wgs84_e2 * 6378137 * (Ct * Ct * Ct)) by ring.
      assert (0 <= Ct * Ct * Ct) by (repeat apply Rmult_le_pos; lra).
      assert (wgs84_e2 * 6378137 <= 426977 / 10) by (unfold wgs84_e2; lra).
      assert (wgs84_e2 * 6378137 * (Ct * Ct * Ct) <= 426977 / 10 * (Ct * Ct * Ct))
        by (apply Rmult_le_compat_r; lra).
      lra. }
    assert (H3 : 6377137 * Cu <= (6378137 + h * W) * Cu)
      by (apply Rmult_le_compat_r; lra).
    lra. }
  assert (HD0 : 0 < D) by lra.
  (* the error of the tangent *)
  set (err := A / D - tan lat).
  assert (Herr : Rabs err * (D * Cu) =
                 wgs84_e2 * 6378137 / (6356752.3142 / 6378137) * Rabs g).
  { assert (H1 : err * (D * cos lat) = A * cos lat - D * sin lat).
    { unfold err, tan. field. split; lra. }
    rewrite HE in H1. fold St Ct g in H1.
    assert (H2 : Rabs err * (D * cos lat) =
                 wgs84_e2 * 6378137 * W / (6356752.3142 / 6378137) * Rabs g).
    { rewrite <- (Rabs_right (D * cos lat))
        by (apply Rle_ge, Rlt_le, Rmult_lt_0_compat; lra).
      rewrite <- Rabs_mult, H1, Rabs_mult.
      rewrite (Rabs_right (wgs84_e2 * 6378137 * W / (6356752.3142 / 6378137))); [done|].
      apply Rle_ge. apply Rmult_le_pos; [|lra]. apply Rmult_le_pos; lra. }
    assert (Hcw : cos lat = Cu * W) by (unfold Cu; field; lra).
    rewrite Hcw in H2.
    apply (Rmult_eq_reg_r W); [|lra].
    replace (Rabs err * (D * Cu) * W) with (Rabs err * (D * (Cu * W))) by ring.
    rewrite H2. field. lra. }
  assert (Hbound : Rabs err <= 1158 / 10000000000000 * Cu).
  { pose proof (Rabs_pos err) as He0. pose proof (Rabs_pos g) as Hg0.
    set (ae := Rabs err) in *. set (ag := Rabs g) in *.
    assert (Hk : wgs84_e2 * 6378137 / (6356752.3142 / 6378137) <= 42842) by lra.
    assert (Hk0 : 0 <= wgs84_e2 * 6378137 / (6356752.3142 / 6378137)) by lra.
    assert (H1 : ae * (D * Cu) <= 42842 * (17107 / 1000000000000 * (Cu * Cu * Cu))).
    { rewrite Herr. apply Rmult_le_compat; lra. }
    assert (H2 : ae * (6334439 * Cu * Cu) <= ae * (D * Cu)).
    { apply Rmult_le_compat_l; [lra|]. apply Rmult_le_compat_r; lra. }
    assert (HCC : 0 < Cu * Cu) by (by apply Rmult_lt_0_compat).
    assert (HCCC : 0 <= Cu * Cu * Cu) by (apply Rmult_le_pos; lra).
    apply (Rmult_le_reg_r (6334439 * (Cu * Cu))); [lra|].
    replace (ae * (6334439 * (Cu * Cu))) with (ae * (6334439 * Cu * Cu)) by ring.
    replace (1158 / 10000000000000 * Cu * (6334439 * (Cu * Cu)))
      with (1158 / 10000000000000 * 6334439 * (Cu * Cu * Cu)) by ring.
    replace (42842 * (17107 / 1000000000000 * (Cu * Cu * Cu)))
      with (42842 * (17107 / 1000000000000) * (Cu * Cu * Cu)) in H1 by ring.
    set (CCC := Cu * Cu * Cu) in *. lra. }
  split; [exact Hpos|]. split; [exact HNh|]. split; [exact Hp0|]. split; [exact HD0|].
  fold err. pose proof (Rabs_pos err) as He0.
  split.
  - assert (1158 / 10000000000000 * Cu <= 1158 / 10000000000000 * 1)
      by (apply Rmult_le_compat_l; lra).
    lra.
  - rewrite Hp.
    assert (H1 : (6378137 + h * W) * Cu <= 6478137 * Cu)
      by (apply Rmult_le_compat_r; lra).
    assert (H2 : 0 <= (6378137 + h * W) * Cu) by (apply Rmult_le_pos; lra).
    assert (H3 : (6378137 + h * W) * Cu * Rabs err <=
                 6478137 * Cu * (1158 / 10000000000000 * Cu)).
    { apply Rmult_le_compat; lra. }
    replace (6478137 * Cu * (1158 / 10000000000000 * Cu))
      with (6478137 * (1158 / 10000000000000) * (Cu * Cu)) in H3 by ring.
    set (CC := Cu * Cu) in *. lra.
Qed.

(** The round trip on real numbers, for the WGS-84 radii. *)
Lemma wgs84_round_trip_accuracy (lat lon0 lon h : R) (k : nat) :
  - (PI / 2) < lat < PI / 2 -> -1000 <= h <= 100000 ->
  - PI < lon0 <= PI ->
  lon = lon0 + 2 * INR k * PI \/ lon = lon0 - 2 * INR k * PI ->
  let '(X, Y, Z) :=
    geodeticToCartesian (Fin 6378137) (Fin wgs84_e2) (Fin lat) (Fin lon) (Fin h) in
  exists lat' h' : R,
    cartesianToGeodetic (Fin 6378137) (Fin 6356752.3142) (Fin wgs84_e2) X Y Z =
      (Fin lat', Fin lon0, Fin h') /\
    Rabs (lat' - lat) <= 1 / 1000000000 /\
    Rabs (h' - h) <= 1 / 1000.
Proof.
  intros Hlat Hh Hlon0 Hlon.
  destruct (wgs84_bowring_error lat h Hlat Hh) as (Hpos & HNh & Hp0 & HD0 & Herr & Hperr).
  pose proof wgs84_e2_bounds as He2.
  rewrite geodeticToCartesian_Fin by exact Hpos. cbv zeta.
  set (N := RprimeVertical 6378137 wgs84_e2 lat) in *.
  set (p := (N + h) * cos lat) in *.
  assert (Hc : 0 < cos lat) by (apply cos_gt_0; lra).
  assert (Hsqrt : sqrt (p * cos lon * (p * cos lon) + p * sin lon * (p * sin lon)) = p).
  { apply sqrt_polar. lra. }
  set (z := (N * (1 - wgs84_e2) + h) * sin lat) in *.
  set (theta := Ratan2 (z * 6378137) (p * 6356752.3142)) in *.
  set (A := z + (6378137 * 6378137 - 6356752.3142 * 6356752.3142) /
                (6356752.3142 * 6356752.3142) * 6356752.3142 *
                sin theta * sin theta * sin theta) in *.
  set (D := p - wgs84_e2 * 6378137 * cos theta * cos theta * cos theta) in *.
  set (t' := A / D) in *. set (t := tan lat) in *.
  assert (Hlat_t : lat = atan t) by (unfold t; by rewrite atan_tan).
  destruct (RprimeVertical_lower 6378137 wgs84_e2 (atan t')) as [Hpos' _]; [lra | lra |].
  exists (atan t'), (p / cos (atan t') - RprimeVertical 6378137 wgs84_e2 (atan t')).
  split; [|split].
  - rewrite cartesianToGeodetic_Fin.
    + rewrite Hsqrt. fold theta A D t'.
      rewrite (Ratan2_turns p lon0 k lon) by done. reflexivity.
    + lra.
    + rewrite Hsqrt. fold theta D. lra.
    + rewrite Hsqrt. fold theta A D t'. exact Hpos'.
  - rewrite Hlat_t at 1.
    eapply Rle_trans; [apply atan_lipschitz|]. lra.
  - (* the height *)
    assert (HNh' : N + h = p * sqrt (1 + t * t)).
    { rewrite <- inv_cos_atan, <- Hlat_t. unfold p. field. lra. }
    replace (p / cos (atan t')) with (p * sqrt (1 + t' * t'))
      by (rewrite <- inv_cos_atan; reflexivity).
    replace (p * sqrt (1 + t' * t') - RprimeVertical 6378137 wgs84_e2 (atan t') - h)
      with (p * (sqrt (1 + t' * t') - sqrt (1 + t * t)) -
            (RprimeVertical 6378137 wgs84_e2 (atan t') - N)) by lra.
    eapply Rle_trans; [apply Rabs_triang|]. rewrite Rabs_Ropp, Rabs_mult.
    rewrite (Rabs_right p) by lra.
    pose proof (secant_lipschitz t' t) as Hsec.
    assert (H1 : p * Rabs (sqrt (1 + t' * t') - sqrt (1 + t * t)) <= 76 / 100000).
    { eapply Rle_trans; [|exact Hperr]. apply Rmult_le_compat_l; lra. }
    pose proof (RprimeVertical_lipschitz 6378137 wgs84_e2 (6356752.3142 / 6378137) t' t)
      as HN.
    unfold N at 1. rewrite Hlat_t at 1.
    assert (HN' : Rabs (RprimeVertical 6378137 wgs84_e2 (atan t') -
                        RprimeVertical 6378137 wgs84_e2 (atan t)) <= 1 / 100000).
    { pose proof wgs84_one_minus_e2 as Hq.
      specialize (HN ltac:(lra) ltac:(lra) ltac:(lra) ltac:(lra)).
      set (dN := Rabs (RprimeVertical 6378137 wgs84_e2 (atan t') -
                       RprimeVertical 6378137 wgs84_e2 (atan t))) in *.
      assert (Hq3 : 19 / 10 <= 2 * (6356752.3142 / 6378137 * (6356752.3142 / 6378137)
                                    * (6356752.3142 / 6378137))) by lra.
      pose proof (Rabs_pos (t' - t)) as Ht0.
      assert (Hu : 6378137 * wgs84_e2 * Rabs (t' - t) <=
                   6378137 * (66944 / 10000000) * (1158 / 10000000000000)).
      { apply Rmult_le_compat; [| lra | | lra].
        - apply Rmult_le_pos; lra.
        - apply Rmult_le_compat_l; lra. }
      assert (Hd0 : 0 <= dN) by apply Rabs_pos.
      assert (dN * (19 / 10) <= dN * (2 * (6356752.3142 / 6378137 * (6356752.3142 / 6378137)
                                    * (6356752.3142 / 6378137))))
        by (apply Rmult_le_compat_l; lra).
      lra. }
    lra.
Qed.

(** At the latitude whose tangent is a/b and at 100 km the one-pass
    tangent is too large by at least 2.2e-11. *)
Lemma wgs84_bowring_error_lower :
  let T := 6378137 / 6356752.3142 in
  let lat := atan T in
  let h := 100000 in
  let N := RprimeVertical 6378137 wgs84_e2 lat in
  let p := (N + h) * cos lat in
  let z := (N * (1 - wgs84_e2) + h) * sin lat in
  let theta := Ratan2 (z * 6378137) (p * 6356752.3142) in
  let A := z + (6378137 * 6378137 - 6356752.3142 * 6356752.3142) /
               (6356752.3142 * 6356752.3142) * 6356752.3142 *
               sin theta * sin theta * sin theta in
  let D := p - wgs84_e2 * 6378137 * cos theta * cos theta * cos theta in
  4500000 <= p /\ 22 / 1000000000000 <= A / D - T.
Proof.
  intros T lat h N p z theta A D.
  assert (Hlat : - (PI / 2) < lat < PI / 2).
  { pose proof (atan_bound T). unfold lat. lra. }
  assert (Hh : -1000 <= h <= 100000) by (unfold h; lra).
  destruct (wgs84_bowring_error lat h Hlat Hh) as (Hpos & HNh & Hp0 & HD0 & _ & _).
  fold N p z theta A D in HNh, Hp0, HD0.
  pose proof wgs84_e2_bounds as He2.
  assert (He : wgs84_e2 = 1 - 6356752.3142 / 6378137 * (6356752.3142 / 6378137)).
  { pose proof wgs84_one_minus_e2. lra. }
  destruct (RprimeVertical_lower 6378137 wgs84_e2 lat) as [_ HNa]; [lra | lra |].
  fold N in HNa.
  destruct (bowring_algebra 6378137 6356752.3142 wgs84_e2 lat h)
    as ((HW0 & HW & HN) & (HCu0 & Hu) & (HCt0 & Ht) & Hy & Hx & HCt & Hp & HE);
    [lra | lra | exact He | exact Hlat | exact HNh |].
  fold N p z theta A D in Hy, Hx, HCt, Hp, HE, HN, HCt0, Ht.
  set (W := sqrt (1 - wgs84_e2 * (sin lat)²)) in *.
  set (Cu := cos lat / W) in *.
  set (Su := 6356752.3142 / 6378137 * sin lat / W) in *.
  set (delta := h * wgs84_e2 / ((N + h) * (6356752.3142 / 6378137 * (6356752.3142 / 6378137)))) in *.
  set (St := sin theta) in *. set (Ct := cos theta) in *.
  assert (Hc : 0 < cos lat) by (apply cos_gt_0; lra).
  assert (He2n : 66943 / 10000000 <= wgs84_e2 <= 66944 / 10000000).
  { unfold wgs84_e2. lra. }
  assert (Hqq : 6356752.3142 / 6378137 * (6356752.3142 / 6378137) = 1 - wgs84_e2) by lra.
  (* the parametric latitude is 45 degrees *)
  assert (Hsin : sin lat = T * cos lat).
  { assert (Htan : tan lat = T) by apply tan_atan.
    unfold tan in Htan. rewrite <- Htan. field. lra. }
  assert (HSC : Su = Cu).
  { unfold Su, Cu. rewrite Hsin. unfold T. field. lra. }
  rewrite HSC in *. clear HSC.
  assert (HCC : Cu * Cu = 1 / 2) by lra.
  assert (HCu7 : 7 / 10 <= Cu) by (clear - HCu0 HCC; nra).
  (* bounds on W and N *)
  assert (HWW : 9933 / 10000 <= W * W <= 1).
  { pose proof (sin_sqr_le_1 lat) as Hs. unfold Rsqr in Hs. rewrite HW.
    assert (0 <= wgs84_e2 * (sin lat * sin lat)) by (apply Rmult_le_pos; lra).
    assert (wgs84_e2 * (sin lat * sin lat) <= wgs84_e2 * 1)
      by (apply Rmult_le_compat_l; lra).
    lra. }
  assert (HW1 : 99 / 100 <= W <= 1) by (clear - HW0 HWW; nra).
  assert (HWq : 6356752.3142 / 6378137 <= W).
  { pose proof (sin_sqr_le_1 lat) as Hs. unfold Rsqr in Hs.
    assert (wgs84_e2 * (sin lat * sin lat) <= wgs84_e2 * 1)
      by (apply Rmult_le_compat_l; lra).
    assert (Hq2 : 6356752.3142 / 6378137 * (6356752.3142 / 6378137) <= W * W) by lra.
    assert (Hq0 : 0 < 6356752.3142 / 6378137) by lra.
    set (q := 6356752.3142 / 6378137) in *. clear - Hq2 Hq0 HW0. nra. }
  assert (HNW : N * W = 6378137) by (rewrite HN; field; lra).
  assert (HN64 : N <= 6400000).
  { assert (N * (6356752.3142 / 6378137) <= N * W) by (apply Rmult_le_compat_l; lra).
    lra. }
  (* the relative error of the tangent of the parametric latitude *)
  assert (Hdelta : 1 / 10000 <= delta <= 1 / 1000).
  { set (M := (N + h) * (6356752.3142 / 6378137 * (6356752.3142 / 6378137))).
    assert (HM : delta * M = h * wgs84_e2).
    { unfold delta. fold M. field. unfold M. rewrite Hqq.
      apply Rgt_not_eq, Rmult_lt_0_compat; lra. }
    assert (HM0 : 6378137 * (1 - wgs84_e2) <= M).
    { unfold M. rewrite Hqq. apply Rmult_le_compat_r; unfold h; lra. }
    assert (HM1 : M <= 6500000 * (1 - wgs84_e2)).
    { unfold M. rewrite Hqq. apply Rmult_le_compat_r; unfold h; lra. }
    assert (HMpos : 0 < M) by lra.
    unfold h in HM.
    split.
    - apply Rnot_lt_le. intros Hlt.
      assert (delta * M < 1 / 10000 * M) by (apply Rmult_lt_compat_r; lra).
      lra.
    - apply Rnot_lt_le. intros Hlt.
      assert (1 / 1000 * M < delta * M) by (apply Rmult_lt_compat_r; lra).
      lra. }
  (* cos theta *)
  assert (Htt0 : 0 <= Ct * Ct) by (clear; nra).
  assert (Htt1 : Ct * Ct <= 1) by (clear - Ht; nra).
  assert (Htt : 499 / 1000 <= Ct * Ct).
  { assert (Hd : (1 + delta) * (1 + delta) <= 1003 / 1000) by (clear - Hdelta; nra).
    rewrite HCC in HCt.
    assert (Ct * Ct * (1 / 2 + (1 + delta) * (1 + delta) * (1 / 2)) <=
            Ct * Ct * (1 / 2 + 1003 / 1000 * (1 / 2)))
      by (apply Rmult_le_compat_l; lra).
    lra. }
  (* sine and cosine of theta - u *)
  set (x := Ct * Cu + St * Cu) in *. set (y := St * Cu - Ct * Cu) in *.
  destruct (bowring_identity Cu Cu St Ct Hu Ht) as [Hxy Hg].
  fold x y in Hxy, Hg.
  set (g := Cu * (St * St * St) + Cu * (Ct * Ct * Ct) - Cu * Cu) in *.
  assert (Hyy : 2495 / 1000000000000 <= y * y <= 1 / 1000000).
  { rewrite Hy.
    replace (delta * (Ct * Cu) * (delta * (Ct * Cu)))
      with (delta * delta * (Ct * Ct) * (Cu * Cu)) by ring.
    rewrite HCC.
    assert (Hdd : 1 / 100000000 <= delta * delta <= 1 / 1000000) by (clear - Hdelta; nra).
    assert (1 / 100000000 * (499 / 1000) <= delta * delta * (Ct * Ct))
      by (apply Rmult_le_compat; lra).
    assert (delta * delta * (Ct * Ct) <= 1 / 1000000 * 1)
      by (apply Rmult_le_compat; lra).
    lra. }
  assert (Hx0 : 0 <= x).
  { rewrite Hx. apply Rmult_le_pos; [lra|].
    assert (0 <= (1 + delta) * (Cu * Cu) / Cu).
    { apply Rmult_le_pos; [|apply Rlt_le; by apply Rinv_0_lt_compat].
      apply Rmult_le_pos; lra. }
    lra. }
  assert (Hx1 : 99 / 100 <= x <= 1) by (clear - Hx0 Hxy Hyy; nra).
  assert (H1x : y * y <= (1 - x) * 2).
  { replace (y * y) with ((1 - x) * (1 + x)) by lra.
    apply Rmult_le_compat_l; lra. }
  assert (Hpoly : 29 / 10 <= 2 * (x * x) + 2 * x - 1) by (clear - Hx1; nra).
  assert (Hglow : 18 / 10000000000 <= g).
  { rewrite Hg. rewrite HCC.
    assert ((1 - x) * (29 / 10) <= (1 - x) * (2 * (x * x) + 2 * x - 1))
      by (apply Rmult_le_compat_l; lra).
    lra. }
  (* the error of the tangent *)
  assert (Hpb : 4500000 <= p).
  { rewrite Hp.
    assert (h * (99 / 100) <= h * W) by (apply Rmult_le_compat_l; unfold h; lra).
    assert ((6378137 + h * (99 / 100)) * (7 / 10) <= (6378137 + h * W) * Cu)
      by (apply Rmult_le_compat; unfold h in *; lra).
    unfold h in *. lra. }
  split; [exact Hpb|].
  set (err := A / D - T).
  assert (H1 : err * (D * cos lat) = A * cos lat - D * sin lat).
  { unfold err. rewrite Hsin. field. lra. }
  rewrite HE in H1. fold St Ct g in H1.
  assert (HK : 42697 <= wgs84_e2 * 6378137 * W / (6356752.3142 / 6378137)).
  { replace (wgs84_e2 * 6378137 * W / (6356752.3142 / 6378137))
      with (wgs84_e2 * 6378137 * (W * / (6356752.3142 / 6378137))) by (field; lra).
    assert (H6 : 42697 <= wgs84_e2 * 6378137) by (unfold wgs84_e2; lra).
    assert (H7 : 1 <= W * / (6356752.3142 / 6378137)).
    { rewrite <- (Rinv_r (6356752.3142 / 6378137)) by lra.
      apply Rmult_le_compat_r; [|exact HWq].
      apply Rlt_le, Rinv_0_lt_compat. lra. }
    assert (42697 * 1 <= wgs84_e2 * 6378137 * (W * / (6356752.3142 / 6378137)))
      by (apply Rmult_le_compat; lra).
    lra. }
  assert (Hnum : 42697 * (18 / 10000000000) <= err * (D * cos lat)).
  { rewrite H1. apply Rmult_le_compat; lra. }
  assert (Hden : D * cos lat <= 3250000).
  { assert (Hcw : cos lat = Cu * W) by (unfold Cu; field; lra).
    assert (Hcl : cos lat <= Cu).
    { rewrite Hcw. rewrite <- (Rmult_1_r Cu) at 2. apply Rmult_le_compat_l; lra. }
    assert (Hcc : cos lat * cos lat <= 1 / 2).
    { rewrite <- HCC. apply Rmult_le_compat; lra. }
    assert (HDp : D <= p).
    { unfold D. fold Ct.
      assert (0 <= wgs84_e2 * 6378137 * Ct * Ct * Ct)
        by (repeat apply Rmult_le_pos; lra).
      lra. }
    assert (D * cos lat <= p * cos lat) by (apply Rmult_le_compat_r; lra).
    assert (p * cos lat <= 6500000 * (cos lat * cos lat)).
    { unfold p. rewrite Rmult_assoc. apply Rmult_le_compat_r; [|unfold h; lra].
      apply Rmult_le_pos; lra. }
    lra. }
  apply Rnot_lt_le. intros Hlt.
  assert (HDc : 0 < D * cos lat) by (by apply Rmult_lt_0_compat).
  assert (err * (D * cos lat) < 22 / 1000000000000 * (D * cos lat))
    by (apply Rmult_lt_compat_r; lra).
  lra.
Qed.

(** There the recovered height is more than 1e-5 m too large. *)
Lemma wgs84_height_error :
  let lat := atan (6378137 / 6356752.3142) in
  let '(X, Y, Z) :=
    geodeticToCartesian (Fin 6378137) (Fin wgs84_e2) (Fin lat) (Fin 0) (Fin 100000) in
  exists lat' h' : R,
    cartesianToGeodetic (Fin 6378137) (Fin 6356752.3142) (Fin wgs84_e2) X Y Z =
      (Fin lat', Fin 0, Fin h') /\
    1 / 100000 <= h' - 100000.
Proof.
  intros lat.
  assert (Hlat : - (PI / 2) < lat < PI / 2).
  { pose proof (atan_bound (6378137 / 6356752.3142)). unfold lat. lra. }
  assert (Hh : -1000 <= 100000 <= 100000) by lra.
  destruct (wgs84_bowring_error lat 100000 Hlat Hh)
    as (Hpos & HNh & Hp0 & HD0 & Herr & _).
  destruct wgs84_bowring_error_lower as [Hpb Hlow].
  fold lat in Hpb, Hlow.
  pose proof wgs84_e2_bounds as He2. pose proof PI_RGT_0 as Hpi.
  rewrite geodeticToCartesian_Fin by exact Hpos. cbv zeta.
  set (N := RprimeVertical 6378137 wgs84_e2 lat) in *.
  set (p := (N + 100000) * cos lat) in *.
  assert (Hc : 0 < cos lat) by (apply cos_gt_0; lra).
  assert (Hsqrt : sqrt (p * cos 0 * (p * cos 0) + p * sin 0 * (p * sin 0)) = p).
  { apply sqrt_polar. lra. }
  set (z := (N * (1 - wgs84_e2) + 100000) * sin lat) in *.
  set (theta := Ratan2 (z * 6378137) (p * 6356752.3142)) in *.
  set (A := z + (6378137 * 6378137 - 6356752.3142 * 6356752.3142) /
                (6356752.3142 * 6356752.3142) * 6356752.3142 *
                sin theta * sin theta * sin theta) in *.
  set (D := p - wgs84_e2 * 6378137 * cos theta * cos theta * cos theta) in *.
  set (t' := A / D) in *. set (t := 6378137 / 6356752.3142) in *.
  assert (Htan : tan lat = t) by apply tan_atan.
  rewrite Htan in Herr.
  assert (Ht1 : 1 <= t) by (unfold t; lra).
  destruct (RprimeVertical_lower 6378137 wgs84_e2 (atan t')) as [Hpos' _]; [lra | lra |].
  exists (atan t'), (p / cos (atan t') - RprimeVertical 6378137 wgs84_e2 (atan t')).
  split.
  - rewrite cartesianToGeodetic_Fin.
    + rewrite Hsqrt. fold theta A D t'.
      rewrite (Ratan2_turns p 0 0 0); [reflexivity | lra | lra |].
      left. simpl. lra.
    + lra.
    + rewrite Hsqrt. fold theta D. lra.
    + rewrite Hsqrt. fold theta A D t'. exact Hpos'.
  - (* the height *)
    set (err := t' - t) in *.
    assert (Herr1 : err <= 1158 / 10000000000000).
    { eapply Rle_trans; [apply Rle_abs|exact Herr]. }
    assert (HNh' : N + 100000 = p * sqrt (1 + t * t)).
    { rewrite <- inv_cos_atan. fold lat. unfold p. field. lra. }
    replace (p / cos (atan t')) with (p * sqrt (1 + t' * t'))
      by (rewrite <- inv_cos_atan; reflexivity).
    (* the secant grows by at least 0.7 of the error *)
    assert (Hds : 7 / 10 * err <= sqrt (1 + t' * t') - sqrt (1 + t * t)).
    { assert (Hs0 : 0 < sqrt (1 + t * t)) by (apply sqrt_lt_R0; clear; nra).
      assert (Hs0' : 0 < sqrt (1 + t' * t')) by (apply sqrt_lt_R0; clear; nra).
      assert (Hdx : sqrt (1 + t * t) * sqrt (1 + t * t) = 1 + t * t)
        by (apply sqrt_def; clear; nra).
      assert (Hdx' : sqrt (1 + t' * t') * sqrt (1 + t' * t') = 1 + t' * t')
        by (apply sqrt_def; clear; nra).
      set (s := sqrt (1 + t * t)) in *. set (s' := sqrt (1 + t' * t')) in *.
      assert (Ht1' : 1 <= t') by (unfold err in Hlow; lra).
      assert (Hs : 7 / 10 * s <= t) by (clear - Hs0 Hdx Ht1; nra).
      assert (Hs' : 7 / 10 * s' <= t') by (clear - Hs0' Hdx' Ht1'; nra).
      assert (Hprod : (s' - s) * (s' + s) = err * (t' + t)) by (unfold err; lra).
      assert (Hd0 : 0 <= s' - s).
      { apply Rnot_lt_le. intros Hneg.
        assert ((s' - s) * (s' + s) < 0 * (s' + s)) by (apply Rmult_lt_compat_r; lra).
        assert (0 <= err * (t' + t)) by (apply Rmult_le_pos; lra).
        lra. }
      assert (H1 : (s' - s) * (7 / 10 * (s' + s)) <= (s' - s) * (t' + t))
        by (apply Rmult_le_compat_l; lra).
      apply Rnot_lt_le. intros Hlt.
      assert ((s' - s) * (t' + t) < 7 / 10 * err * (t' + t))
        by (apply Rmult_lt_compat_r; lra).
      lra. }
    (* the radius of curvature changes little *)
    pose proof (RprimeVertical_lipschitz 6378137 wgs84_e2 (6356752.3142 / 6378137) t' t)
      as HN.
    pose proof wgs84_one_minus_e2 as Hq.
    specialize (HN ltac:(lra) ltac:(lra) ltac:(lra) ltac:(lra)).
    fold lat N err in HN.
    rewrite (Rabs_right err) in HN by lra.
    assert (HN' : RprimeVertical 6378137 wgs84_e2 (atan t') - N <= 23000 * err).
    { set (dN := RprimeVertical 6378137 wgs84_e2 (atan t') - N) in *.
      pose proof (Rle_abs dN) as Hab. pose proof (Rabs_pos dN) as Hab0.
      set (adN := Rabs dN) in *.
      assert (Hq3 : 19 / 10 <= 2 * (6356752.3142 / 6378137 * (6356752.3142 / 6378137)
                                    * (6356752.3142 / 6378137))) by lra.
      assert (adN * (19 / 10) <=
              adN * (2 * (6356752.3142 / 6378137 * (6356752.3142 / 6378137)
                          * (6356752.3142 / 6378137))))
        by (apply Rmult_le_compat_l; lra).
      assert (6378137 * wgs84_e2 * err <= 42699 * err).
      { apply Rmult_le_compat_r; [lra|]. unfold wgs84_e2. lra. }
      lra. }
    assert (Hpd : 4500000 * (7 / 10 * err) <=
                  p * (sqrt (1 + t' * t') - sqrt (1 + t * t))).
    { apply Rmult_le_compat; lra. }
    lra.
Qed.

End BowringAccuracy.

Lemma roundTrip_wgs84 (w : World) (latitude longitude height : num) :
  let this := eval EllipsoidModel w in
  let w0 := exec EllipsoidModel w in
  let rt := roundTrip this latitude longitude height in
  components (exec rt w0) (eval rt w0) =
    some3 (let '(X, Y, Z) :=
             geodeticToCartesian (Fin 6378137) (Fin wgs84_e2) latitude longitude height in
           cartesianToGeodetic (Fin 6378137) (Fin 6356752.3142) (Fin wgs84_e2) X Y Z).
Proof.
  intros this w0 rt.
  destruct (EllipsoidModel_fields w) as (_ & Hvalid & _).
  destruct (EllipsoidModel_stored w) as (Sa & Sb & Se).
  fold this w0 in Hvalid, Sa, Sb, Se.
  unfold rt. rewrite roundTrip_run by exact Hvalid.
  unfold xyz_of, llh_of. by rewrite Sa, Sb, Se.
Qed.

(** C2, as stated, fails in two ways.  Latitude 0, longitude 2 pi and
    height 0 are in its domain, and the round trip gives longitude 0,
    which is 2 pi away from the original.  And at longitude 0, height
    100 km and the latitude whose tangent is a/b (about 45.1 degrees)
    the recovered height is more than 1e-5 m above the original: one
    pass of the formula does not reach 1e-6 m there. *)
Lemma round_trip_counterexample :
  ((- (89 * PI / 180) < 0 < 89 * PI / 180)%R ∧
   (-1000 <= 0 <= 100000)%R ∧
   ¬ round_trip_within (1 / 1000000000) (1 / 1000000) wgs84_world wgs84_model
       0 (2 * PI) 0) ∧
  ((- (89 * PI / 180) < atan (6378137 / 6356752.3142) < 89 * PI / 180)%R ∧
   (-1000 <= 100000 <= 100000)%R ∧
   ¬ round_trip_within (1 / 1000000000) (1 / 1000000) wgs84_world wgs84_model
       (atan (6378137 / 6356752.3142)) 0 100000).
Proof.
  pose proof PI_RGT_0 as Hpi. pose proof PI2_3_2 as Hpi3.
  split.
  - split; [lra|]. split; [lra|].
    intros (lat' & lon' & h' & Hc & _ & Hlon & _).
    unfold wgs84_world, wgs84_model in Hc. rewrite roundTrip_wgs84 in Hc.
    pose proof (wgs84_surface 0 0 (2 * PI) 1) as Hs.
    destruct (geodeticToCartesian (Fin 6378137) (Fin wgs84_e2) (Fin 0) (Fin (2 * PI)) (Fin 0))
      as [[X Y] Z].
    rewrite Hs in Hc; [| lra | lra | left; simpl; lra].
    cbn [some3] in Hc. injection Hc as _ <- _.
    rewrite Rminus_0_l, Rabs_Ropp, Rabs_right in Hlon by lra. lra.
  - split; [|split; [lra|]].
    + pose proof (atan_lipschitz (6378137 / 6356752.3142) 1) as Hl.
      rewrite atan_1 in Hl.
      rewrite (Rabs_right (6378137 / 6356752.3142 - 1)) in Hl by lra.
      pose proof (Rle_abs (atan (6378137 / 6356752.3142) - PI / 4)) as Hu.
      pose proof (Rle_abs (- (atan (6378137 / 6356752.3142) - PI / 4))) as Hd.
      rewrite Rabs_Ropp in Hd. lra.
    + intros (lat' & lon' & h' & Hc & _ & _ & Hh).
      unfold wgs84_world, wgs84_model in Hc. rewrite roundTrip_wgs84 in Hc.
      pose proof wgs84_height_error as He. cbv zeta in He.
      destruct (geodeticToCartesian (Fin 6378137) (Fin wgs84_e2)
                  (Fin (atan (6378137 / 6356752.3142))) (Fin 0) (Fin 100000))
        as [[X Y] Z].
      destruct He as (l & hh & Heq & Hlow).
      rewrite Heq in Hc. cbn [some3] in Hc. injection Hc as _ _ <-.
      pose proof (Rle_abs (hh - 100000)) as Ha. lra.
Qed.

(** C2, amended.  For the WGS-84 model, latitude in (-89, 89) degrees,
    longitude in (-pi, pi] and height in [-1000, 100000] metres, the
    round trip reproduces latitude and longitude within 1e-9 rad and
    the height within 1e-3 m (in exact arithmetic: the longitude
    exactly, and from height 0 latitude and height exactly as well).  A
    longitude outside (-pi, pi] comes back reduced to that interval. *)
Theorem round_trip_amended (w : World) (lat lon0 lon h : R) (k : nat) :
  (- (89 * PI / 180) < lat < 89 * PI / 180)%R →
  (-1000 <= h <= 100000)%R →
  (- PI < lon0 <= PI)%R →
  (lon = lon0 + 2 * INR k * PI ∨ lon = lon0 - 2 * INR k * PI)%R →
  let this := eval EllipsoidModel w in
  let w0 := exec EllipsoidModel w in
  round_trip_within (1 / 1000000000) (1 / 1000) w0 this lat lon0 h ∧
  (∃ lat' h' : R,
     components (exec (roundTrip this (Fin lat) (Fin lon) (Fin h)) w0)
                (eval (roundTrip this (Fin lat) (Fin lon) (Fin h)) w0) =
       (Some (Fin lat'), Some (Fin lon0), Some (Fin h'))) ∧
  (h = 0%R → round_trip_within 0 0 w0 this lat lon0 0).
Proof.
  intros Hlat Hh Hlon0 Hlon this w0.
  pose proof PI_RGT_0 as Hpi.
  assert (Hlat' : (- (PI / 2) < lat < PI / 2)%R) by lra.
  assert (Hk0 : (lon0 = lon0 + 2 * INR 0 * PI ∨ lon0 = lon0 - 2 * INR 0 * PI)%R).
  { left. simpl. lra. }
  split; [|split].
  - pose proof (roundTrip_wgs84 w (Fin lat) (Fin lon0) (Fin h)) as Hrt.
    fold this w0 in Hrt.
    pose proof (wgs84_round_trip_accuracy lat lon0 lon0 h 0 Hlat' Hh Hlon0 Hk0) as Hacc.
    destruct (geodeticToCartesian (Fin 6378137) (Fin wgs84_e2) (Fin lat) (Fin lon0) (Fin h))
      as [[X Y] Z].
    destruct Hacc as (lat' & h' & Heq & Hl & Hhh).
    exists lat', lon0, h'. rewrite Hrt, Heq. split; [done|].
    split; [exact Hl|]. split; [|exact Hhh].
    rewrite Rminus_diag, Rabs_R0. lra.
  - pose proof (roundTrip_wgs84 w (Fin lat) (Fin lon) (Fin h)) as Hrt.
    fold this w0 in Hrt.
    pose proof (wgs84_round_trip_accuracy lat lon0 lon h k Hlat' Hh Hlon0 Hlon) as Hacc.
    destruct (geodeticToCartesian (Fin 6378137) (Fin wgs84_e2) (Fin lat) (Fin lon) (Fin h))
      as [[X Y] Z].
    destruct Hacc as (lat' & h' & Heq & _).
    exists lat', h'. by rewrite Hrt, Heq.
  - intros ->.
    pose proof (roundTrip_wgs84 w (Fin lat) (Fin lon0) (Fin 0)) as Hrt.
    fold this w0 in Hrt.
    pose proof (wgs84_surface lat lon0 lon0 0 Hlat' Hlon0 Hk0) as Hs.
    destruct (geodeticToCartesian (Fin 6378137) (Fin wgs84_e2) (Fin lat) (Fin lon0) (Fin 0))
      as [[X Y] Z].
    exists lat, lon0, 0%R. rewrite Hrt, Hs. split; [done|].
    rewrite !Rminus_diag, Rabs_R0. lra.
Qed.

Lemma round_trip_amended_witness :
  round_trip_within (1 / 1000000000) (1 / 1000) wgs84_world wgs84_model 0 0 0.
Proof.
  pose proof PI_RGT_0 as Hpi.
  apply (round_trip_amended loaded 0 0 (0 + 2 * INR 1 * PI) 0 1); [lra | lra | lra |].
  by left.
Defined.

(** ** Ninety degrees *)




(** * Further properties of the methods *)

(** ** The radii *)

Lemma setProp_absent (w : World) (l : loc) (k : key) (v : num) :
  heap w !! l = None → exec (setProp l k v) w = w.
Proof.
  intros Hn. unfold exec, setProp, with_heap; simpl.
  destruct w as [h s ws]; simpl in *. f_equal.
  apply map_eq. intros i. destruct (decide (l = i)) as [<-|Hi].
  - by rewrite lookup_alter_eq, Hn.
  - by rewrite lookup_alter_ne.
Qed.

Lemma setProp_present (w : World) (l : loc) (k : key) (v : num) (o : Obj) :
  heap w !! l = Some o →
  exec (setProp l k v) w = with_heap (<[l := <[k := v]> o]> (heap w)) w.
Proof.
  intros Ho. unfold exec, setProp, with_heap; simpl. f_equal.
  apply map_eq. intros i. destruct (decide (l = i)) as [<-|Hi].
  - by rewrite lookup_alter_eq, Ho, lookup_insert_eq.
  - by rewrite lookup_alter_ne, lookup_insert_ne.
Qed.

(** The object that the two setters leave behind the model. *)
Lemma setRadiusEquator_run (w : World) (this : loc) (radius : num) (o : Obj) :
  heap w !! this = Some o →
  exec (setRadiusEquator this radius) w =
    with_heap (<[this := <[_eccentricitySquared :=
                             eccentricity_of radius (prop o _radiusPolar)]>
                           (<[_radiusEquator := radius]> o)]> (heap w)) w.
Proof.
  intros Ho. unfold setRadiusEquator, computeCoefficients. run.
  rewrite (setProp_present w this _radiusEquator radius o Ho).
  set (w1 := with_heap (<[this := <[_radiusEquator := radius]> o]> (heap w)) w).
  assert (H1 : heap w1 !! this = Some (<[_radiusEquator := radius]> o))
    by apply lookup_insert_eq.
  rewrite (setProp_present w1 this _ _ _ H1).
  unfold field. rewrite H1. cbn [mbind option_bind].
  rewrite lookup_insert_eq, lookup_insert_ne by discriminate.
  unfold w1, with_heap; cbn [heap scratch warnings]. rewrite insert_insert_eq.
  reflexivity.
Qed.

Lemma setRadiusPolar_run (w : World) (this : loc) (radius : num) (o : Obj) :
  heap w !! this = Some o →
  exec (setRadiusPolar this radius) w =
    with_heap (<[this := <[_eccentricitySquared :=
                             eccentricity_of (prop o _radiusEquator) radius]>
                           (<[_radiusPolar := radius]> o)]> (heap w)) w.
Proof.
  intros Ho. unfold setRadiusPolar, computeCoefficients. run.
  rewrite (setProp_present w this _radiusPolar radius o Ho).
  set (w1 := with_heap (<[this := <[_radiusPolar := radius]> o]> (heap w)) w).
  assert (H1 : heap w1 !! this = Some (<[_radiusPolar := radius]> o))
    by apply lookup_insert_eq.
  rewrite (setProp_present w1 this _ _ _ H1).
  unfold field. rewrite H1. cbn [mbind option_bind].
  rewrite lookup_insert_eq, lookup_insert_ne by discriminate.
  unfold w1, with_heap; cbn [heap scratch warnings]. rewrite insert_insert_eq.
  reflexivity.
Qed.

Lemma setRadius_absent (w : World) (this : loc) (radius : num) :
  heap w !! this = None →
  exec (setRadiusEquator this radius) w = w ∧ exec (setRadiusPolar this radius) w = w.
Proof.
  intros Hn. unfold setRadiusEquator, setRadiusPolar, computeCoefficients. run.
  rewrite !(setProp_absent w) by done. done.
Qed.

(** The radius that a setter stores is the one the getter returns, the
    other radius is as before, and no other object (another model, for
    one) is changed. *)
Theorem setRadius_getRadius (w : World) (this : loc) (radius : num) :
  is_Some (heap w !! this) →
  eval (getRadiusEquator this) (exec (setRadiusEquator this radius) w) = radius ∧
  eval (getRadiusPolar this) (exec (setRadiusEquator this radius) w) =
    eval (getRadiusPolar this) w ∧
  eval (getRadiusPolar this) (exec (setRadiusPolar this radius) w) = radius ∧
  eval (getRadiusEquator this) (exec (setRadiusPolar this radius) w) =
    eval (getRadiusEquator this) w ∧
  ∀ l k, l ≠ this →
    field (exec (setRadiusEquator this radius) w) l k = field w l k ∧
    field (exec (setRadiusPolar this radius) w) l k = field w l k.
Proof.
  intros [o Ho]. unfold getRadiusEquator, getRadiusPolar. run.
  rewrite (setRadiusEquator_run w this radius o Ho),
    (setRadiusPolar_run w this radius o Ho).
  unfold field, with_heap; cbn [heap]. rewrite !lookup_insert_eq, Ho.
  cbn [mbind option_bind].
  rewrite !(lookup_insert_ne _ _eccentricitySquared) by discriminate.
  rewrite !lookup_insert_eq.
  rewrite (lookup_insert_ne _ _radiusEquator _radiusPolar) by discriminate.
  rewrite (lookup_insert_ne _ _radiusPolar _radiusEquator) by discriminate.
  repeat (split; [done|]).
  intros l k Hl. by rewrite !lookup_insert_ne by done.
Qed.

Lemma setRadius_getRadius_witness :
  eval (getRadiusEquator wgs84_model)
       (exec (setRadiusEquator wgs84_model (Fin 1)) wgs84_world) = Fin 1.
Proof.
  apply (setRadius_getRadius wgs84_world wgs84_model (Fin 1) wgs84_model_valid).
Defined.

(** The two setters can be called in either order: the world is the
    same afterwards. *)
Theorem setRadius_commute (w : World) (this : loc) (a b : num) :
  exec (setRadiusEquator this a;; setRadiusPolar this b) w =
  exec (setRadiusPolar this b;; setRadiusEquator this a) w.
Proof.
  run. destruct (heap w !! this) as [o|] eqn:Ho.
  - rewrite (setRadiusEquator_run w this a o Ho), (setRadiusPolar_run w this b o Ho).
    erewrite setRadiusPolar_run by apply lookup_insert_eq.
    erewrite setRadiusEquator_run by apply lookup_insert_eq.
    unfold with_heap; cbn [heap scratch warnings]. f_equal.
    rewrite !insert_insert_eq. f_equal.
    unfold prop.
    rewrite (lookup_insert_ne _ _eccentricitySquared _radiusEquator) by discriminate.
    rewrite (lookup_insert_ne _ _eccentricitySquared _radiusPolar) by discriminate.
    rewrite !lookup_insert_eq. cbn [default].
    rewrite (insert_insert_ne _ _radiusPolar _eccentricitySquared) by discriminate.
    rewrite insert_insert_eq.
    rewrite (insert_insert_ne _ _radiusEquator _eccentricitySquared) by discriminate.
    rewrite insert_insert_eq.
    f_equal. apply insert_insert_ne. discriminate.
  - destruct (setRadius_absent w this a Ho) as [Ha _].
    destruct (setRadius_absent w this b Ho) as [_ Hb].
    by rewrite Ha, Hb, Ha.
Qed.

Lemma setRadii_fields (w : World) (this : loc) (a b : num) :
  is_Some (heap w !! this) →
  let w' := exec (setRadiusEquator this a;; setRadiusPolar this b) w in
  is_Some (heap w' !! this) ∧
  field w' this _radiusEquator = Some a ∧
  field w' this _radiusPolar = Some b ∧
  field w' this _eccentricitySquared = Some (eccentricity_of a b) ∧
  scratch w' = scratch w ∧ warnings w' = warnings w.
Proof.
  intros [o Ho] w'. unfold w'. run.
  rewrite (setRadiusEquator_run w this a o Ho).
  erewrite setRadiusPolar_run by apply lookup_insert_eq.
  unfold field, with_heap; cbn [heap scratch warnings].
  rewrite !lookup_insert_eq. cbn [mbind option_bind].
  split; [done|].
  rewrite lookup_insert_eq.
  rewrite !(lookup_insert_ne _ _eccentricitySquared) by discriminate.
  rewrite lookup_insert_eq.
  rewrite (lookup_insert_ne _ _radiusPolar _radiusEquator) by discriminate.
  rewrite (lookup_insert_ne _ _eccentricitySquared _radiusEquator) by discriminate.
  rewrite lookup_insert_eq. unfold prop.
  rewrite (lookup_insert_ne _ _eccentricitySquared _radiusEquator) by discriminate.
  rewrite lookup_insert_eq. done.
Qed.

(** The setters do not validate: after an equatorial radius of 0 is
    set, whatever real polar radius is stored, the coefficient is not
    a finite number (it is -Infinity or NaN, according to the signs of
    the polar radius and of the zero). *)
Theorem zero_equatorial_radius (w : World) (this : loc) (rp : R) :
  is_Some (heap w !! this) →
  field w this _radiusPolar = Some (Fin rp) →
  ∃ e2 : num,
    field (exec (setRadiusEquator this (Fin 0)) w) this _eccentricitySquared = Some e2 ∧
    Number.is_finite e2 = false.
Proof.
  intros [o Ho] Hrp. rewrite (setRadiusEquator_run w this (Fin 0) o Ho).
  unfold field, with_heap; cbn [heap]. rewrite lookup_insert_eq.
  cbn [mbind option_bind]. rewrite lookup_insert_eq.
  eexists. split; [reflexivity|].
  unfold field in Hrp. rewrite Ho in Hrp. cbn [mbind option_bind] in Hrp.
  unfold prop. rewrite Hrp. cbn [default].
  cbn [default from_option]. unfold Datatypes.id.
  unfold eccentricity_of. cbv zeta.
  cbn [Number.sub Number.add Number.flip]. unfold Number.div.
  rewrite decide_True by done.
  destruct (decide ((0 + - rp)%R = 0%R)) as [H0|H0]; [done|].
  unfold Number.inf_like.
  destruct (decide (0 + - rp < 0)%R); cbn; unfold Number.scale_inf;
    rewrite decide_False by lra; by rewrite decide_False by lra.
Qed.

Lemma zero_equatorial_radius_witness :
  ∃ e2 : num,
    field (exec (setRadiusEquator wgs84_model (Fin 0)) wgs84_world) wgs84_model
          _eccentricitySquared = Some e2 ∧
    Number.is_finite e2 = false.
Proof.
  apply (zero_equatorial_radius wgs84_world wgs84_model 6356752.3142 wgs84_model_valid).
  apply (EllipsoidModel_fields loaded).
Defined.

(** ** The methods built on the conversions *)

Lemma array3_components (w : World) (r : loc) (a b c : num) :
  heap w !! r = Some (array [a; b; c]) →
  components w r = (Some a, Some b, Some c).
Proof.
  intros Hr. unfold components, field. rewrite Hr. cbn [mbind option_bind].
  unfold array; cbn [array_from].
  rewrite lookup_insert_eq.
  rewrite (lookup_insert_ne _ (Index 0) (Index 1)), lookup_insert_eq by discriminate.
  rewrite (lookup_insert_ne _ (Index 0) (Index 2)),
    (lookup_insert_ne _ (Index 1) (Index 2)), lookup_insert_eq by discriminate.
  done.
Qed.

Lemma computeLocalUpVector_run (w : World) (this : loc) (X Y Z : num) :
  let op := computeLocalUpVector this X Y Z in
  let r := eval op w in
  let w' := exec op w in
  let coord := eval (convertXYZToLatLongHeight this X Y Z None) w in
  heap w !! r = None ∧ heap w !! coord = None ∧ r ≠ coord ∧
  components w' r =
    some3 (upVector (llh_of w this X Y Z).1.1 (llh_of w this X Y Z).1.2) ∧
  dom (heap w') = {[ r ]} ∪ ({[ coord ]} ∪ dom (heap w)) ∧
  warnings w' = warnings w ++ [warn_convertXYZToLatLongHeight] ∧
  scratch w' = scratch w ∧
  ∀ l k, l ≠ r → l ≠ coord → field w' l k = field w l k.
Proof.
  intros op r w' coord. unfold r, w', op, computeLocalUpVector. run.
  destruct (convertXYZToLatLongHeight_omitted w this X Y Z)
    as (Hf1 & Hc1 & Hd1 & Hw1 & Hs1 & Ho1).
  fold coord in Hf1, Hc1, Hd1, Ho1 |- *.
  set (w1 := exec (convertXYZToLatLongHeight this X Y Z None) w) in *.
  unfold components in Hc1.
  destruct (llh_of w this X Y Z) as [[lat lon] h]. cbn [some3 fst snd] in Hc1 |- *.
  injection Hc1 as -> -> _. cbn [default from_option]. unfold Datatypes.id.
  set (v := array [(Math.cos lon * Math.cos lat)%js; (Math.sin lon * Math.cos lat)%js;
                   Math.sin lat]).
  destruct (alloc_fresh v w1) as [Hf2 Hn2].
  destruct (alloc_rest v w1) as (Hd2 & Hw2 & Hs2).
  assert (Hin : coord ∈ dom (heap w1)).
  { rewrite Hd1. apply elem_of_union_l. by apply elem_of_singleton. }
  assert (Hne : eval (alloc v) w1 ≠ coord).
  { intros Heq. rewrite Heq in Hf2. apply not_elem_of_dom in Hf2. by apply Hf2. }
  split; [|split; [exact Hf1|split; [exact Hne|split; [|split; [|split; [|split]]]]]].
  - apply not_elem_of_dom. apply not_elem_of_dom in Hf2. rewrite Hd1 in Hf2.
    intros Hin'. apply Hf2. by apply elem_of_union_r.
  - rewrite (array3_components _ _ _ _ _ Hn2). reflexivity.
  - by rewrite Hd2, Hd1.
  - by rewrite Hw2, Hw1.
  - by rewrite Hs2, Hs1.
  - intros l k Hl Hlc. rewrite alloc_other by done. by apply Ho1.
Qed.

Lemma translate_entries_column3 (x y z : num) :
  written (Matrix.entry 0 3) (translate_entries x y z) = Some (Fin 0) ∧
  written (Matrix.entry 1 3) (translate_entries x y z) = Some (Fin 0) ∧
  written (Matrix.entry 2 3) (translate_entries x y z) = Some (Fin 0).
Proof. repeat split. Qed.

(** A matrix that has been made a translation and then given the frame. *)
Lemma translate_then_frame (w : World) (m : loc) (x y z latitude longitude : num) :
  scratch_ok w → is_Some (heap w !! m) →
  let w' := exec (computeCoordinateFrame latitude longitude m)
              (writes m (translate_entries x y z) w) in
  (row3 w' m 0 = some3 (eastVector longitude) ∧
   row3 w' m 1 = some3 (northVector latitude longitude) ∧
   row3 w' m 2 = some3 (upVector latitude longitude) ∧
   row3 w' m 3 = (Some x, Some y, Some z)) ∧
  (field w' m (Matrix.entry 0 3) = Some (Fin 0) ∧
   field w' m (Matrix.entry 1 3) = Some (Fin 0) ∧
   field w' m (Matrix.entry 2 3) = Some (Fin 0) ∧
   field w' m (Matrix.entry 3 3) = Some (Fin 1)) ∧
  (∀ l k, l ≠ m → field w' l k = field w l k) ∧
  dom (heap w') = dom (heap w) ∧
  warnings w' = warnings w ∧
  scratch_ok w'.
Proof.
  intros Hok Hv w'.
  set (w3 := writes m (translate_entries x y z) w) in *.
  destruct (writes_rest m (translate_entries x y z) w) as (Hd3 & Hw3 & Hs3).
  fold w3 in Hd3, Hw3, Hs3.
  assert (Hok3 : scratch_ok w3) by (unfold scratch_ok; by rewrite Hs3).
  assert (Hv3 : is_Some (heap w3 !! m)) by (unfold w3; by rewrite writes_valid).
  destruct (computeCoordinateFrame_spec w3 m latitude longitude Hok3)
    as (Hrows & Hframe & Hd & Hw & Hok').
  fold w' in Hrows, Hframe, Hd, Hw, Hok'.
  destruct (Hrows Hv3) as (R0 & R1 & R2).
  destruct (translate_entries_row3 x y z) as (T0 & T1 & T2 & T3).
  destruct (translate_entries_column3 x y z) as (C0 & C1 & C2).
  assert (Hcol3 : ∀ row, ¬ rotation_entry (Matrix.entry row 3)).
  { intros row (r & c & Hr & Hc & [= Heq]). lia. }
  split; [split; [exact R0|split; [exact R1|split; [exact R2|]]]|].
  { unfold row3. rewrite !Hframe by (right; apply translation_row_not_rotation).
    unfold w3. rewrite !field_writes by done. by rewrite T0, T1, T2. }
  split.
  { rewrite !Hframe by (right; apply Hcol3).
    unfold w3. rewrite !field_writes by done. by rewrite C0, C1, C2, T3. }
  split; [|split; [by rewrite Hd, Hd3|split; [by rewrite Hw, Hw3|exact Hok']]].
  intros l k Hl. rewrite Hframe by (by left).
  unfold w3. by rewrite field_writes_other.
Qed.

Lemma bind_run {A B} (m : M A) (f : A → M B) (w : World) :
  (m ≫= f) w = (mret (eval m w) ≫= f) (exec m w).
Proof. unfold mbind, M_bind, mret, M_ret, eval, exec. by destruct (m w). Qed.

Lemma computeLocalToWorldTransformFromLatLongHeight_given
    (w : World) (this m : loc) (latitude longitude height : num) :
  scratch_ok w → is_Some (heap w !! m) →
  let op := computeLocalToWorldTransformFromLatLongHeight this latitude longitude height
              (Some m) in
  let w' := exec op w in
  eval op w = m ∧
  (row3 w' m 0 = some3 (eastVector longitude) ∧
   row3 w' m 1 = some3 (northVector latitude longitude) ∧
   row3 w' m 2 = some3 (upVector latitude longitude) ∧
   row3 w' m 3 = some3 (xyz_of w this latitude longitude height)) ∧
  (field w' m (Matrix.entry 0 3) = Some (Fin 0) ∧
   field w' m (Matrix.entry 1 3) = Some (Fin 0) ∧
   field w' m (Matrix.entry 2 3) = Some (Fin 0) ∧
   field w' m (Matrix.entry 3 3) = Some (Fin 1)) ∧
  (∀ l k, l ≠ m → field w' l k = field w l k) ∧
  dom (heap w') = dom (heap w) ∧
  warnings w' = warnings w ∧
  scratch_ok w'.
Proof.
  intros Hok Hv op w'. unfold w', op, computeLocalToWorldTransformFromLatLongHeight. run.
  destruct (convertLatLongHeightToXYZ_given w this m latitude longitude height)
    as (He & Hc & Hd1 & Hw1 & Hs1 & Ho1).
  specialize (Hc Hv). rewrite !He.
  set (w1 := exec (convertLatLongHeightToXYZ this latitude longitude height (Some m)) w) in *.
  unfold components in Hc.
  destruct (xyz_of w this latitude longitude height) as [[x y] z]. cbn [some3] in Hc |- *.
  injection Hc as -> -> ->. cbn [default from_option]. unfold Datatypes.id.
  destruct (makeTranslate_run x y z m w1) as [-> _].
  assert (Hok1 : scratch_ok w1) by (unfold scratch_ok; by rewrite Hs1).
  assert (Hv1 : is_Some (heap w1 !! m)).
  { apply elem_of_dom. rewrite Hd1. by apply elem_of_dom. }
  destruct (translate_then_frame w1 m x y z latitude longitude Hok1 Hv1)
    as (Hrows & Hcol & Hother & Hd & Hw & Hok').
  split; [done|]. split; [exact Hrows|]. split; [exact Hcol|].
  split; [|split; [by rewrite Hd, Hd1|split; [by rewrite Hw, Hw1|exact Hok']]].
  intros l k Hl. rewrite Hother by done. apply Ho1. by left.
Qed.

Lemma computeLocalToWorldTransformFromLatLongHeight_None
    (w : World) (this : loc) (a b c : num) :
  let new := Notify.warn warn_computeLocalToWorldTransformFromLatLongHeight;;
             Matrix.create in
  computeLocalToWorldTransformFromLatLongHeight this a b c None w =
  computeLocalToWorldTransformFromLatLongHeight this a b c (Some (eval new w)) (exec new w).
Proof.
  intros new. unfold computeLocalToWorldTransformFromLatLongHeight.
  exact (bind_run new _ w).
Qed.

Lemma computeLocalToWorldTransformFromLatLongHeight_omitted
    (w : World) (this : loc) (latitude longitude height : num) :
  scratch_ok w →
  let op := computeLocalToWorldTransformFromLatLongHeight this latitude longitude height
              None in
  let m := eval op w in
  let w' := exec op w in
  heap w !! m = None ∧
  (row3 w' m 0 = some3 (eastVector longitude) ∧
   row3 w' m 1 = some3 (northVector latitude longitude) ∧
   row3 w' m 2 = some3 (upVector latitude longitude) ∧
   row3 w' m 3 = some3 (xyz_of w this latitude longitude height)) ∧
  (field w' m (Matrix.entry 0 3) = Some (Fin 0) ∧
   field w' m (Matrix.entry 1 3) = Some (Fin 0) ∧
   field w' m (Matrix.entry 2 3) = Some (Fin 0) ∧
   field w' m (Matrix.entry 3 3) = Some (Fin 1)) ∧
  (∀ l k, l ≠ m → field w' l k = field w l k) ∧
  dom (heap w') = {[ m ]} ∪ dom (heap w) ∧
  warnings w' = warnings w ++ [warn_computeLocalToWorldTransformFromLatLongHeight] ∧
  scratch_ok w'.
Proof.
  intros Hok op m w'.
  destruct (created_fields warn_computeLocalToWorldTransformFromLatLongHeight
              Matrix.identity w)
    as (Hf & Hn & Hd & Hw & Hs & Hk & Ho); [intros; apply array_Name|].
  set (w1 := exec (alloc Matrix.identity)
               (exec (Notify.warn warn_computeLocalToWorldTransformFromLatLongHeight) w)) in *.
  set (r1 := eval (alloc Matrix.identity)
               (exec (Notify.warn warn_computeLocalToWorldTransformFromLatLongHeight) w)) in *.
  pose proof (computeLocalToWorldTransformFromLatLongHeight_None w this
                latitude longitude height) as Hrun.
  cbv zeta in Hrun. fold op in Hrun.
  set (op1 := computeLocalToWorldTransformFromLatLongHeight this latitude longitude height
                (Some r1)).
  assert (Hexec : w' = exec op1 w1).
  { unfold w', exec. rewrite Hrun. reflexivity. }
  assert (Heval : m = eval op1 w1).
  { unfold m, eval. rewrite Hrun. reflexivity. }
  clearbody w' m. subst w' m. clear Hrun.
  assert (Hok1 : scratch_ok w1) by (unfold scratch_ok; by rewrite Hs).
  assert (Hv1 : is_Some (heap w1 !! r1)) by (by rewrite Hn).
  destruct (computeLocalToWorldTransformFromLatLongHeight_given w1 this r1
              latitude longitude height Hok1 Hv1)
    as (He & Hrows & Hcol & Hother & Hd' & Hw' & Hok').
  fold op1 in He, Hrows, Hcol, Hother, Hd', Hw', Hok'. rewrite He.
  assert (Hxyz : xyz_of w1 this latitude longitude height =
                 xyz_of w this latitude longitude height).
  { unfold xyz_of, stored, _radiusEquator, _eccentricitySquared. by rewrite !Hk. }
  rewrite Hxyz in Hrows.
  split; [done|]. split; [exact Hrows|]. split; [exact Hcol|].
  split; [|split; [by rewrite Hd', Hd|split; [by rewrite Hw', Hw|exact Hok']]].
  intros l k Hl. rewrite Hother by done. by apply Ho.
Qed.

Lemma computeLocalToWorldTransformFromXYZ_run (w : World) (this : loc) (X Y Z : num) :
  scratch_ok w →
  let op := computeLocalToWorldTransformFromXYZ this X Y Z in
  let m := eval op w in
  let w' := exec op w in
  let lla := eval (convertXYZToLatLongHeight this X Y Z None) w in
  let latitude := (llh_of w this X Y Z).1.1 in
  let longitude := (llh_of w this X Y Z).1.2 in
  heap w !! m = None ∧ heap w !! lla = None ∧ m ≠ lla ∧
  (row3 w' m 0 = some3 (eastVector longitude) ∧
   row3 w' m 1 = some3 (northVector latitude longitude) ∧
   row3 w' m 2 = some3 (upVector latitude longitude) ∧
   row3 w' m 3 = (Some X, Some Y, Some Z)) ∧
  (field w' m (Matrix.entry 0 3) = Some (Fin 0) ∧
   field w' m (Matrix.entry 1 3) = Some (Fin 0) ∧
   field w' m (Matrix.entry 2 3) = Some (Fin 0) ∧
   field w' m (Matrix.entry 3 3) = Some (Fin 1)) ∧
  (∀ l k, l ≠ m → l ≠ lla → field w' l k = field w l k) ∧
  dom (heap w') = {[ m ]} ∪ ({[ lla ]} ∪ dom (heap w)) ∧
  warnings w' = warnings w ++ [warn_convertXYZToLatLongHeight] ∧
  scratch_ok w'.
Proof.
  intros Hok op m w' lla latitude longitude.
  unfold m, w', op, computeLocalToWorldTransformFromXYZ. run.
  destruct (convertXYZToLatLongHeight_omitted w this X Y Z)
    as (Hf1 & Hc1 & Hd1 & Hw1 & Hs1 & Ho1).
  fold lla in Hf1, Hc1, Hd1, Ho1 |- *.
  set (w1 := exec (convertXYZToLatLongHeight this X Y Z None) w) in *.
  unfold Matrix.create.
  destruct (alloc_fresh Matrix.identity w1) as [Hf2 Hn2].
  destruct (alloc_rest Matrix.identity w1) as (Hd2 & Hw2 & Hs2).
  set (w2 := exec (alloc Matrix.identity) w1) in *.
  set (m0 := eval (alloc Matrix.identity) w1) in *.
  destruct (makeTranslate_run X Y Z m0 w2) as [-> ->].
  assert (Hlla : lla ∈ dom (heap w1)).
  { rewrite Hd1. apply elem_of_union_l. by apply elem_of_singleton. }
  assert (Hne : m0 ≠ lla).
  { intros Heq. apply not_elem_of_dom in Hf2. apply Hf2. by rewrite Heq. }
  assert (Hread : ∀ i, field (writes m0 (translate_entries X Y Z) w2) lla (Index i) =
                       field w1 lla (Index i)).
  { intros i. rewrite field_writes_other by done. by apply alloc_other. }
  rewrite !Hread.
  unfold components in Hc1. unfold latitude, longitude.
  destruct (llh_of w this X Y Z) as [[lat lon] h]. cbn [some3 fst snd] in Hc1 |- *.
  injection Hc1 as -> -> _. cbn [default from_option]. unfold Datatypes.id.
  assert (Hok2 : scratch_ok w2) by (unfold scratch_ok; by rewrite Hs2, Hs1).
  assert (Hv2 : is_Some (heap w2 !! m0)) by (by rewrite Hn2).
  destruct (translate_then_frame w2 m0 X Y Z lat lon Hok2 Hv2)
    as (Hrows & Hcol & Hother & Hd & Hw & Hok').
  split; [|split; [exact Hf1|split; [exact Hne|split; [exact Hrows|split; [exact Hcol|]]]]].
  - apply not_elem_of_dom. apply not_elem_of_dom in Hf2.
    rewrite Hd1 in Hf2. intros Hin. apply Hf2. by apply elem_of_union_r.
  - split; [|split; [by rewrite Hd, Hd2, Hd1|split; [by rewrite Hw, Hw2, Hw1|exact Hok']]].
    intros l k Hl Hll. rewrite Hother by done.
    unfold w2. rewrite alloc_other by exact Hl. by apply Ho1.
Qed.

(** ** What a call logs and what it keeps *)

Lemma logs_eq {A} (m : M A) (ws ws' : list string) : logs m ws → ws = ws' → logs m ws'.
Proof. by intros H <-. Qed.

Lemma logs_ret {A} (a : A) : logs (mret a : M A) [].
Proof. intros w. by rewrite app_nil_r. Qed.

Lemma logs_bind {A B} (m : M A) (f : A → M B) (ws1 ws2 : list string) :
  logs m ws1 → (∀ a, logs (f a) ws2) → logs (m ≫= f) (ws1 ++ ws2).
Proof.
  intros Hm Hf w. rewrite exec_bind, Hf, Hm. by rewrite app_assoc.
Qed.

Lemma logs_getProp (l : loc) (k : key) : logs (getProp l k) [].
Proof. intros w. by rewrite app_nil_r. Qed.

Lemma logs_setProp (l : loc) (k : key) (v : num) : logs (setProp l k v) [].
Proof. intros w. unfold exec, setProp; simpl. by rewrite app_nil_r. Qed.

Lemma logs_alloc (o : Obj) : logs (alloc o) [].
Proof. intros w. unfold exec, alloc; simpl. by rewrite app_nil_r. Qed.

Lemma logs_getScratch : logs getScratch [].
Proof. intros w. by rewrite app_nil_r. Qed.

Lemma logs_setScratch (s : FrameScratch) : logs (setScratch s) [].
Proof. intros w. unfold exec, setScratch; simpl. by rewrite app_nil_r. Qed.

Lemma logs_warn (msg : string) : logs (Notify.warn msg) [msg].
Proof. intros w. done. Qed.

Create HintDb logs.
#[export] Hint Resolve logs_ret logs_getProp logs_setProp logs_alloc logs_getScratch
  logs_setScratch logs_warn : logs.

Ltac logs_step :=
  lazy zeta;
  first
    [ solve [ eauto with logs ]
    | eapply logs_bind; [ | intros ? ] ].

Ltac logs_steps := eapply logs_eq; [ repeat logs_step | reflexivity ].

Lemma logs_computeCoefficients this : logs (computeCoefficients this) [].
Proof. unfold computeCoefficients. logs_steps. Qed.

Lemma logs_makeTranslate x y z m : logs (Matrix.makeTranslate x y z m) [].
Proof.
  unfold Matrix.makeTranslate, Matrix.setRow, Matrix.set. logs_steps.
Qed.

Lemma logs_computeCoordinateFrame latitude longitude m :
  logs (computeCoordinateFrame latitude longitude m) [].
Proof. unfold computeCoordinateFrame, Matrix.set. logs_steps. Qed.

Lemma logs_convertLatLongHeightToXYZ this a b c result :
  logs (convertLatLongHeightToXYZ this a b c result)
       (deprecations (ConvertLatLongHeightToXYZ a b c result)).
Proof.
  unfold convertLatLongHeightToXYZ, Vec3.create. destruct result; logs_steps.
Qed.

Lemma logs_convertXYZToLatLongHeight this a b c result :
  logs (convertXYZToLatLongHeight this a b c result)
       (deprecations (ConvertXYZToLatLongHeight a b c result)).
Proof.
  unfold convertXYZToLatLongHeight, Vec3.create. destruct result; logs_steps.
Qed.

#[export] Hint Resolve logs_computeCoefficients logs_makeTranslate
  logs_computeCoordinateFrame logs_convertLatLongHeightToXYZ
  logs_convertXYZToLatLongHeight : logs.

Lemma logs_call (this : loc) (c : Call) : logs (call this c) (deprecations c).
Proof.
  destruct c; cbn [call]; unfold ignore.
  - unfold setRadiusEquator. logs_steps.
  - unfold getRadiusEquator. logs_steps.
  - unfold setRadiusPolar. logs_steps.
  - unfold getRadiusPolar. logs_steps.
  - destruct result; logs_steps.
  - destruct result; logs_steps.
  - unfold computeLocalUpVector. logs_steps.
  - unfold isWGS84. logs_steps.
  - logs_steps.
  - unfold computeLocalToWorldTransformFromLatLongHeight, Matrix.create.
    destruct result; logs_steps.
  - unfold computeLocalToWorldTransformFromXYZ, Matrix.create. logs_steps.
  - logs_steps.
Qed.

(** Which calls warn: a conversion or the transform from geodetic
    coordinates called without its result container, and every call of
    [computeLocalUpVector] and [computeLocalToWorldTransformFromXYZ]
    (they call [convertXYZToLatLongHeight] without one).  Each appends
    one line to the log; no other call logs anything, and nothing is
    ever removed from the log. *)
Theorem deprecation_warnings (this : loc) (cs : list Call) (w : World) :
  warnings (exec (calls this cs) w) = warnings w ++ flat_map deprecations cs.
Proof.
  revert w. induction cs as [|c cs IH]; intros w; cbn [calls flat_map].
  - by rewrite exec_ret, app_nil_r.
  - rewrite exec_bind, IH, (logs_call this c w). by rewrite app_assoc.
Qed.

(** *** Objects and the scratch vectors *)

Lemma steady_ret {A} (a : A) : steady (mret a : M A).
Proof. intros w. done. Qed.

Lemma steady_bind {A B} (m : M A) (f : A → M B) :
  steady m → (∀ a, steady (f a)) → steady (m ≫= f).
Proof.
  intros Hm Hf w. rewrite exec_bind.
  destruct (Hm w) as [Hs Hv], (Hf (eval m w) (exec m w)) as [Hs' Hv']. split; auto.
Qed.

Lemma steady_getProp (l : loc) (k : key) : steady (getProp l k).
Proof. intros w. done. Qed.

Lemma steady_setProp (l : loc) (k : key) (v : num) : steady (setProp l k v).
Proof. intros w. split; [done|]. intros l'. by rewrite valid_setProp. Qed.

Lemma steady_alloc (o : Obj) : steady (alloc o).
Proof.
  intros w. split; [done|]. intros l Hl. unfold exec, alloc; simpl.
  rewrite lookup_insert_is_Some. destruct (decide (fresh (dom (heap w)) = l)); auto.
Qed.

Lemma steady_warn (msg : string) : steady (Notify.warn msg).
Proof. intros w. done. Qed.

Lemma steady_computeCoordinateFrame latitude longitude m :
  steady (computeCoordinateFrame latitude longitude m).
Proof.
  intros w. split.
  - intros Hok. by apply computeCoordinateFrame_spec.
  - intros l Hl. rewrite computeCoordinateFrame_run. cbv zeta.
    by rewrite writes_valid.
Qed.

Create HintDb steady.
#[export] Hint Resolve steady_ret steady_getProp steady_setProp steady_alloc
  steady_warn steady_computeCoordinateFrame : steady.

Ltac steady_step :=
  lazy zeta;
  first
    [ solve [ auto with steady ]
    | apply steady_bind; [ | intros ? ] ].

Ltac steady_steps := repeat steady_step.

Lemma steady_computeCoefficients this : steady (computeCoefficients this).
Proof. unfold computeCoefficients. steady_steps. Qed.

Lemma steady_makeTranslate x y z m : steady (Matrix.makeTranslate x y z m).
Proof. unfold Matrix.makeTranslate, Matrix.setRow, Matrix.set. steady_steps. Qed.

Lemma steady_convertLatLongHeightToXYZ this a b c result :
  steady (convertLatLongHeightToXYZ this a b c result).
Proof. unfold convertLatLongHeightToXYZ, Vec3.create. destruct result; steady_steps. Qed.

Lemma steady_convertXYZToLatLongHeight this a b c result :
  steady (convertXYZToLatLongHeight this a b c result).
Proof. unfold convertXYZToLatLongHeight, Vec3.create. destruct result; steady_steps. Qed.

#[export] Hint Resolve steady_computeCoefficients steady_makeTranslate
  steady_convertLatLongHeightToXYZ steady_convertXYZToLatLongHeight : steady.

Lemma steady_call (this : loc) (c : Call) : steady (call this c).
Proof.
  destruct c; cbn [call]; unfold ignore.
  - unfold setRadiusEquator. steady_steps.
  - unfold getRadiusEquator. steady_steps.
  - unfold setRadiusPolar. steady_steps.
  - unfold getRadiusPolar. steady_steps.
  - steady_steps.
  - steady_steps.
  - unfold computeLocalUpVector. steady_steps.
  - unfold isWGS84. steady_steps.
  - steady_steps.
  - unfold computeLocalToWorldTransformFromLatLongHeight, Matrix.create.
    destruct result; steady_steps.
  - unfold computeLocalToWorldTransformFromXYZ, Matrix.create. steady_steps.
  - steady_steps.
Qed.

Lemma steady_calls (this : loc) (cs : list Call) : steady (calls this cs).
Proof.
  induction cs as [|c cs IH]; cbn [calls].
  - apply steady_ret.
  - apply steady_bind; [apply steady_call | intros; apply IH].
Qed.

(** The frame does not depend on what was computed before: the scratch
    vectors of [computeCoordinateFrame] are shared by all calls, and
    the third component of [east] is never written, but after any
    sequence of calls of the methods the rows written for (latitude,
    longitude) are the same east, north and up, and no call removes
    the matrix. *)
Theorem computeCoordinateFrame_after_calls
    (w : World) (this m : loc) (cs : list Call) (latitude longitude : num) :
  scratch_ok w → is_Some (heap w !! m) →
  let w1 := exec (calls this cs) w in
  let w' := exec (computeCoordinateFrame latitude longitude m) w1 in
  is_Some (heap w1 !! m) ∧
  row3 w' m 0 = some3 (eastVector longitude) ∧
  row3 w' m 1 = some3 (northVector latitude longitude) ∧
  row3 w' m 2 = some3 (upVector latitude longitude).
Proof.
  intros Hok Hv w1 w'.
  destruct (steady_calls this cs w) as [Hs Hk].
  specialize (Hs Hok). specialize (Hk m Hv). fold w1 in Hs, Hk.
  split; [exact Hk|].
  destruct (computeCoordinateFrame_spec w1 m latitude longitude Hs) as (Hrows & _).
  by apply Hrows.
Qed.

Lemma computeCoordinateFrame_after_calls_witness :
  let w1 := exec (calls wgs84_model
                    [ComputeCoordinateFrame (Fin 1) (Fin 2) wgs84_model]) wgs84_world in
  row3 (exec (computeCoordinateFrame (Fin 0) (Fin 0) wgs84_model) w1) wgs84_model 2 =
    some3 (upVector (Fin 0) (Fin 0)).
Proof.
  apply (computeCoordinateFrame_after_calls wgs84_world wgs84_model wgs84_model
           [ComputeCoordinateFrame (Fin 1) (Fin 2) wgs84_model] (Fin 0) (Fin 0)
           wgs84_world_scratch_ok wgs84_model_valid).
Defined.

Lemma upVector_unit (lat lon : R) :
  dot3 (upVector (Fin lat) (Fin lon)) (upVector (Fin lat) (Fin lon)) = Fin 1.
Proof.
  unfold dot3, upVector. cbn [Math.sin Math.cos Number.mul Number.add]. f_equal.
  pose proof (sin2_cos2 lat) as H1. pose proof (sin2_cos2 lon) as H2.
  unfold Rsqr in H1, H2.
  replace (cos lon * cos lat * (cos lon * cos lat) +
           sin lon * cos lat * (sin lon * cos lat) + sin lat * sin lat)%R
    with ((sin lon * sin lon + cos lon * cos lon) * (cos lat * cos lat) +
          sin lat * sin lat)%R by ring.
  rewrite H2. lra.
Qed.

(** [computeLocalUpVector] returns a new array holding
    (cos(lon)cos(lat), sin(lon)cos(lat), sin(lat)) for the latitude and
    longitude that [convertXYZToLatLongHeight] derives from (X, Y, Z), a
    unit vector when those are finite.  Every call logs the deprecation
    warning of [convertXYZToLatLongHeight] (the call in the source
    passes no result container) and creates two arrays; no object that
    existed before is changed. *)
Theorem computeLocalUpVector_effect (w : World) (this : loc) (X Y Z : num) :
  let op := computeLocalUpVector this X Y Z in
  let r := eval op w in
  let w' := exec op w in
  let latitude := (llh_of w this X Y Z).1.1 in
  let longitude := (llh_of w this X Y Z).1.2 in
  heap w !! r = None ∧
  components w' r =
    (Some (Math.cos longitude * Math.cos latitude)%js,
     Some (Math.sin longitude * Math.cos latitude)%js,
     Some (Math.sin latitude)) ∧
  (∀ lat lon : R, latitude = Fin lat → longitude = Fin lon →
     ∃ x y z : R, components w' r = (Some (Fin x), Some (Fin y), Some (Fin z)) ∧
                  (x * x + y * y + z * z = 1)%R) ∧
  warnings w' = warnings w ++ [warn_convertXYZToLatLongHeight] ∧
  (∃ coord, coord ≠ r ∧ heap w !! coord = None ∧
            dom (heap w') = {[ r ]} ∪ ({[ coord ]} ∪ dom (heap w))) ∧
  (∀ l k, is_Some (heap w !! l) → field w' l k = field w l k).
Proof.
  intros op r w' latitude longitude.
  destruct (computeLocalUpVector_run w this X Y Z)
    as (Hf & Hfc & Hne & Hc & Hd & Hw & _ & Ho).
  fold op r w' latitude longitude in Hf, Hfc, Hne, Hc, Hd, Hw, Ho.
  split; [exact Hf|]. split; [exact Hc|]. split; [|split; [exact Hw|split]].
  - intros lat lon Hlat Hlon. rewrite Hc, Hlat, Hlon.
    exists (cos lon * cos lat)%R, (sin lon * cos lat)%R, (sin lat).
    split; [reflexivity|].
    pose proof (upVector_unit lat lon) as Hu.
    unfold dot3, upVector in Hu. cbn [Math.sin Math.cos Number.mul Number.add] in Hu.
    by injection Hu.
  - eexists. split; [|split; [exact Hfc | exact Hd]]. by apply not_eq_sym.
  - intros l k Hl. apply Ho.
    + intros ->. rewrite Hf in Hl. by destruct Hl.
    + intros ->. rewrite Hfc in Hl. by destruct Hl.
Qed.

(** The transform from geodetic coordinates: its translation row is
    what [convertLatLongHeightToXYZ] gives for the same arguments, its
    rotation rows are the frame of [computeCoordinateFrame] at the
    latitude and longitude given, and its fourth column is (0, 0, 0, 1).
    The matrix given is used as the container of the position in
    between, which leaves no trace.  With a matrix given nothing is
    logged or created; without, one warning is logged (not the one of
    the conversion) and one matrix created. *)
Theorem computeLocalToWorldTransformFromLatLongHeight_effect
    (w : World) (this m : loc) (latitude longitude height : num) :
  scratch_ok w → is_Some (heap w !! m) →
  let position := convertLatLongHeightToXYZ this latitude longitude height None in
  let transform (r : loc) (w' : World) :=
    row3 w' r 0 = some3 (eastVector longitude) ∧
    row3 w' r 1 = some3 (northVector latitude longitude) ∧
    row3 w' r 2 = some3 (upVector latitude longitude) ∧
    row3 w' r 3 = components (exec position w) (eval position w) ∧
    field w' r (Matrix.entry 0 3) = Some (Fin 0) ∧
    field w' r (Matrix.entry 1 3) = Some (Fin 0) ∧
    field w' r (Matrix.entry 2 3) = Some (Fin 0) ∧
    field w' r (Matrix.entry 3 3) = Some (Fin 1) ∧
    (∀ l k, l ≠ r → field w' l k = field w l k) in
  let given :=
    computeLocalToWorldTransformFromLatLongHeight this latitude longitude height (Some m) in
  let omitted :=
    computeLocalToWorldTransformFromLatLongHeight this latitude longitude height None in
  (eval given w = m ∧
   transform m (exec given w) ∧
   warnings (exec given w) = warnings w ∧
   dom (heap (exec given w)) = dom (heap w)) ∧
  (heap w !! eval omitted w = None ∧
   transform (eval omitted w) (exec omitted w) ∧
   warnings (exec omitted w) =
     warnings w ++ [warn_computeLocalToWorldTransformFromLatLongHeight] ∧
   dom (heap (exec omitted w)) = {[ eval omitted w ]} ∪ dom (heap w)).
Proof.
  intros Hok Hv position transform given omitted.
  destruct (convertLatLongHeightToXYZ_omitted w this latitude longitude height)
    as (_ & Hpos & _).
  fold position in Hpos.
  destruct (computeLocalToWorldTransformFromLatLongHeight_given w this m
              latitude longitude height Hok Hv)
    as (He & (R0 & R1 & R2 & R3) & (C0 & C1 & C2 & C3) & Ho & Hd & Hw & _).
  destruct (computeLocalToWorldTransformFromLatLongHeight_omitted w this
              latitude longitude height Hok)
    as (Hf & (R0' & R1' & R2' & R3') & (C0' & C1' & C2' & C3') & Ho' & Hd' & Hw' & _).
  fold given in He, R0, R1, R2, R3, C0, C1, C2, C3, Ho, Hd, Hw.
  fold omitted in Hf, R0', R1', R2', R3', C0', C1', C2', C3', Ho', Hd', Hw'.
  unfold transform. rewrite Hpos. split.
  - split; [exact He|]. split; [|split; [exact Hw | exact Hd]].
    repeat (split; [assumption|]). exact Ho.
  - split; [exact Hf|]. split; [|split; [exact Hw' | exact Hd']].
    repeat (split; [assumption|]). exact Ho'.
Qed.

Lemma computeLocalToWorldTransformFromLatLongHeight_effect_witness :
  eval (computeLocalToWorldTransformFromLatLongHeight wgs84_model (Fin 0) (Fin 0) (Fin 0)
          (Some wgs84_model)) wgs84_world = wgs84_model.
Proof.
  apply (computeLocalToWorldTransformFromLatLongHeight_effect wgs84_world wgs84_model
           wgs84_model (Fin 0) (Fin 0) (Fin 0) wgs84_world_scratch_ok wgs84_model_valid).
Defined.

(** ** Models with other radii *)

Lemma has_radii_stored (w : World) (this : loc) (re rp : R) :
  has_radii w this re rp → re ≠ 0%R →
  is_Some (heap w !! this) ∧
  stored w this _radiusEquator = Fin re ∧
  stored w this _radiusPolar = Fin rp ∧
  stored w this _eccentricitySquared = Fin (1 - rp / re * (rp / re)).
Proof.
  intros (He & Hp & Hc) Hre. unfold coefficients_consistent in Hc.
  split.
  - unfold field in He. destruct (heap w !! this); [done|discriminate].
  - unfold stored. rewrite Hc, He, Hp. cbn [default from_option]. unfold Datatypes.id.
    split; [done|]. split; [done|].
    rewrite eccentricity_of_Fin by done. f_equal. by field.
Qed.

Lemma wgs84_has_radii : has_radii wgs84_world wgs84_model 6378137 6356752.3142.
Proof.
  destruct (EllipsoidModel_fields loaded) as (_ & _ & He & Hp & Hc). by split.
Qed.

Lemma setRadii_has_radii (w : World) (this : loc) (re rp : R) :
  is_Some (heap w !! this) →
  has_radii (exec (setRadiusEquator this (Fin re);; setRadiusPolar this (Fin rp)) w)
            this re rp.
Proof.
  intros Hv. destruct (setRadii_fields w this (Fin re) (Fin rp) Hv)
    as (_ & He & Hp & Hc & _).
  split; [exact He|]. split; [exact Hp|].
  unfold coefficients_consistent. by rewrite Hc, He, Hp.
Qed.

Lemma unit_sphere_has_radii : has_radii unit_sphere_world wgs84_model 1 1.
Proof. apply setRadii_has_radii, wgs84_model_valid. Qed.

Lemma unit_sphere_scratch_ok : scratch_ok unit_sphere_world.
Proof.
  unfold scratch_ok, unit_sphere_world.
  destruct (setRadii_fields wgs84_world wgs84_model (Fin 1) (Fin 1) wgs84_model_valid)
    as (_ & _ & _ & _ & -> & _).
  apply wgs84_world_scratch_ok.
Qed.

(** What the two conversions, one after the other, give for a model of
    real radii. *)
Lemma roundTrip_has_radii (w : World) (this : loc) (re rp : R) (latitude longitude height : num) :
  has_radii w this re rp → re ≠ 0%R →
  let rt := roundTrip this latitude longitude height in
  let e2 := (1 - rp / re * (rp / re))%R in
  components (exec rt w) (eval rt w) =
    some3 (let '(X, Y, Z) :=
             geodeticToCartesian (Fin re) (Fin e2) latitude longitude height in
           cartesianToGeodetic (Fin re) (Fin rp) (Fin e2) X Y Z).
Proof.
  intros Hm Hre rt e2.
  destruct (has_radii_stored w this re rp Hm Hre) as (Hv & Sa & Sb & Se).
  unfold rt. rewrite roundTrip_run by exact Hv.
  unfold xyz_of, llh_of. by rewrite Sa, Sb, Se.
Qed.

Section OtherRadii.
Local Open Scope R_scope.

(** From a point of any ellipsoid the round trip is exact. *)
Lemma surface_round_trip (re rp lat lon0 lon : R) (k : nat) :
  0 < re -> 0 < rp ->
  - (PI / 2) < lat < PI / 2 -> - PI < lon0 <= PI ->
  lon = lon0 + 2 * INR k * PI \/ lon = lon0 - 2 * INR k * PI ->
  let e2 := 1 - rp / re * (rp / re) in
  let '(X, Y, Z) := geodeticToCartesian (Fin re) (Fin e2) (Fin lat) (Fin lon) (Fin 0) in
  cartesianToGeodetic (Fin re) (Fin rp) (Fin e2) X Y Z = (Fin lat, Fin lon0, Fin 0).
Proof.
  intros Hre Hrp Hlat Hlon0 Hlon e2.
  destruct (surface_latitude re rp e2 lat)
    as (Hpos & HN & HD & Hatan); [lra | lra | unfold e2; lra | done |].
  rewrite geodeticToCartesian_Fin by exact Hpos. cbv zeta.
  set (N := RprimeVertical re e2 lat) in *.
  assert (Hc : 0 < cos lat) by (apply cos_gt_0; lra).
  assert (Hr : 0 < (N + 0) * cos lat).
  { apply Rmult_lt_0_compat; lra. }
  rewrite cartesianToGeodetic_Fin.
  - rewrite sqrt_polar by lra. rewrite Hatan.
    rewrite (Ratan2_turns _ lon0 k) by done.
    fold N. repeat f_equal. field. lra.
  - lra.
  - rewrite sqrt_polar by lra. exact HD.
  - rewrite sqrt_polar by lra. rewrite Hatan. exact Hpos.
Qed.

(** On a sphere the round trip is exact from every height above the
    centre. *)
Lemma sphere_round_trip (r lat lon0 lon h : R) (k : nat) :
  0 < r -> - r < h ->
  - (PI / 2) < lat < PI / 2 -> - PI < lon0 <= PI ->
  lon = lon0 + 2 * INR k * PI \/ lon = lon0 - 2 * INR k * PI ->
  let '(X, Y, Z) := geodeticToCartesian (Fin r) (Fin 0) (Fin lat) (Fin lon) (Fin h) in
  cartesianToGeodetic (Fin r) (Fin r) (Fin 0) X Y Z = (Fin lat, Fin lon0, Fin h).
Proof.
  intros Hr Hh Hlat Hlon0 Hlon.
  assert (Hpos : forall x, 0 < 1 - 0 * (sin x)²) by (intros; lra).
  assert (HN : forall x, RprimeVertical r 0 x = r).
  { intros x. unfold RprimeVertical.
    replace (1 - 0 * (sin x)²) with 1 by lra. rewrite sqrt_1. field. }
  rewrite geodeticToCartesian_Fin by apply Hpos. cbv zeta. rewrite HN.
  assert (Hc : 0 < cos lat) by (apply cos_gt_0; lra).
  assert (Hp : 0 < (r + h) * cos lat) by (apply Rmult_lt_0_compat; lra).
  assert (Hq : ((r * (1 - 0) + h) * sin lat +
                (r * r - r * r) / (r * r) * r *
                sin (Ratan2 ((r * (1 - 0) + h) * sin lat * r) ((r + h) * cos lat * r)) *
                sin (Ratan2 ((r * (1 - 0) + h) * sin lat * r) ((r + h) * cos lat * r)) *
                sin (Ratan2 ((r * (1 - 0) + h) * sin lat * r) ((r + h) * cos lat * r))) /
               ((r + h) * cos lat -
                0 * r *
                cos (Ratan2 ((r * (1 - 0) + h) * sin lat * r) ((r + h) * cos lat * r)) *
                cos (Ratan2 ((r * (1 - 0) + h) * sin lat * r) ((r + h) * cos lat * r)) *
                cos (Ratan2 ((r * (1 - 0) + h) * sin lat * r) ((r + h) * cos lat * r))) =
               tan lat).
  { unfold tan. field. split; [lra|]. split; [|lra].
    apply Rgt_not_eq. lra. }
  rewrite cartesianToGeodetic_Fin.
  - rewrite sqrt_polar by lra. rewrite Hq, atan_tan by lra.
    rewrite (Ratan2_turns _ lon0 k) by done.
    rewrite HN. repeat f_equal. field. lra.
  - lra.
  - rewrite sqrt_polar by lra. apply Rgt_not_eq. lra.
  - apply Hpos.
Qed.

End OtherRadii.

Lemma primeVerticalRadius_sphere (r t : R) :
  primeVerticalRadius (Fin r) (Fin 0) (Fin t) = Fin r.
Proof.
  rewrite primeVerticalRadius_Fin by lra. unfold RprimeVertical.
  replace (1 - 0 * (sin t)²)%R with 1%R by lra. rewrite sqrt_1.
  f_equal. field.
Qed.

(** A sphere: when both radii are the same nonzero number [r] the
    coefficient stored is exactly 0, and [convertLatLongHeightToXYZ]
    is the spherical formula ((r + h) cos(lat) cos(lon),
    (r + h) cos(lat) sin(lon), (r + h) sin(lat)), in the arithmetic of
    the code and for all numbers lat, lon and h, NaN and the
    infinities included. *)
Theorem sphere_conversion
    (w : World) (this c : loc) (r : R) (latitude longitude height : num) :
  is_Some (heap w !! c) →
  has_radii w this r r → r ≠ 0%R →
  field w this _eccentricitySquared = Some (Fin 0) ∧
  components (exec (convertLatLongHeightToXYZ this latitude longitude height (Some c)) w) c =
    (Some ((Fin r + height) * Math.cos latitude * Math.cos longitude)%js,
     Some ((Fin r + height) * Math.cos latitude * Math.sin longitude)%js,
     Some ((Fin r + height) * Math.sin latitude)%js).
Proof.
  intros Hc Hm Hr.
  assert (He : field w this _eccentricitySquared = Some (Fin 0)).
  { destruct Hm as (Ha & Hb & Hcc). unfold coefficients_consistent in Hcc.
    rewrite Hcc, Ha, Hb. cbn [default from_option]. unfold Datatypes.id.
    rewrite eccentricity_of_Fin by done. do 2 f_equal. by field. }
  split; [exact He|].
  destruct (convertLatLongHeightToXYZ_given w this c latitude longitude height)
    as (_ & Hcomp & _).
  rewrite (Hcomp Hc). unfold xyz_of, stored.
  destruct Hm as (Ha & _ & _). rewrite Ha, He. cbn [default from_option].
  unfold Datatypes.id, geodeticToCartesian. cbv zeta. cbn [some3].
  destruct latitude as [t| | |].
  - rewrite primeVerticalRadius_sphere.
    cbn [Number.sub Number.add Number.flip Number.mul].
    replace (r * (1 + - 0))%R with r by lra. reflexivity.
  - destruct height; reflexivity.
  - destruct height; reflexivity.
  - destruct height; reflexivity.
Qed.

Lemma sphere_conversion_witness :
  components
    (exec (convertLatLongHeightToXYZ wgs84_model (Fin 0) (Fin 0) PInf (Some wgs84_model))
       unit_sphere_world) wgs84_model =
    (Some ((Fin 1 + PInf) * Math.cos (Fin 0) * Math.cos (Fin 0))%js,
     Some ((Fin 1 + PInf) * Math.cos (Fin 0) * Math.sin (Fin 0))%js,
     Some ((Fin 1 + PInf) * Math.sin (Fin 0))%js).
Proof.
  assert (Hv : is_Some (heap unit_sphere_world !! wgs84_model)).
  { apply (has_radii_stored _ _ 1 1 unit_sphere_has_radii). lra. }
  apply (sphere_conversion unit_sphere_world wgs84_model wgs84_model 1
           (Fin 0) (Fin 0) PInf Hv unit_sphere_has_radii).
  lra.
Defined.

(** On a sphere (both radii [r]) the round trip through
    [convertLatLongHeightToXYZ] and [convertXYZToLatLongHeight] is
    exact in exact arithmetic: latitude in (-pi/2, pi/2), longitude in
    (-pi, pi] and any height above the centre come back as they
    were. *)
Theorem sphere_round_trip_exact (w : World) (this : loc) (r lat lon h : R) :
  has_radii w this r r →
  (0 < r)%R → (- r < h)%R →
  (- (PI / 2) < lat < PI / 2)%R → (- PI < lon <= PI)%R →
  let rt := roundTrip this (Fin lat) (Fin lon) (Fin h) in
  components (exec rt w) (eval rt w) = (Some (Fin lat), Some (Fin lon), Some (Fin h)).
Proof.
  intros Hm Hr Hh Hlat Hlon rt.
  unfold rt. rewrite (roundTrip_has_radii w this r r) by (done || lra). cbv zeta.
  replace (1 - r / r * (r / r))%R with 0%R by (field; lra).
  pose proof (sphere_round_trip r lat lon lon h 0 Hr Hh Hlat Hlon) as Hs.
  destruct (geodeticToCartesian (Fin r) (Fin 0) (Fin lat) (Fin lon) (Fin h)) as [[X Y] Z].
  rewrite Hs; [done|]. left. simpl. lra.
Qed.

Lemma sphere_round_trip_exact_witness :
  let rt := roundTrip wgs84_model (Fin 0) (Fin 0) (Fin 0) in
  components (exec rt unit_sphere_world) (eval rt unit_sphere_world) =
    (Some (Fin 0), Some (Fin 0), Some (Fin 0)).
Proof.
  pose proof PI_RGT_0 as Hpi.
  apply (sphere_round_trip_exact unit_sphere_world wgs84_model 1 0 0 0
           unit_sphere_has_radii); lra.
Defined.

(** From a point of the surface (height 0) of any ellipsoid, whatever
    its two positive radii, the round trip is exact in exact
    arithmetic; a longitude outside (-pi, pi] comes back reduced to
    that interval. *)
Theorem surface_round_trip_exact
    (w : World) (this : loc) (re rp lat lon0 lon : R) (k : nat) :
  has_radii w this re rp →
  (0 < re)%R → (0 < rp)%R →
  (- (PI / 2) < lat < PI / 2)%R → (- PI < lon0 <= PI)%R →
  (lon = lon0 + 2 * INR k * PI ∨ lon = lon0 - 2 * INR k * PI)%R →
  let rt := roundTrip this (Fin lat) (Fin lon) (Fin 0) in
  components (exec rt w) (eval rt w) = (Some (Fin lat), Some (Fin lon0), Some (Fin 0)).
Proof.
  intros Hm Hre Hrp Hlat Hlon0 Hlon rt.
  unfold rt. rewrite (roundTrip_has_radii w this re rp) by (done || lra). cbv zeta.
  pose proof (surface_round_trip re rp lat lon0 lon k Hre Hrp Hlat Hlon0 Hlon) as Hs.
  cbv zeta in Hs.
  destruct (geodeticToCartesian (Fin re) (Fin (1 - rp / re * (rp / re)))
              (Fin lat) (Fin lon) (Fin 0)) as [[X Y] Z].
  by rewrite Hs.
Qed.

Lemma surface_round_trip_exact_witness :
  let rt := roundTrip wgs84_model (Fin 0) (Fin (0 + 2 * INR 1 * PI)) (Fin 0) in
  components (exec rt wgs84_world) (eval rt wgs84_world) =
    (Some (Fin 0), Some (Fin 0), Some (Fin 0)).
Proof.
  pose proof PI_RGT_0 as Hpi.
  apply (surface_round_trip_exact wgs84_world wgs84_model 6378137 6356752.3142
           0 0 (0 + 2 * INR 1 * PI) 1 wgs84_has_radii); [lra | lra | lra | lra |].
  by left.
Defined.

Lemma positive_under_root (q s c : R) :
  q ≠ 0%R → (s * s + c * c = 1)%R → (0 < 1 - (1 - q * q) * (s * s))%R.
Proof.
  intros Hq Hsc.
  assert (Hq2 : (0 < q * q)%R).
  { destruct (Rtotal_order q 0) as [H|[H|H]]; [|done|]; nra. }
  assert (Hs : (0 <= s * s)%R) by nra.
  assert (Hc : (0 <= c * c)%R) by nra.
  replace (1 - (1 - q * q) * (s * s))%R with (c * c + q * q * (s * s))%R by lra.
  destruct (Req_dec s 0) as [->|Hs0].
  - nra.
  - assert (0 < s * s)%R.
    { destruct (Rtotal_order s 0) as [H|[H|H]]; [|done|]; nra. }
    assert (0 < q * q * (s * s))%R by (by apply Rmult_lt_0_compat).
    lra.
Qed.

(** In exact arithmetic, for a model with nonzero real radii and real
    arguments: the point that [convertLatLongHeightToXYZ] gives for
    height 0 is on the ellipsoid, (X/re)^2 + (Y/re)^2 + (Z/rp)^2 = 1,
    and the point for height h is that point moved by h along
    (cos(lat)cos(lon), cos(lat)sin(lon), sin(lat)), the up vector of
    the local frame.  (In floating point the equation holds up to
    rounding for ordinary radii and heights; it is lost where a sum or
    product overflows or the coefficient is stored as 1.) *)
Theorem convertLatLongHeightToXYZ_geometry
    (w : World) (this r : loc) (re rp lat lon h : R) :
  is_Some (heap w !! r) →
  has_radii w this re rp →
  re ≠ 0%R → rp ≠ 0%R →
  ∃ x0 y0 z0 : R,
    components (exec (convertLatLongHeightToXYZ this (Fin lat) (Fin lon) (Fin 0) (Some r)) w) r
      = (Some (Fin x0), Some (Fin y0), Some (Fin z0)) ∧
    (x0 / re * (x0 / re) + y0 / re * (y0 / re) + z0 / rp * (z0 / rp) = 1)%R ∧
    components (exec (convertLatLongHeightToXYZ this (Fin lat) (Fin lon) (Fin h) (Some r)) w) r
      = (Some (Fin (x0 + h * (cos lat * cos lon))),
         Some (Fin (y0 + h * (cos lat * sin lon))),
         Some (Fin (z0 + h * sin lat))).
Proof.
  intros Hr Hm Hre Hrp.
  destruct (has_radii_stored w this re rp Hm Hre) as (_ & Sa & _ & Se).
  set (q := (rp / re)%R) in *.
  assert (Hq : q ≠ 0%R).
  { unfold q. intros H0. apply Hrp.
    apply (Rmult_eq_compat_r re) in H0. unfold Rdiv in H0.
    rewrite Rmult_assoc, Rinv_l in H0 by done. lra. }
  pose proof (sin2_cos2 lat) as Hsc. unfold Rsqr in Hsc.
  pose proof (sin2_cos2 lon) as Hsl. unfold Rsqr in Hsl.
  assert (Hpos : (0 < 1 - (1 - q * q) * (sin lat)²)%R).
  { unfold Rsqr. by apply (positive_under_root q (sin lat) (cos lat)). }
  set (N := RprimeVertical re (1 - q * q) lat).
  exists ((N + 0) * cos lat * cos lon)%R, ((N + 0) * cos lat * sin lon)%R,
         ((N * (1 - (1 - q * q)) + 0) * sin lat)%R.
  assert (Hxyz : ∀ t, xyz_of w this (Fin lat) (Fin lon) (Fin t) =
    (Fin ((N + t) * cos lat * cos lon), Fin ((N + t) * cos lat * sin lon),
     Fin ((N * (1 - (1 - q * q)) + t) * sin lat))).
  { intros t. unfold xyz_of. rewrite Sa, Se.
    by rewrite geodeticToCartesian_Fin by exact Hpos. }
  split; [|split].
  - destruct (convertLatLongHeightToXYZ_given w this r (Fin lat) (Fin lon) (Fin 0))
      as (_ & Hc & _).
    by rewrite (Hc Hr), Hxyz.
  - set (W := sqrt (1 - (1 - q * q) * (sin lat)²)).
    assert (HW0 : (0 < W)%R) by (by apply sqrt_lt_R0).
    assert (HW : (W * W = cos lat * cos lat + q * q * (sin lat * sin lat))%R).
    { unfold W. rewrite sqrt_def by lra. unfold Rsqr. lra. }
    assert (HN : N = (re * / W)%R) by reflexivity.
    rewrite HN.
    replace ((re * / W + 0) * cos lat * cos lon / re *
             ((re * / W + 0) * cos lat * cos lon / re) +
             (re * / W + 0) * cos lat * sin lon / re *
             ((re * / W + 0) * cos lat * sin lon / re) +
             (re * / W * (1 - (1 - q * q)) + 0) * sin lat / rp *
             ((re * / W * (1 - (1 - q * q)) + 0) * sin lat / rp))%R
      with (/ W * / W *
            (cos lat * cos lat * (sin lon * sin lon + cos lon * cos lon) +
             q * q * (sin lat * sin lat)))%R
      by (unfold q; field; repeat split; lra).
    rewrite Hsl, Rmult_1_r, <- HW. field. lra.
  - destruct (convertLatLongHeightToXYZ_given w this r (Fin lat) (Fin lon) (Fin h))
      as (_ & Hc & _).
    rewrite (Hc Hr), Hxyz. cbn [some3]. repeat f_equal; ring.
Qed.

Lemma convertLatLongHeightToXYZ_geometry_witness :
  ∃ x0 y0 z0 : R,
    components (exec (convertLatLongHeightToXYZ wgs84_model (Fin 0) (Fin 0) (Fin 0)
                        (Some wgs84_model)) wgs84_world) wgs84_model
      = (Some (Fin x0), Some (Fin y0), Some (Fin z0)) ∧
    (x0 / 6378137 * (x0 / 6378137) + y0 / 6378137 * (y0 / 6378137) +
     z0 / 6356752.3142 * (z0 / 6356752.3142) = 1)%R.
Proof.
  destruct (convertLatLongHeightToXYZ_geometry wgs84_world wgs84_model wgs84_model
              6378137 6356752.3142 0 0 0 wgs84_model_valid wgs84_has_radii)
    as (x0 & y0 & z0 & H1 & H2 & _); [lra | lra |].
  by exists x0, y0, z0.
Defined.

Lemma Ratan2_zero (x : R) : (0 <= x)%R → Ratan2 0 x = 0%R.
Proof.
  intros Hx. unfold Ratan2. destruct (decide (0 < x)%R) as [Hpos|Hn].
  - replace (0 / x)%R with 0%R by (field; lra). apply atan_0.
  - rewrite decide_False by lra. rewrite decide_False by lra.
    by rewrite decide_False by lra.
Qed.

Lemma stored_Fin (w : World) (this : loc) (k : key) (x : R) :
  field w this k = Some (Fin x) → stored w this k = Fin x.
Proof. intros H. unfold stored. by rewrite H. Qed.

(** In the equatorial plane (Z = 0), for a model that stores real
    numbers and a positive polar radius, with p = sqrt(X*X + Y*Y) and
    D = p - eccentricitySquared * radiusEquator in the arithmetic of
    the code: where D is not 0, [convertXYZToLatLongHeight] gives
    latitude 0 and height p - radiusEquator; where D is 0, as at the
    centre of a sphere, the quotient under the arctangent is 0/0 and
    latitude and height are NaN. *)
Theorem convertXYZToLatLongHeight_equatorial_plane
    (w : World) (this r : loc) (re rp e2 x y : R) :
  is_Some (heap w !! r) →
  field w this _radiusEquator = Some (Fin re) →
  field w this _radiusPolar = Some (Fin rp) →
  field w this _eccentricitySquared = Some (Fin e2) →
  (0 < rp)%R →
  let p := Math.sqrt (Fin x * Fin x + Fin y * Fin y)%js in
  let D := (p - Fin e2 * Fin re)%js in
  let w' := exec (convertXYZToLatLongHeight this (Fin x) (Fin y) (Fin 0) (Some r)) w in
  ∃ longitude : num,
    (D ≠ Fin 0 →
     components w' r = (Some (Fin 0), Some longitude, Some (p - Fin re)%js)) ∧
    (D = Fin 0 → components w' r = (Some NaN, Some longitude, Some NaN)).
Proof.
  intros Hr Ha Hb He Hrp p D w'.
  destruct (convertXYZToLatLongHeight_given w this r (Fin x) (Fin y) (Fin 0))
    as (_ & Hc & _).
  specialize (Hc Hr). fold w' in Hc. rewrite Hc. clear Hc.
  unfold llh_of.
  rewrite (stored_Fin _ _ _ _ Ha), (stored_Fin _ _ _ _ Hb), (stored_Fin _ _ _ _ He).
  set (q := sqrt (x * x + y * y)).
  assert (Hq0 : (0 <= q)%R) by apply sqrt_pos.
  assert (Hsq : p = Fin q).
  { unfold p. cbn [Number.mul Number.add]. apply sqrt_Fin.
    pose proof (Rle_0_sqr x) as Hx. pose proof (Rle_0_sqr y) as Hy.
    unfold Rsqr in Hx, Hy. clear - Hx Hy. lra. }
  assert (Htheta : Ratan2 (0 * re) (q * rp) = 0%R).
  { replace (0 * re)%R with 0%R by lra. apply Ratan2_zero.
    apply Rmult_le_pos; lra. }
  assert (Hrr : (rp * rp)%R ≠ 0%R) by nra.
  assert (HA : (0 + (re * re + - (rp * rp)) / (rp * rp) * rp * sin 0 * sin 0 * sin 0)%R
               = 0%R).
  { rewrite sin_0. lra. }
  assert (HD : (q + - (e2 * re * cos 0 * cos 0 * cos 0))%R = (q + - (e2 * re))%R).
  { rewrite cos_0. lra. }
  assert (Hquot : bowringLatitude (Fin re) (Fin rp) (Fin e2) (Fin x) (Fin y) (Fin 0) =
                  Math.atan (Fin 0 / D)%js).
  { unfold bowringLatitude. fold p. unfold D. rewrite Hsq. cbv zeta.
    cbn [Number.mul Number.add Number.sub Number.flip Math.atan2].
    rewrite Htheta. cbn [Math.sin Math.cos].
    rewrite (div_Fin _ _ Hrr).
    cbn [Number.mul Number.add Number.sub Number.flip].
    by rewrite HA, HD. }
  unfold cartesianToGeodetic. cbv zeta. fold p. rewrite Hquot.
  exists (Math.atan2 (Fin y) (Fin x)). cbn [some3].
  assert (HDq : D = Fin (q + - (e2 * re))).
  { unfold D. rewrite Hsq. reflexivity. }
  rewrite HDq, Hsq. clear Hquot Htheta HA HD HDq Hsq. clearbody q.
  split.
  - intros Hne. assert (Hne' : (q + - (e2 * re))%R ≠ 0%R) by congruence.
    rewrite div_Fin by done.
    replace (0 / (q + - (e2 * re)))%R with 0%R by (by field).
    cbn [Math.atan]. rewrite atan_0.
    rewrite heightDivisor_Fin by (rewrite cos_0; lra).
    rewrite primeVerticalRadius_Fin by (rewrite sin_0, Rsqr_0; lra).
    rewrite cos_0, div_Fin by lra.
    unfold RprimeVertical. rewrite sin_0, Rsqr_0.
    replace (1 - e2 * 0)%R with 1%R by lra. rewrite sqrt_1.
    replace (q / 1)%R with q by field. replace (re / 1)%R with re by field.
    reflexivity.
  - intros [= Heq].
    assert (Hq : (Fin 0 / Fin (q + - (e2 * re)))%js = NaN).
    { unfold Number.div. rewrite decide_True by lra. by rewrite decide_True. }
    rewrite Hq. reflexivity.
Qed.

Lemma convertXYZToLatLongHeight_equatorial_plane_witness :
  ∃ longitude : num,
    components
      (exec (convertXYZToLatLongHeight wgs84_model (Fin 0) (Fin 0) (Fin 0) (Some wgs84_model))
         unit_sphere_world) wgs84_model =
      (Some NaN, Some longitude, Some NaN).
Proof.
  assert (Hv : is_Some (heap unit_sphere_world !! wgs84_model)).
  { apply (has_radii_stored _ _ 1 1 unit_sphere_has_radii). lra. }
  destruct (setRadii_fields wgs84_world wgs84_model (Fin 1) (Fin 1) wgs84_model_valid)
    as (_ & Ha & Hb & He & _).
  rewrite eccentricity_of_Fin in He by lra.
  destruct (convertXYZToLatLongHeight_equatorial_plane unit_sphere_world wgs84_model
              wgs84_model 1 1 _ 0 0 Hv Ha Hb He) as (lon & _ & H); [lra|].
  exists lon. apply H.
  cbn [Number.mul Number.add Number.sub Number.flip].
  rewrite sqrt_Fin by lra.
  replace (0 * 0 + 0 * 0)%R with 0%R by lra. rewrite sqrt_0.
  cbn [Number.sub Number.add Number.flip]. f_equal. lra.
Defined.



(** The rows that [computeCoordinateFrame] writes for a real latitude
    and longitude: east and up are unit vectors, north is orthogonal
    to both, but east . up = - sin(2 lon) cos(lat) and |north|^2 =
    1 - (east . up)^2.  So the rows are orthonormal, and then
    east x north = up, exactly where sin(2 lon) cos(lat) = 0. *)
Theorem computeCoordinateFrame_geometry (w : World) (m : loc) (lat lon : R) :
  scratch_ok w → is_Some (heap w !! m) →
  let w' := exec (computeCoordinateFrame (Fin lat) (Fin lon) m) w in
  ∃ e n u : vec3,
    row3 w' m 0 = some3 e ∧ row3 w' m 1 = some3 n ∧ row3 w' m 2 = some3 u ∧
    dot3 e e = Fin 1 ∧ dot3 u u = Fin 1 ∧
    dot3 n e = Fin 0 ∧ dot3 n u = Fin 0 ∧
    dot3 e u = Fin (- (sin (2 * lon) * cos lat)) ∧
    dot3 n n = Fin (1 - sin (2 * lon) * cos lat * (sin (2 * lon) * cos lat)) ∧
    ((sin (2 * lon) * cos lat)%R = 0%R → cross3 e n = u).
Proof.
  intros Hok Hv w'.
  destruct (computeCoordinateFrame_spec w m (Fin lat) (Fin lon) Hok) as (Hrows & _).
  destruct (Hrows Hv) as (R0 & R1 & R2). fold w' in R0, R1, R2.
  exists (eastVector (Fin lon)), (northVector (Fin lat) (Fin lon)),
         (upVector (Fin lat) (Fin lon)).
  split; [exact R0|]. split; [exact R1|]. split; [exact R2|].
  pose proof (sin2_cos2 lat) as Hlat. pose proof (sin2_cos2 lon) as Hlon.
  unfold Rsqr in Hlat, Hlon.
  pose proof (sin_2a lon) as H2.
  set (sl := sin lon) in *. set (cl := cos lon) in *.
  set (sp := sin lat) in *. set (cp := cos lat) in *.
  unfold northVector, cross3, dot3, eastVector, upVector.
  cbn [Math.sin Math.cos Number.mul Number.add Number.sub Number.flip].
  fold sl cl sp cp. rewrite H2.
  split; [f_equal; lra|].
  split.
  { f_equal.
    replace (cl * cp * (cl * cp) + sl * cp * (sl * cp) + sp * sp)%R
      with ((sl * sl + cl * cl) * (cp * cp) + sp * sp)%R by ring.
    rewrite Hlon. lra. }
  split; [f_equal; ring|]. split; [f_equal; ring|]. split; [f_equal; ring|].
  split.
  { f_equal.
    replace ((sl * cp * 0 + - (sp * - cl)) * (sl * cp * 0 + - (sp * - cl)) +
             (sp * - sl + - (cl * cp * 0)) * (sp * - sl + - (cl * cp * 0)) +
             (cl * cp * - cl + - (sl * cp * - sl)) *
             (cl * cp * - cl + - (sl * cp * - sl)))%R
      with (sp * sp * (sl * sl + cl * cl) +
            cp * cp * ((sl * sl + cl * cl) * (sl * sl + cl * cl)
                       - 4 * (sl * sl) * (cl * cl)))%R by ring.
    rewrite Hlon. lra. }
  intros H0.
  assert (Hz : (sl * cl * cp = 0)%R) by lra.
  f_equal; [f_equal|]; f_equal.
  - transitivity (cl * cp * (sl * sl + cl * cl) - 2 * sl * (sl * cl * cp))%R; [ring|].
    rewrite Hlon, Hz. ring.
  - transitivity (sl * cp * (sl * sl + cl * cl) - 2 * cl * (sl * cl * cp))%R; [ring|].
    rewrite Hlon, Hz. ring.
  - transitivity (sp * (sl * sl + cl * cl))%R; [ring|].
    rewrite Hlon. ring.
Qed.

Lemma computeCoordinateFrame_geometry_witness :
  ∃ e n u : vec3,
    row3 (exec (computeCoordinateFrame (Fin 0) (Fin 0) frame_matrix) frame_world)
         frame_matrix 0 = some3 e ∧
    row3 (exec (computeCoordinateFrame (Fin 0) (Fin 0) frame_matrix) frame_world)
         frame_matrix 1 = some3 n ∧
    row3 (exec (computeCoordinateFrame (Fin 0) (Fin 0) frame_matrix) frame_world)
         frame_matrix 2 = some3 u ∧
    cross3 e n = u.
Proof.
  destruct frame_world_ok as [Hok Hv].
  destruct (computeCoordinateFrame_geometry frame_world frame_matrix 0 0 Hok Hv)
    as (e & n & u & R0 & R1 & R2 & _ & _ & _ & _ & _ & _ & Hc).
  exists e, n, u. split; [exact R0|]. split; [exact R1|]. split; [exact R2|].
  apply Hc. rewrite Rmult_0_r, sin_0. lra.
Defined.

(** For a point of the surface of the ellipsoid the two ways to the
    local transform agree: [computeLocalToWorldTransformFromXYZ] on
    the output of [convertLatLongHeightToXYZ(lat, lon, 0)] and
    [computeLocalToWorldTransformFromLatLongHeight(lat, lon, 0)] give
    matrices with the same four rows. *)
Theorem transforms_agree_on_surface (w : World) (this : loc) (re rp lat lon : R) :
  scratch_ok w →
  has_radii w this re rp →
  (0 < re)%R → (0 < rp)%R →
  (- (PI / 2) < lat < PI / 2)%R → (- PI < lon <= PI)%R →
  let position := convertLatLongHeightToXYZ this (Fin lat) (Fin lon) (Fin 0) None in
  let v := eval position w in
  let w1 := exec position w in
  let fromXYZ :=
    computeLocalToWorldTransformFromXYZ this
      (stored w1 v (Index 0)) (stored w1 v (Index 1)) (stored w1 v (Index 2)) in
  let fromLLH :=
    computeLocalToWorldTransformFromLatLongHeight this (Fin lat) (Fin lon) (Fin 0) None in
  ∀ row, row < 4 →
    row3 (exec fromXYZ w1) (eval fromXYZ w1) row =
    row3 (exec fromLLH w) (eval fromLLH w) row ∧
    field (exec fromXYZ w1) (eval fromXYZ w1) (Matrix.entry row 3) =
    field (exec fromLLH w) (eval fromLLH w) (Matrix.entry row 3).
Proof.
  intros Hok Hm Hre Hrp Hlat Hlon position v w1 fromXYZ fromLLH.
  destruct (has_radii_stored w this re rp Hm) as (Hv & Sa & Sb & Se); [lra|].
  destruct (convertLatLongHeightToXYZ_omitted w this (Fin lat) (Fin lon) (Fin 0))
    as (Hfresh & Hxyz & _ & _ & Hs1 & Hframe).
  fold position v w1 in Hfresh, Hxyz, Hs1, Hframe.
  assert (Hne : this ≠ v).
  { intros Heq. rewrite Heq, Hfresh in Hv. by destruct Hv. }
  assert (Hsame : ∀ k, stored w1 this k = stored w this k).
  { intros k. unfold stored. by rewrite Hframe. }
  assert (Hok1 : scratch_ok w1) by (unfold scratch_ok; by rewrite Hs1).
  pose proof (surface_round_trip re rp lat lon lon 0 Hre Hrp Hlat Hlon) as Hrt.
  cbv zeta in Hrt.
  unfold xyz_of in Hxyz. rewrite Sa, Se in Hxyz.
  destruct (computeLocalToWorldTransformFromLatLongHeight_omitted w this
              (Fin lat) (Fin lon) (Fin 0) Hok)
    as (_ & (L0 & L1 & L2 & L3) & (D0 & D1 & D2 & D3) & _).
  fold fromLLH in L0, L1, L2, L3, D0, D1, D2, D3.
  unfold xyz_of in L3. rewrite Sa, Se in L3.
  destruct (geodeticToCartesian (Fin re) (Fin (1 - rp / re * (rp / re)))
              (Fin lat) (Fin lon) (Fin 0)) as [[X Y] Z].
  unfold components in Hxyz. cbn [some3] in Hxyz. injection Hxyz as H0 H1 H2.
  assert (HX : stored w1 v (Index 0) = X) by (unfold stored; by rewrite H0).
  assert (HY : stored w1 v (Index 1) = Y) by (unfold stored; by rewrite H1).
  assert (HZ : stored w1 v (Index 2) = Z) by (unfold stored; by rewrite H2).
  unfold fromXYZ. rewrite HX, HY, HZ.
  destruct (computeLocalToWorldTransformFromXYZ_run w1 this X Y Z Hok1)
    as (_ & _ & _ & (R0 & R1 & R2 & R3) & (C0 & C1 & C2 & C3) & _).
  assert (Hllh : llh_of w1 this X Y Z = (Fin lat, Fin lon, Fin 0)).
  { unfold llh_of. rewrite !Hsame, Sa, Sb, Se. apply Hrt. left. simpl. lra. }
  rewrite Hllh in R0, R1, R2. cbn [fst snd] in R0, R1, R2.
  intros row Hrow.
  destruct row as [|[|[|[|row]]]]; [| | | |lia].
  - split; [rewrite R0, L0 | rewrite C0, D0]; reflexivity.
  - split; [rewrite R1, L1 | rewrite C1, D1]; reflexivity.
  - split; [rewrite R2, L2 | rewrite C2, D2]; reflexivity.
  - split; [rewrite R3, L3 | rewrite C3, D3]; reflexivity.
Qed.

Lemma transforms_agree_on_surface_witness :
  let position := convertLatLongHeightToXYZ wgs84_model (Fin 0) (Fin 0) (Fin 0) None in
  let v := eval position wgs84_world in
  let w1 := exec position wgs84_world in
  let fromXYZ :=
    computeLocalToWorldTransformFromXYZ wgs84_model
      (stored w1 v (Index 0)) (stored w1 v (Index 1)) (stored w1 v (Index 2)) in
  let fromLLH :=
    computeLocalToWorldTransformFromLatLongHeight wgs84_model (Fin 0) (Fin 0) (Fin 0) None in
  row3 (exec fromXYZ w1) (eval fromXYZ w1) 3 =
  row3 (exec fromLLH wgs84_world) (eval fromLLH wgs84_world) 3.
Proof.
  pose proof PI_RGT_0 as Hpi.
  apply (transforms_agree_on_surface wgs84_world wgs84_model 6378137 6356752.3142 0 0
           wgs84_world_scratch_ok wgs84_has_radii); [lra | lra | lra | lra | lia].
Defined.

(** ** Ranges and special values *)

Lemma Ratan2_range (y x : R) : (- PI < Ratan2 y x <= PI)%R.
Proof.
  pose proof PI_RGT_0 as Hpi. pose proof (atan_bound (y / x)) as Hb.
  unfold Ratan2.
  destruct (decide (0 < x)%R) as [Hpos|Hnp]; [lra|].
  destruct (decide (x < 0)%R) as [Hneg|Hnn].
  - assert (Hinv : (/ x < 0)%R) by (by apply Rinv_lt_0_compat).
    destruct (decide (0 <= y)%R) as [Hy|Hy].
    + assert (Hq : (y / x <= 0)%R).
      { unfold Rdiv. assert (0 <= y * - / x)%R by (apply Rmult_le_pos; lra). lra. }
      assert (atan (y / x) <= 0)%R.
      { rewrite <- atan_0. destruct Hq as [Hq|Hq].
        - left. by apply atan_increasing.
        - rewrite Hq. lra. }
      lra.
    + assert (Hq : (0 < y / x)%R).
      { unfold Rdiv. replace (y * / x)%R with (- y * - / x)%R by ring.
        apply Rmult_lt_0_compat; lra. }
      assert (0 < atan (y / x))%R.
      { rewrite <- atan_0. by apply atan_increasing. }
      lra.
  - destruct (decide (0 < y)%R); [lra|]. destruct (decide (y < 0)%R); lra.
Qed.

Lemma Math_atan_range (q : num) :
  Math.atan q = NaN ∨ ∃ r, Math.atan q = Fin r ∧ (- (PI / 2) <= r <= PI / 2)%R.
Proof.
  pose proof PI_RGT_0 as Hpi.
  destruct q as [r| | |]; cbn [Math.atan]; [| | |by left]; right; eexists;
    (split; [reflexivity|]); [|lra|lra].
  pose proof (atan_bound r). lra.
Qed.

Lemma Math_atan2_range (y x : num) :
  Math.atan2 y x = NaN ∨ ∃ r, Math.atan2 y x = Fin r ∧ (- PI <= r <= PI)%R.
Proof.
  pose proof PI_RGT_0 as Hpi.
  destruct y as [b| | |], x as [a| | |]; cbn [Math.atan2]; try (by left); right.
  - eexists. split; [reflexivity|]. pose proof (Ratan2_range b a). lra.
  - eexists. split; [reflexivity|]. lra.
  - destruct (decide (b < 0)%R); eexists; (split; [reflexivity|]); lra.
  - eexists. split; [reflexivity|]. lra.
  - eexists. split; [reflexivity|]. lra.
  - eexists. split; [reflexivity|]. lra.
  - eexists. split; [reflexivity|]. lra.
  - eexists. split; [reflexivity|]. lra.
  - eexists. split; [reflexivity|]. lra.
Qed.

(** Whatever the three coordinates and whatever the radii of the model,
    the latitude that [convertXYZToLatLongHeight] returns is NaN or
    lies in [-pi/2, pi/2], and the longitude is NaN or lies in
    [-pi, pi]. *)
Theorem convertXYZToLatLongHeight_angle_ranges
    (w : World) (this r : loc) (X Y Z : num) :
  is_Some (heap w !! r) →
  let w' := exec (convertXYZToLatLongHeight this X Y Z (Some r)) w in
  (field w' r (Index 0) = Some NaN ∨
   ∃ lat, field w' r (Index 0) = Some (Fin lat) ∧ (- (PI / 2) <= lat <= PI / 2)%R) ∧
  (field w' r (Index 1) = Some NaN ∨
   ∃ lon, field w' r (Index 1) = Some (Fin lon) ∧ (- PI <= lon <= PI)%R).
Proof.
  intros Hr w'.
  destruct (convertXYZToLatLongHeight_given w this r X Y Z) as (_ & Hc & _).
  specialize (Hc Hr). fold w' in Hc.
  unfold components, llh_of, cartesianToGeodetic in Hc. cbv zeta in Hc.
  cbn [some3] in Hc. injection Hc as H0 H1 _.
  rewrite H0, H1. split.
  - unfold bowringLatitude. cbv zeta.
    match goal with |- context [Math.atan ?q] => destruct (Math_atan_range q) as [->|(x & -> & Hx)] end.
    + by left.
    + right. by exists x.
  - destruct (Math_atan2_range Y X) as [->|(x & -> & Hx)].
    + by left.
    + right. by exists x.
Qed.

Lemma convertXYZToLatLongHeight_angle_ranges_witness :
  field (exec (convertXYZToLatLongHeight wgs84_model (Fin 1) (Fin 2) (Fin 3)
                 (Some wgs84_model)) wgs84_world) wgs84_model (Index 1) = Some NaN ∨
  ∃ lon, field (exec (convertXYZToLatLongHeight wgs84_model (Fin 1) (Fin 2) (Fin 3)
                        (Some wgs84_model)) wgs84_world) wgs84_model (Index 1)
         = Some (Fin lon) ∧ (- PI <= lon <= PI)%R.
Proof.
  apply (convertXYZToLatLongHeight_angle_ranges wgs84_world wgs84_model wgs84_model
           (Fin 1) (Fin 2) (Fin 3) wgs84_model_valid).
Defined.

(** No argument makes a conversion fail; what is not a number goes
    through.  A latitude that is not finite (NaN or an infinity) makes
    all three outputs of [convertLatLongHeightToXYZ] NaN, and an X or Y
    that is NaN makes all three outputs of [convertXYZToLatLongHeight]
    NaN, whatever the other arguments and the radii are. *)
Theorem conversions_propagate_NaN
    (w : World) (this r : loc) (a b c : num) :
  is_Some (heap w !! r) →
  (Number.is_finite a = false →
   components (exec (convertLatLongHeightToXYZ this a b c (Some r)) w) r =
     (Some NaN, Some NaN, Some NaN)) ∧
  (a = NaN ∨ b = NaN →
   components (exec (convertXYZToLatLongHeight this a b c (Some r)) w) r =
     (Some NaN, Some NaN, Some NaN)).
Proof.
  intros Hr.
  assert (Hm : ∀ x, (x * NaN)%js = NaN) by (by intros []).
  assert (Hm' : ∀ x, (NaN * x)%js = NaN) by (by intros []).
  assert (Hsub : ∀ x, (x - NaN)%js = NaN) by (by intros []).
  assert (Hsub' : ∀ x, (NaN - x)%js = NaN) by (by intros []).
  assert (Hd : ∀ x, (x / NaN)%js = NaN) by (by intros []).
  assert (Hd' : ∀ x, (NaN / x)%js = NaN) by (by intros []).
  assert (Hadd : ∀ x, (x + NaN)%js = NaN) by (by intros []).
  assert (Hadd' : ∀ x, (NaN + x)%js = NaN) by (by intros []).
  assert (Ha2 : ∀ x, Math.atan2 x NaN = NaN) by (by intros []).
  assert (Ha2' : ∀ x, Math.atan2 NaN x = NaN) by (by intros []).
  split.
  - intros Ha.
    destruct (convertLatLongHeightToXYZ_given w this r a b c) as (_ & Hc & _).
    rewrite (Hc Hr). unfold xyz_of, geodeticToCartesian, primeVerticalRadius.
    assert (Hs : Math.sin a = NaN) by (by destruct a).
    assert (Hco : Math.cos a = NaN) by (by destruct a).
    cbv zeta. rewrite Hs, Hco.
    generalize (stored w this _radiusEquator) (stored w this _eccentricitySquared).
    intros re e2.
    repeat first
      [ rewrite Hm | rewrite Hm' | rewrite Hsub | rewrite Hsub' | rewrite Hd
      | rewrite Hd' | rewrite Hadd | rewrite Hadd'
      | progress cbn [Math.sqrt Math.atan Math.sin Math.cos] ].
    reflexivity.
  - intros Hab.
    destruct (convertXYZToLatLongHeight_given w this r a b c) as (_ & Hc & _).
    rewrite (Hc Hr). unfold llh_of, cartesianToGeodetic, bowringLatitude,
      primeVerticalRadius, heightDivisor.
    generalize (stored w this _radiusEquator) (stored w this _radiusPolar)
      (stored w this _eccentricitySquared).
    intros re rp e2. cbv zeta.
    assert (Hp : Math.sqrt (a * a + b * b)%js = NaN).
    { destruct Hab as [-> | ->]; [done|]. by destruct a. }
    assert (Hlon : Math.atan2 b a = NaN).
    { destruct Hab as [-> | ->]; [by destruct b | done]. }
    rewrite Hp, Hlon.
    repeat first
      [ rewrite Hm | rewrite Hm' | rewrite Hsub | rewrite Hsub' | rewrite Hd
      | rewrite Hd' | rewrite Hadd | rewrite Hadd' | rewrite Ha2 | rewrite Ha2'
      | progress cbn [Math.sqrt Math.atan Math.sin Math.cos Number.strict_eq] ].
    reflexivity.
Qed.

Lemma conversions_propagate_NaN_witness :
  components (exec (convertLatLongHeightToXYZ wgs84_model PInf (Fin 0) (Fin 0)
                      (Some wgs84_model)) wgs84_world) wgs84_model =
    (Some NaN, Some NaN, Some NaN).
Proof.
  apply (conversions_propagate_NaN wgs84_world wgs84_model wgs84_model
           PInf (Fin 0) (Fin 0) wgs84_model_valid).
  reflexivity.
Defined.

(** The symmetries of [convertLatLongHeightToXYZ] for a model with
    nonzero real radii: the opposite latitude gives the mirror image in
    the equatorial plane (Z changes sign), the longitude turned by pi
    gives the point turned about the polar axis (X and Y change
    sign), and a longitude turned by a whole number of turns gives the
    same point. *)
Theorem convertLatLongHeightToXYZ_symmetries
    (w : World) (this r : loc) (re rp lat lon h : R) (k : nat) :
  is_Some (heap w !! r) →
  has_radii w this re rp →
  re ≠ 0%R → rp ≠ 0%R →
  let point (latitude longitude : R) :=
    components (exec (convertLatLongHeightToXYZ this (Fin latitude) (Fin longitude)
                        (Fin h) (Some r)) w) r in
  ∃ x y z : R,
    point lat lon = (Some (Fin x), Some (Fin y), Some (Fin z)) ∧
    point (- lat)%R lon = (Some (Fin x), Some (Fin y), Some (Fin (- z))) ∧
    point lat (lon + PI)%R = (Some (Fin (- x)), Some (Fin (- y)), Some (Fin z)) ∧
    point lat (lon + 2 * INR k * PI)%R = (Some (Fin x), Some (Fin y), Some (Fin z)).
Proof.
  intros Hr Hm Hre Hrp point.
  destruct (has_radii_stored w this re rp Hm Hre) as (_ & Sa & _ & Se).
  set (q := (rp / re)%R) in *.
  assert (Hq : q ≠ 0%R).
  { unfold q. intros H0. apply Hrp.
    apply (Rmult_eq_compat_r re) in H0. unfold Rdiv in H0.
    rewrite Rmult_assoc, Rinv_l in H0 by done. lra. }
  assert (Hpos : ∀ t, (0 < 1 - (1 - q * q) * (sin t)²)%R).
  { intros t. pose proof (sin2_cos2 t) as Hsc. unfold Rsqr in *.
    by apply (positive_under_root q (sin t) (cos t)). }
  assert (Hpoint : ∀ t l, point t l =
    (Some (Fin ((RprimeVertical re (1 - q * q) t + h) * cos t * cos l)),
     Some (Fin ((RprimeVertical re (1 - q * q) t + h) * cos t * sin l)),
     Some (Fin ((RprimeVertical re (1 - q * q) t * (1 - (1 - q * q)) + h) * sin t)))).
  { intros t l. unfold point.
    destruct (convertLatLongHeightToXYZ_given w this r (Fin t) (Fin l) (Fin h))
      as (_ & Hc & _).
    rewrite (Hc Hr). unfold xyz_of. rewrite Sa, Se.
    by rewrite geodeticToCartesian_Fin by apply Hpos. }
  assert (HN : RprimeVertical re (1 - q * q) (- lat) = RprimeVertical re (1 - q * q) lat).
  { unfold RprimeVertical. rewrite sin_neg. unfold Rsqr.
    by replace (- sin lat * - sin lat)%R with (sin lat * sin lat)%R by ring. }
  eexists _, _, _. split; [apply Hpoint|]. rewrite !Hpoint.
  split; [|split].
  - rewrite HN, cos_neg, sin_neg. repeat f_equal. ring.
  - rewrite neg_cos, neg_sin. repeat f_equal; ring.
  - by rewrite cos_period, sin_period.
Qed.

Lemma convertLatLongHeightToXYZ_symmetries_witness :
  ∃ x y z : R,
    components (exec (convertLatLongHeightToXYZ wgs84_model (Fin 1) (Fin 2) (Fin 3)
                        (Some wgs84_model)) wgs84_world) wgs84_model =
      (Some (Fin x), Some (Fin y), Some (Fin z)) ∧
    components (exec (convertLatLongHeightToXYZ wgs84_model (Fin (- 1)) (Fin 2) (Fin 3)
                        (Some wgs84_model)) wgs84_world) wgs84_model =
      (Some (Fin x), Some (Fin y), Some (Fin (- z))).
Proof.
  destruct (convertLatLongHeightToXYZ_symmetries wgs84_world wgs84_model wgs84_model
              6378137 6356752.3142 1 2 3 0 wgs84_model_valid wgs84_has_radii)
    as (x & y & z & H1 & H2 & _); [lra | lra |].
  by exists x, y, z.
Defined.

(** The up vector of a point of the surface is the direction along
    which [convertLatLongHeightToXYZ] measures the height there:
    [computeLocalUpVector] on the output of
    [convertLatLongHeightToXYZ(lat, lon, 0)] gives
    (cos(lon)cos(lat), sin(lon)cos(lat), sin(lat)). *)
Theorem computeLocalUpVector_on_surface
    (w : World) (this : loc) (re rp lat lon : R) :
  has_radii w this re rp →
  (0 < re)%R → (0 < rp)%R →
  (- (PI / 2) < lat < PI / 2)%R → (- PI < lon <= PI)%R →
  let position := convertLatLongHeightToXYZ this (Fin lat) (Fin lon) (Fin 0) None in
  let v := eval position w in
  let w1 := exec position w in
  let upv :=
    computeLocalUpVector this
      (stored w1 v (Index 0)) (stored w1 v (Index 1)) (stored w1 v (Index 2)) in
  components (exec upv w1) (eval upv w1) =
    (Some (Fin (cos lon * cos lat)), Some (Fin (sin lon * cos lat)), Some (Fin (sin lat))).
Proof.
  intros Hm Hre Hrp Hlat Hlon position v w1 upv.
  destruct (has_radii_stored w this re rp Hm) as (Hv & Sa & Sb & Se); [lra|].
  destruct (convertLatLongHeightToXYZ_omitted w this (Fin lat) (Fin lon) (Fin 0))
    as (Hfresh & Hxyz & _ & _ & _ & Hframe).
  fold position v w1 in Hfresh, Hxyz, Hframe.
  assert (Hne : this ≠ v).
  { intros Heq. rewrite Heq, Hfresh in Hv. by destruct Hv. }
  assert (Hsame : ∀ k, stored w1 this k = stored w this k).
  { intros k. unfold stored. by rewrite Hframe. }
  pose proof (surface_round_trip re rp lat lon lon 0 Hre Hrp Hlat Hlon) as Hrt.
  cbv zeta in Hrt.
  unfold xyz_of in Hxyz. rewrite Sa, Se in Hxyz.
  destruct (geodeticToCartesian (Fin re) (Fin (1 - rp / re * (rp / re)))
              (Fin lat) (Fin lon) (Fin 0)) as [[X Y] Z].
  unfold components in Hxyz. cbn [some3] in Hxyz. injection Hxyz as H0 H1 H2.
  assert (HX : stored w1 v (Index 0) = X) by (unfold stored; by rewrite H0).
  assert (HY : stored w1 v (Index 1) = Y) by (unfold stored; by rewrite H1).
  assert (HZ : stored w1 v (Index 2) = Z) by (unfold stored; by rewrite H2).
  unfold upv. rewrite HX, HY, HZ.
  destruct (computeLocalUpVector_run w1 this X Y Z) as (_ & _ & _ & Hc & _).
  assert (Hllh : llh_of w1 this X Y Z = (Fin lat, Fin lon, Fin 0)).
  { unfold llh_of. rewrite !Hsame, Sa, Sb, Se. apply Hrt. left. simpl. lra. }
  rewrite Hllh in Hc. exact Hc.
Qed.

Lemma computeLocalUpVector_on_surface_witness :
  let position := convertLatLongHeightToXYZ wgs84_model (Fin 0) (Fin 0) (Fin 0) None in
  let v := eval position wgs84_world in
  let w1 := exec position wgs84_world in
  let upv :=
    computeLocalUpVector wgs84_model
      (stored w1 v (Index 0)) (stored w1 v (Index 1)) (stored w1 v (Index 2)) in
  components (exec upv w1) (eval upv w1) =
    (Some (Fin (cos 0 * cos 0)), Some (Fin (sin 0 * cos 0)), Some (Fin (sin 0))).
Proof.
  pose proof PI_RGT_0 as Hpi.
  apply (computeLocalUpVector_on_surface wgs84_world wgs84_model 6378137 6356752.3142 0 0
           wgs84_has_radii); lra.
Defined.
